(** * trajectories.py: limits parsing, contact extraction, statistics,
      aggregation and heat-map labelling

    A shallow embedding of the data-transform core of [trajectories.py].

    - Python integers are [Z]; [float] values and float64 array cells are
      binary64 primitive floats; [str] values are [string], so names are made
      of 8-bit characters and [\d] is [0-9].
    - A raised exception or a [sys.exit] is the [Raise] alternative of
      [result]; logging is left out.
    - Calls into pytraj, [statistics], seaborn and matplotlib are left out:
      the functions take the data those calls return, or the library
      function as a parameter.
    - A [pd.DataFrame] is a list of named columns or a list of rows with
      their index labels; the tables that [reduce_contacts_dataframe] shares
      with its caller live in a store of objects.
    - The number of frames is below 2^53, so that a length converts to a
      float exactly and the quotient of two lengths is the correctly rounded
      one that Python's true division of two integers returns.
    - The statistics [contacts_csv] computes are floats; the table the heat-map
      functions read holds their exact values as rationals, and exists when
      they are all finite ([stats_table]).
    - [float()] is a parameter of [restricted_float].  Of [heat_map_contacts]
      the matrices, the two titles and the path of the file are kept, the
      drawing is not; of the main block, what follows the statistics.
    - [create_log], [load_trajectory], [rmsd] and [plot_individual_contacts]
      only log, read files and draw: they are not embedded. *)

From Stdlib Require Import Ascii PrimFloat Uint63 QArith FloatOps FloatAxioms SpecFloat.
From stdpp Require Import gmap strings list sorting pretty.

Set Default Proof Using "Type".
Set Warnings "-clear-no-such-hyp".

(** ** The Python runtime pieces the program relies on *)

Module Py.

(** The four [raise argparse.ArgumentTypeError(...)] sites of
    [check_limits], told apart by what their message reports. *)
Inductive arg_error : Type :=
| MaskFormat (mask : string)
| RoiFormat (roi : string)
| RoiMinOutside (mask_min roi_min : Z)
| RoiMaxOutside (mask_min roi_max : Z).

Inductive exn : Type :=
| ArgumentTypeError (msg : arg_error)
| SystemExit (code : Z)
| KeyError (key : string)
| ValueError (what : string)
| IndexError
| TypeError
| ZeroDivisionError
| StatisticsError.

Inductive result (A : Type) : Type :=
| Ok (a : A)
| Raise (e : exn).
Arguments Ok {A} a.
Arguments Raise {A} e.

Definition bind {A B : Type} (x : result A) (k : A → result B) : result B :=
  match x with
  | Ok a => k a
  | Raise e => Raise e
  end.

Definition of_option {A : Type} (e : exn) (x : option A) : result A :=
  match x with
  | Some a => Ok a
  | None => Raise e
  end.

(** Truthiness of an optional string argument: [None] and [""] are falsy. *)
Definition truthy (x : option string) : option string :=
  match x with
  | Some s => if decide (s = "") then None else Some s
  | None => None
  end.

End Py.
Export Py.

#[export] Instance result_bind : MBind result := λ A B k x, Py.bind x k.
#[export] Instance result_ret : MRet result := @Py.Ok.

(** ** Regular expressions

    The three patterns of the program are sequences of single-character
    classes, each repeated a fixed number of times or with a greedy [+], and
    possibly wrapped in a capturing group.  [match_here] is the backtracking
    matcher of [re] restricted to that fragment; [search] scans the start
    positions from the left. *)

Module Re.

Inductive cls : Type :=
| Lit (c : ascii)      (* a literal character *)
| Digit                (* \d *)
| NonDigit             (* \D *)
| AnyChar.             (* .  (no newline) *)

Inductive quant : Type :=
| Exactly (n : nat)    (* {n}; a bare class is {1} *)
| Plus.                (* +, greedy *)

Record atom : Type := Atom { a_cls : cls; a_quant : quant; a_group : bool }.

Definition regex : Type := list atom.

Definition is_digit (c : ascii) : bool :=
  let n := N_of_ascii c in ((48 <=? n) && (n <=? 57))%N.

Definition accepts (k : cls) (c : ascii) : bool :=
  match k with
  | Lit c' => bool_decide (c = c')
  | Digit => is_digit c
  | NonDigit => negb (is_digit c)
  | AnyChar => negb (bool_decide (c = "010"%char))
  end.

(** Length of the longest prefix of [s] made of characters of class [k]. *)
Fixpoint run (k : cls) (s : list ascii) : nat :=
  match s with
  | c :: s' => if accepts k c then S (run k s') else O
  | [] => O
  end.

Definition capture (a : atom) (w : list ascii) (caps : list string) : list string :=
  if a_group a then String.string_of_list_ascii w :: caps else caps.

(** Greedy repetition: the longest run first, one character given back at a
    time, never fewer than one. *)
Fixpoint backtrack (continue : nat → option (list string)) (j : nat)
  : option (list string) :=
  match j with
  | O => None
  | S j' =>
      match continue j with
      | Some caps => Some caps
      | None => backtrack continue j'
      end
  end.

Fixpoint match_here (r : regex) (s : list ascii) : option (list string) :=
  match r with
  | [] => Some []
  | a :: r' =>
      let continue (n : nat) := capture a (take n s) <$> match_here r' (drop n s) in
      match a_quant a with
      | Exactly n => if decide (n ≤ run (a_cls a) s)%nat then continue n else None
      | Plus => backtrack continue (run (a_cls a) s)
      end
  end.

Fixpoint search_from (r : regex) (s : list ascii) : option (list string) :=
  match match_here r s with
  | Some caps => Some caps
  | None =>
      match s with
      | [] => None
      | _ :: s' => search_from r s'
      end
  end.

(** [pattern.search(s)]: the captured groups of the leftmost match. *)
Definition search (r : regex) (s : string) : option (list string) :=
  search_from r (String.list_ascii_of_string s).

(** [match.group(i)], [i >= 1]. *)
Definition group (m : list string) (i : nat) : result string :=
  match i with
  | O => Raise IndexError
  | S i' => of_option IndexError (m !! i')
  end.

Arguments group : simpl never.

Definition lit (c : ascii) : atom := Atom (Lit c) (Exactly 1) false.
Definition grp (k : cls) (q : quant) : atom := Atom k q true.

(** What it means for [w] to be consumed by one atom. *)
Definition atom_accepts (a : atom) (w : list ascii) : Prop :=
  Forall (λ c, accepts (a_cls a) c = true) w ∧
  match a_quant a with
  | Exactly n => length w = n
  | Plus => (1 ≤ length w)%nat
  end.

(** [matches r s caps]: a prefix of [s] splits into words consumed by the
    atoms of [r] in turn, with [caps] the words of the capturing atoms. *)
Inductive matches : regex → list ascii → list string → Prop :=
| matches_nil s : matches [] s []
| matches_cons a r w s caps :
    atom_accepts a w →
    matches r s caps →
    matches (a :: r) (w ++ s) (capture a w caps).

(** A match somewhere in [s], as [search] looks for it. *)
Definition matches_in (r : regex) (s : list ascii) (caps : list string) : Prop :=
  ∃ pre rest, s = pre ++ rest ∧ matches r rest caps.

(** [s] has the form the pattern asks for. *)
Definition well_formed (r : regex) (s : string) : Prop :=
  ∃ caps, matches_in r (String.list_ascii_of_string s) caps.

End Re.

(** [int(s)] on a string of decimal digits.  Python also accepts a sign,
    surrounding blanks and underscores; the program only ever passes a [\d+]
    group, so anything else is [ValueError] here. *)
Definition digit_value (c : ascii) : Z := (Z.of_N (N_of_ascii c) - 48)%Z.

Definition int (s : string) : result Z :=
  let cs := String.list_ascii_of_string s in
  if decide (cs ≠ [] ∧ forallb Re.is_digit cs = true)
  then Ok (foldl (λ acc c, 10 * acc + digit_value c)%Z 0%Z cs)
  else Raise (ValueError "invalid literal for int()").
Arguments int : simpl never.

(** ** restricted_float *)

(** How a call of [restricted_float] ends: with the number, with
    [ArgumentTypeError(f"{x} not in range [0.0, 100.0]")], or with what
    [float()] raised. *)
Inductive range_check : Type :=
| Accepted (x : float)
| NotInRange (x : float)
| NotAFloat (e : exn).

Section restricted_float.

(** [float(s)], the conversion of the text of the argument, is Python's. *)
Context (float_of : string → result float).

Definition restricted_float (float_to_inspect : string) : range_check :=
  match float_of float_to_inspect with
  | Ok x =>
      if (PrimFloat.ltb x 0 || PrimFloat.ltb 100 x)%bool then NotInRange x
      else Accepted x
  | Raise e => NotAFloat e
  end.

End restricted_float.

(** ** check_limits *)

Record bounds : Type := Bounds { b_min : Z; b_max : Z }.

(** [limits = {"mask": {...}, "roi": {...}}]; an inner dictionary is either
    empty ([None]) or holds ["min"] and ["max"]. *)
Record limits : Type := Limits { l_mask : option bounds; l_roi : option bounds }.

(** [re.compile(":(\\d+)-(\\d+)")] *)
Definition pattern_mask : Re.regex :=
  [Re.lit ":"; Re.grp Re.Digit Re.Plus; Re.lit "-"; Re.grp Re.Digit Re.Plus].

(** [re.compile("(\\d+)-(\\d+)")] *)
Definition pattern_roi : Re.regex :=
  [Re.grp Re.Digit Re.Plus; Re.lit "-"; Re.grp Re.Digit Re.Plus].

(** [re.compile("(\\D{3})(\\d+).+-(\\D{3})(\\d+)")], built in the main block *)
Definition pattern_contact : Re.regex :=
  [Re.grp Re.NonDigit (Re.Exactly 3); Re.grp Re.Digit Re.Plus;
   Re.Atom Re.AnyChar Re.Plus false; Re.lit "-";
   Re.grp Re.NonDigit (Re.Exactly 3); Re.grp Re.Digit Re.Plus].

(** The two groups of a mask or ROI match, converted with [int]. *)
Definition min_max (m : list string) : result bounds :=
  g1 ← Re.group m 1; lo ← int g1;
  g2 ← Re.group m 2; hi ← int g2;
  Ok (Bounds lo hi).

Definition check_limits (mask roi : option string) : result limits :=
  limits_mask ←
    match truthy mask return result (option bounds) with
    | Some s =>
        match Re.search pattern_mask s with
        | Some m => b ← min_max m; Ok (Some b)
        | None => Raise (ArgumentTypeError (MaskFormat s))
        end
    | None => Ok None
    end;
  limits_roi ←
    match truthy roi return result (option bounds) with
    | Some s =>
        match Re.search pattern_roi s with
        | Some m => b ← min_max m; Ok (Some b)
        | None => Raise (ArgumentTypeError (RoiFormat s))
        end
    | None => Ok None
    end;
  match limits_mask, limits_roi with
  | Some m, Some r =>
      if decide (b_min m + b_min r >= b_max m)%Z
      then Raise (ArgumentTypeError (RoiMinOutside (b_min m) (b_min r)))
      else if decide (b_min m + b_max r >= b_max m)%Z
      then Raise (ArgumentTypeError (RoiMaxOutside (b_min m) (b_max r)))
      else Ok (Limits limits_mask limits_roi)
  | _, _ => Ok (Limits limits_mask limits_roi)
  end.

(** ** Tables

    A [pd.DataFrame] with the default [RangeIndex] is the ordered list of its
    named columns; a dictionary whose insertion order matters is an
    association list. *)

Inductive series : Type :=
| Range (n : nat)            (* range(n) *)
| Floats (l : list float).   (* a one-dimensional float64 array *)

Definition series_len (c : series) : nat :=
  match c with
  | Range n => n
  | Floats l => length l
  end.

Definition series_values (c : series) : list float :=
  match c with
  | Range n => (λ i, PrimFloat.of_uint63 (Uint63.of_Z (Z.of_nat i))) <$> seq 0 n
  | Floats l => l
  end.

Definition dict (K V : Type) : Type := list (K * V).

Fixpoint dict_get {K V : Type} `{EqDecision K} (k : K) (d : dict K V) : option V :=
  match d with
  | [] => None
  | (k', v) :: d' => if decide (k' = k) then Some v else dict_get k d'
  end.

(** [d[k] = v]: an existing key keeps its place, a new one goes last. *)
Fixpoint dict_set {K V : Type} `{EqDecision K} (k : K) (v : V) (d : dict K V) : dict K V :=
  match d with
  | [] => [(k, v)]
  | (k', v') :: d' =>
      if decide (k' = k) then (k', v) :: d' else (k', v') :: dict_set k v d'
  end.

Definition dict_keys {K V : Type} (d : dict K V) : list K := d.*1.

(** [d[k].append(v)] *)
Definition dict_append {K V : Type} `{EqDecision K} (missing : exn) (k : K) (v : V)
    (d : dict K (list V)) : result (dict K (list V)) :=
  l ← of_option missing (dict_get k d);
  Ok (dict_set k (l ++ [v]) d).

Definition frame : Type := dict string series.

Definition columns (df : frame) : list string := dict_keys df.

(** [pd.DataFrame(data)]: the columns must have one length. *)
Definition pd_DataFrame (data : dict string series) : result frame :=
  match data with
  | [] => Ok data
  | (_, c) :: rest =>
      if decide (Forall (λ kc, series_len kc.2 = series_len c) rest)
      then Ok data
      else Raise (ValueError "All arrays must be of the same length")
  end.

(** [df[names]]: the named columns, in the order asked for. *)
Fixpoint select_columns (df : frame) (names : list string) : result frame :=
  match names with
  | [] => Ok []
  | k :: names' =>
      c ← of_option (KeyError k) (dict_get k df);
      rest ← select_columns df names';
      Ok ((k, c) :: rest)
  end.

(** ** sort_contacts *)

(** [sorted(d)] on a dictionary with integer keys. *)
Definition sorted_keys {V : Type} (d : gmap Z V) : list Z :=
  merge_sort Z.le (map_to_list d).*1.

(** The first loop of [sort_contacts]: [tmp[donor][acceptor]] collects the
    names, ["frames"] goes straight to [ordered], a name the pattern does not
    match ends the run with status 1. *)
Fixpoint sort_contacts_scan (pattern : Re.regex) (contact_names : list string)
    (tmp : gmap Z (gmap Z (list string))) (ordered : list string)
  : result (gmap Z (gmap Z (list string)) * list string) :=
  match contact_names with
  | [] => Ok (tmp, ordered)
  | contact_name :: rest =>
      if decide (contact_name = "frames")
      then sort_contacts_scan pattern rest tmp (ordered ++ [contact_name])
      else
        match Re.search pattern contact_name with
        | Some m =>
            g2 ← Re.group m 2; key1 ← int g2;
            g4 ← Re.group m 4; key2 ← int g4;
            match tmp !! key1 with
            | Some inner =>
                match inner !! key2 with
                | Some names =>
                    sort_contacts_scan pattern rest
                      (<[key1 := <[key2 := names ++ [contact_name]]> inner]> tmp) ordered
                | None =>
                    sort_contacts_scan pattern rest
                      (<[key1 := <[key2 := [contact_name]]> inner]> tmp) ordered
                end
            | None =>
                sort_contacts_scan pattern rest
                  (<[key1 := {[key2 := [contact_name]]}]> tmp) ordered
            end
        | None => Raise (SystemExit 1)
        end
  end.

(** The second loop: donors ascending, acceptors ascending, names ascending. *)
Definition sort_contacts_emit (tmp : gmap Z (gmap Z (list string))) : list string :=
  key1 ← sorted_keys tmp;
  key2 ← sorted_keys (tmp !!! key1);
  merge_sort String.le ((tmp !!! key1) !!! key2).

Definition sort_contacts (contact_names : list string) (pattern : Re.regex)
  : result (list string) :=
  '(tmp, ordered) ← sort_contacts_scan pattern contact_names ∅ [];
  Ok (ordered ++ sort_contacts_emit tmp).

(** ** hydrogen_bonds *)

Definition float_of_nat (n : nat) : float :=
  PrimFloat.of_uint63 (Uint63.of_Z (Z.of_nat n)).

(** [second_half = d[int(len(d)/2):]] *)
Definition second_half (d : list float) : list float :=
  drop (length d / 2) d.

(** [len(second_half[second_half <= dist_thr]) / len(second_half) * 100];
    the quotient of two lengths and the product are binary64 operations. *)
Definition pct_contacts (dist_thr : float) (d : list float) : result float :=
  let half := second_half d in
  let within := filter (λ x, PrimFloat.leb x dist_thr = true) half in
  if decide (length half = 0)%nat
  then Raise ZeroDivisionError
  else Ok (float_of_nat (length within) / float_of_nat (length half) * 100)%float.
Arguments pct_contacts : simpl never.

Record hb_state : Type := HbState {
  data_hydrogen_bonds : dict string series;
  idx : nat;
  nb_intra_residue_contacts : Z;
  nb_frames_contacts_2nd_half_thr : Z
}.

(** One turn of [for h_bond in h_bonds.data], on the key of [h_bond]. *)
Definition hydrogen_bonds_step (dist : list (list float))
    (dist_thr contacts_frame_thr_2nd_half : float) (pattern_hb : Re.regex)
    (st : hb_state) (key : string) : result hb_state :=
  if decide (key ≠ "total_solute_hbonds") then
    st' ←
      match Re.search pattern_hb key with
      | Some m =>
          g2 ← Re.group m 2; g4 ← Re.group m 4;
          if decide (g2 = g4)
          then Ok (HbState (data_hydrogen_bonds st) (idx st)
                     (nb_intra_residue_contacts st + 1)
                     (nb_frames_contacts_2nd_half_thr st))
          else
            d ← of_option IndexError (dist !! idx st);
            pct ← pct_contacts dist_thr d;
            if PrimFloat.leb contacts_frame_thr_2nd_half pct
            then Ok (HbState (dict_set key (Floats d) (data_hydrogen_bonds st)) (idx st)
                       (nb_intra_residue_contacts st)
                       (nb_frames_contacts_2nd_half_thr st))
            else Ok (HbState (data_hydrogen_bonds st) (idx st)
                       (nb_intra_residue_contacts st)
                       (nb_frames_contacts_2nd_half_thr st + 1))
      | None => Ok st
      end;
    Ok (HbState (data_hydrogen_bonds st') (S (idx st'))
          (nb_intra_residue_contacts st') (nb_frames_contacts_2nd_half_thr st'))
  else Ok st.

Fixpoint hydrogen_bonds_loop (dist : list (list float))
    (dist_thr contacts_frame_thr_2nd_half : float) (pattern_hb : Re.regex)
    (keys : list string) (st : hb_state) : result hb_state :=
  match keys with
  | [] => Ok st
  | key :: rest =>
      st' ← hydrogen_bonds_step dist dist_thr contacts_frame_thr_2nd_half pattern_hb st key;
      hydrogen_bonds_loop dist dist_thr contacts_frame_thr_2nd_half pattern_hb rest st'
  end.

(** What pytraj hands to [hydrogen_bonds]: the frame count of the trajectory,
    the keys of [h_bonds.data] in order, and the rows of [dist]. *)
Record hbond_analysis : Type := HbondAnalysis {
  n_frames : nat;
  h_bonds : list string;
  dist : list (list float)
}.

Definition hydrogen_bonds (traj : hbond_analysis)
    (dist_thr contacts_frame_thr_2nd_half : float) (pattern_hb : Re.regex)
  : result frame :=
  let nb_total_contacts := (Z.of_nat (length (h_bonds traj)) - 1)%Z in
  st ← hydrogen_bonds_loop (dist traj) dist_thr contacts_frame_thr_2nd_half pattern_hb
         (h_bonds traj) (HbState [("frames", Range (n_frames traj))] 0 0 0);
  let nb_used_contacts :=
    (nb_total_contacts - nb_intra_residue_contacts st
     - nb_frames_contacts_2nd_half_thr st)%Z in
  if decide (nb_used_contacts = 0)%Z then Raise (SystemExit 0)
  else
    ordered_columns ← sort_contacts (dict_keys (data_hydrogen_bonds st)) pattern_hb;
    df ← pd_DataFrame (data_hydrogen_bonds st);
    select_columns df ordered_columns.

(** ** contacts_csv *)

Inductive value : Type :=
| Str (s : string)
| Num (x : float).

(** [data[k].append(v)] on the columns of the statistics table *)
Definition data_append (k : string) (v : value) (data : dict string (list value))
  : result (dict string (list value)) :=
  dict_append (KeyError k) k v data.

Section Statistics.

(** [statistics.mean], [statistics.median] (both raise [StatisticsError] on
    no data) and [round(_, 2)] are library code. *)
Context (mean median : list float → result float) (round2 : float → float).

(** One turn of [for contact_id in df.columns[1:]]. *)
Definition contacts_csv_step (df df_half : frame) (pattern : Re.regex)
    (data : dict string (list value)) (contact_id : string) : result (dict string (list value)) :=
  data ← data_append "contact" (Str contact_id) data;
  data ←
    match Re.search pattern contact_id with
    | Some m =>
        g2 ← Re.group m 2; data ← data_append "donor position" (Str g2) data;
        g1 ← Re.group m 1; data ← data_append "donor residue" (Str g1) data;
        g4 ← Re.group m 4; data ← data_append "acceptor position" (Str g4) data;
        g3 ← Re.group m 3; data_append "acceptor residue" (Str g3) data
    | None =>
        data ← data_append "donor position" (Str "not found") data;
        data ← data_append "donor residue" (Str "not found") data;
        data ← data_append "acceptor position" (Str "not found") data;
        data_append "acceptor_residue" (Str "not found") data
    end;
  half ← of_option (KeyError contact_id) (dict_get contact_id df_half);
  whole ← of_option (KeyError contact_id) (dict_get contact_id df);
  x ← mean (series_values half);
  data ← data_append "2nd_half_MD_mean_distance" (Num (round2 x)) data;
  x ← median (series_values half);
  data ← data_append "2nd_half_MD_median_distance" (Num (round2 x)) data;
  x ← mean (series_values whole);
  data ← data_append "whole_MD_mean_distance" (Num (round2 x)) data;
  x ← median (series_values whole);
  data_append "whole_MD_median_distance" (Num (round2 x)) data.

Fixpoint contacts_csv_loop (df df_half : frame) (pattern : Re.regex)
    (contact_ids : list string) (data : dict string (list value))
  : result (dict string (list value)) :=
  match contact_ids with
  | [] => Ok data
  | contact_id :: rest =>
      data ← contacts_csv_step df df_half pattern data contact_id;
      contacts_csv_loop df df_half pattern rest data
  end.

(** [len(df.index)] *)
Definition frame_len (df : frame) : nat :=
  match df with
  | [] => 0
  | (_, c) :: _ => series_len c
  end.

(** [df.iloc[k:]] *)
Definition iloc_from (k : nat) (df : frame) : frame :=
  (λ kc, (kc.1, Floats (drop k (series_values kc.2)))) <$> df.

(** The statistics table [contacts_csv] returns (and writes with [to_csv]). *)
Definition contacts_csv (df : frame) (pattern : Re.regex)
  : result (dict string (list value)) :=
  let data :=
    [("contact", []); ("donor position", []); ("donor residue", []);
     ("acceptor position", []); ("acceptor residue", []);
     ("2nd_half_MD_mean_distance", []); ("2nd_half_MD_median_distance", []);
     ("whole_MD_mean_distance", []); ("whole_MD_median_distance", [])] in
  let df_half := iloc_from (frame_len df / 2) df in
  contacts_csv_loop df df_half pattern (drop 1 (columns df)) data.

End Statistics.

(** ** The statistics table as the heat-map functions use it *)

(** A position cell is the captured text until [pd.to_numeric] replaces it by
    an integer. *)
Inductive cell : Type :=
| CStr (s : string)
| CInt (z : Z).

#[export] Instance cell_eq_dec : EqDecision cell.
Proof. solve_decision. Defined.

(** The four distance columns, [stats.columns[5:]]. *)
Inductive metric : Type :=
| Half_mean | Half_median | Whole_mean | Whole_median.

(** One row of the statistics table, with its index label.  The distance
    columns hold finite numbers that are only ever compared, so a rational
    stands for each; [number_contacts] is [None] while the table has no
    ["number contacts"] column. *)
Record stats_row (P : Type) : Type := StatsRow {
  label : nat;
  contact : string;
  donor_position : P;
  donor_residue : string;
  acceptor_position : P;
  acceptor_residue : string;
  half_mean : Q;
  half_median : Q;
  whole_mean : Q;
  whole_median : Q;
  number_contacts : option nat
}.
Arguments StatsRow {P}.
Arguments label {P}.
Arguments contact {P}.
Arguments donor_position {P}.
Arguments donor_residue {P}.
Arguments acceptor_position {P}.
Arguments acceptor_residue {P}.
Arguments half_mean {P}.
Arguments half_median {P}.
Arguments whole_mean {P}.
Arguments whole_median {P}.
Arguments number_contacts {P}.

Definition distance {P : Type} (dist_col : metric) (r : stats_row P) : Q :=
  match dist_col with
  | Half_mean => half_mean r
  | Half_median => half_median r
  | Whole_mean => whole_mean r
  | Whole_median => whole_median r
  end.

Definition with_positions {P P' : Type} (d a : P') (r : stats_row P) : stats_row P' :=
  StatsRow (label r) (contact r) d (donor_residue r) a (acceptor_residue r)
    (half_mean r) (half_median r) (whole_mean r) (whole_median r) (number_contacts r).

Definition with_number_contacts {P : Type} (n : option nat) (r : stats_row P) : stats_row P :=
  StatsRow (label r) (contact r) (donor_position r) (donor_residue r)
    (acceptor_position r) (acceptor_residue r)
    (half_mean r) (half_median r) (whole_mean r) (whole_median r) n.

(** [pd.to_numeric] on one cell: an integer stays, a digit string is read. *)
Definition to_numeric_cell (c : cell) : result Z :=
  match c with
  | CInt z => Ok z
  | CStr s => int s
  end.

Definition to_numeric (col : list cell) : result (list Z) := mapM to_numeric_cell col.

(** A cell used as a number. *)
Definition as_int (c : cell) : result Z :=
  match c with
  | CInt z => Ok z
  | CStr _ => Raise TypeError
  end.

Definition numeric_row (r : stats_row cell) : result (stats_row Z) :=
  d ← as_int (donor_position r);
  a ← as_int (acceptor_position r);
  Ok (with_positions d a r).

Definition numeric_rows (rows : list (stats_row cell)) : result (list (stats_row Z)) :=
  mapM numeric_row rows.

Definition cell_row (r : stats_row Z) : stats_row cell :=
  with_positions (CInt (donor_position r)) (CInt (acceptor_position r)) r.

(** ** The objects the heat-map functions share

    [reduce_contacts_dataframe] assigns to columns of the table it is given,
    which is the caller's object, and builds new tables; the store maps each
    table object to its current contents. *)

Abbreviation loc := positive.
Abbreviation store := (gmap loc (list (stats_row cell))).

Definition M (A : Type) : Type := store → store * result A.

#[export] Instance M_ret : MRet M := λ A a σ, (σ, Ok a).
#[export] Instance M_bind : MBind M := λ A B k x σ,
  match x σ with
  | (σ', Ok a) => k a σ'
  | (σ', Raise e) => (σ', Raise e)
  end.

Definition lift {A : Type} (x : result A) : M A := λ σ, (σ, x).
Definition read (l : loc) : M (list (stats_row cell)) :=
  λ σ, (σ, of_option (KeyError "no such table") (σ !! l)).
Definition write (l : loc) (rows : list (stats_row cell)) : M unit :=
  λ σ, (<[l := rows]> σ, Ok ()).
Definition alloc (rows : list (stats_row cell)) : M loc :=
  λ σ, let l := fresh (dom σ) in (<[l := rows]> σ, Ok l).

(** [df[name] = values] with a plain list: pandas refuses a list of another
    length.  (A column assigned from a series of the table itself, as the two
    position columns are, is aligned on the index.) *)
Definition assign {A : Type} (set : A → stats_row cell → stats_row cell)
    (values : list A) (rows : list (stats_row cell)) : result (list (stats_row cell)) :=
  if decide (length values = length rows)
  then Ok (zip_with set values rows)
  else Raise (ValueError "Length of values does not match length of index").

Definition set_donor_position (z : Z) (r : stats_row cell) : stats_row cell :=
  with_positions (CInt z) (acceptor_position r) r.
Definition set_acceptor_position (z : Z) (r : stats_row cell) : stats_row cell :=
  with_positions (donor_position r) (CInt z) r.
Definition set_number_contacts (n : nat) (r : stats_row cell) : stats_row cell :=
  with_number_contacts (Some n) r.

(** ** reduce_contacts_dataframe *)

(** [Series.between(lo, hi)], both ends included. *)
Definition between (roi : bounds) (z : Z) : Prop := (b_min roi ≤ z ∧ z ≤ b_max roi)%Z.

#[export] Instance between_dec roi z : Decision (between roi z).
Proof. unfold between. apply _. Defined.

(** [df[df["donor position"].between(limits_roi["min"], limits_roi["max"])]] *)
Definition select_roi (roi : bounds) (rows : list (stats_row Z)) : list (stats_row Z) :=
  filter (λ r, between roi (donor_position r)) rows.

(** The rows of one donor-acceptor position pair. *)
Definition same_pair (row r : stats_row Z) : Prop :=
  donor_position r = donor_position row ∧ acceptor_position r = acceptor_position row.

#[export] Instance same_pair_dec row r : Decision (same_pair row r).
Proof. unfold same_pair. apply _. Defined.

(** [tmp_df[[dist_col]].idxmin()]: the label of the first row holding the
    least distance. *)
Fixpoint idxmin_from (dist_col : metric) (best : stats_row Z) (rows : list (stats_row Z)) : nat :=
  match rows with
  | [] => label best
  | r :: rows' =>
      if Qlt_le_dec (distance dist_col r) (distance dist_col best)
      then idxmin_from dist_col r rows'
      else idxmin_from dist_col best rows'
  end.

Definition idxmin (dist_col : metric) (rows : list (stats_row Z)) : result nat :=
  match rows with
  | [] => Raise (ValueError "attempt to get argmin of an empty sequence")
  | r :: rows' => Ok (idxmin_from dist_col r rows')
  end.

(** [f"{donor}_{acceptor}"] *)
Definition donor_acceptor (row : stats_row Z) : string :=
  (pretty (donor_position row) +:+ donor_residue row) +:+ "_" +:+
  (pretty (acceptor_position row) +:+ acceptor_residue row).

Record reduce_state : Type := ReduceState {
  donors_acceptors : list string;
  idx_to_remove : list nat;
  donor_acceptor_nb_contacts : list nat
}.

(** One turn of [for _, row in df.iterrows()]. *)
Definition reduce_step (df : list (stats_row Z)) (dist_col : metric)
    (st : reduce_state) (row : stats_row Z) : result reduce_state :=
  if decide (donor_acceptor row ∈ donors_acceptors st) then Ok st
  else
    let tmp_df := filter (same_pair row) df in
    idx_min ← idxmin dist_col tmp_df;
    let tmp_index_to_remove := filter (λ i, i ≠ idx_min) (label <$> tmp_df) in
    Ok (ReduceState (donors_acceptors st ++ [donor_acceptor row])
          (idx_to_remove st ++ tmp_index_to_remove)
          (donor_acceptor_nb_contacts st ++ [length tmp_df])).

Fixpoint reduce_loop (df : list (stats_row Z)) (dist_col : metric)
    (rows : list (stats_row Z)) (st : reduce_state) : result reduce_state :=
  match rows with
  | [] => Ok st
  | row :: rest =>
      st ← reduce_step df dist_col st row;
      reduce_loop df dist_col rest st
  end.

(** [df.drop(labels)] *)
Definition drop_labels {P : Type} (labels : list nat) (rows : list (stats_row P))
  : list (stats_row P) :=
  filter (λ r, label r ∉ labels) rows.

(** [df["donor position"] = pd.to_numeric(df["donor position"])], then the
    same for the acceptor: assignments to the table object [df] itself. *)
Definition coerce_positions (df : loc) : M unit :=
  rows ← read df;
  donor ← lift (to_numeric (donor_position <$> rows));
  _ ← write df (zip_with set_donor_position donor rows);
  rows ← read df;
  acceptor ← lift (to_numeric (acceptor_position <$> rows));
  write df (zip_with set_acceptor_position acceptor rows).

(** [if limits_roi: df = df[df["donor position"].between(...)]]: a new table
    when limits are given, the same object otherwise. *)
Definition restrict_to_roi (df : loc) (limits_roi : option bounds) : M loc :=
  match limits_roi with
  | Some roi =>
      rows ← read df;
      rows ← lift (numeric_rows rows);
      alloc (cell_row <$> select_roi roi rows)
  | None => mret df
  end.

Definition reduce_contacts_dataframe (df : loc) (dist_col : metric)
    (limits_roi : option bounds) : M loc :=
  _ ← coerce_positions df;
  df ← restrict_to_roi df limits_roi;
  rows ← read df;
  rows ← lift (numeric_rows rows);
  st ← lift (reduce_loop rows dist_col rows (ReduceState [] [] []));
  df ← alloc (cell_row <$> drop_labels (idx_to_remove st) rows);
  rows ← read df;
  rows ← lift (assign set_number_contacts (donor_acceptor_nb_contacts st) rows);
  _ ← write df rows;
  mret df.

(** ** get_df_distances_nb_contacts *)

(** The position printed in a label: shifted back to the numbering of the
    unmasked structure when a mask was applied. *)
Definition label_position (limits_mask : option bounds) (position : Z) : Z :=
  match limits_mask with
  | Some m => (position + b_min m - 1)%Z
  | None => position
  end.

(** [df.loc[(df[col] == position), residue_col].values[0]] *)
Definition residue_at (position_of : stats_row Z → Z) (residue_of : stats_row Z → string)
    (df : list (stats_row Z)) (position : Z) : result string :=
  of_option IndexError
    (residue_of <$> head (filter (λ r, position_of r = position) df)).

Definition donor_label (limits_mask : option bounds) (df : list (stats_row Z))
    (donor_position' : Z) : result string :=
  residue ← residue_at donor_position donor_residue df donor_position';
  Ok (pretty (label_position limits_mask donor_position') +:+ residue).

Definition acceptor_label (limits_mask : option bounds) (df : list (stats_row Z))
    (acceptor_position' : Z) : result string :=
  residue ← residue_at acceptor_position acceptor_residue df acceptor_position';
  Ok (pretty (label_position limits_mask acceptor_position') +:+ residue).

(** [sorted(list(set(column)))] *)
Definition sorted_unique (column : list Z) : list Z :=
  merge_sort Z.le (remove_dups column).

Record matrix_state : Type := MatrixState {
  distances : dict Z (list (option Q));
  nb_contacts : dict Z (list (option nat));
  donors : list string;
  acceptors : list string
}.

(** [l.append(x)] guarded by [if x not in l] *)
Definition append_new (x : string) (l : list string) : list string :=
  if decide (x ∈ l) then l else l ++ [x].

(** [if k not in d: d[k] = []] *)
Definition ensure_key {V : Type} (k : Z) (d : dict Z (list V)) : dict Z (list V) :=
  match dict_get k d with
  | Some _ => d
  | None => dict_set k [] d
  end.

(** The body of [for acceptor_position in unique_acceptor_positions]. *)
Definition matrix_cell (df : list (stats_row Z)) (dist_col : metric)
    (limits_mask : option bounds) (donor_position' : Z)
    (st : matrix_state) (acceptor_position' : Z) : result matrix_state :=
  acceptor ← acceptor_label limits_mask df acceptor_position';
  let acceptors := append_new acceptor (acceptors st) in
  let selected :=
    filter (λ r, donor_position r = donor_position' ∧
                 acceptor_position r = acceptor_position') df in
  distances ← dict_append (KeyError "distances") acceptor_position'
    (distance dist_col <$> head selected) (ensure_key acceptor_position' (distances st));
  counts ←
    (if decide (Forall (λ r, is_Some (number_contacts r)) df)
     then Ok (head selected ≫= number_contacts)
     else Raise (KeyError "number contacts"));
  nb_contacts ← dict_append (KeyError "nb_contacts") acceptor_position'
    counts (ensure_key acceptor_position' (nb_contacts st));
  Ok (MatrixState distances nb_contacts (donors st) acceptors).

Fixpoint matrix_row (df : list (stats_row Z)) (dist_col : metric)
    (limits_mask : option bounds) (donor_position' : Z)
    (acceptor_positions : list Z) (st : matrix_state) : result matrix_state :=
  match acceptor_positions with
  | [] => Ok st
  | acceptor_position' :: rest =>
      st ← matrix_cell df dist_col limits_mask donor_position' st acceptor_position';
      matrix_row df dist_col limits_mask donor_position' rest st
  end.

(** The body of [for donor_position in unique_donor_positions]. *)
Fixpoint matrix_rows (df : list (stats_row Z)) (dist_col : metric)
    (limits_mask : option bounds) (donor_positions acceptor_positions : list Z)
    (st : matrix_state) : result matrix_state :=
  match donor_positions with
  | [] => Ok st
  | donor_position' :: rest =>
      donor ← donor_label limits_mask df donor_position';
      let st := MatrixState (distances st) (nb_contacts st)
                  (append_new donor (donors st)) (acceptors st) in
      st ← matrix_row df dist_col limits_mask donor_position' acceptor_positions st;
      matrix_rows df dist_col limits_mask rest acceptor_positions st
  end.

(** A matrix of the heat map: row labels, column labels, and the columns. *)
Record matrix (V : Type) : Type := Matrix {
  m_index : list string;
  m_columns : list string;
  m_data : list (list (option V))
}.
Arguments Matrix {V}.
Arguments m_index {V}.
Arguments m_columns {V}.
Arguments m_data {V}.

(** [m = pd.DataFrame(d, index=donors); m.columns = acceptors] *)
Definition labelled_matrix {V : Type} (d : dict Z (list (option V)))
    (donors acceptors : list string) : result (matrix V) :=
  if decide (Forall (λ kc, length kc.2 = length donors) d) then
    if decide (length acceptors = length d)
    then Ok (Matrix donors acceptors d.*2)
    else Raise (ValueError "Length mismatch")
  else Raise (ValueError "Length of values does not match length of index").

Definition get_df_distances_nb_contacts (df : list (stats_row Z)) (dist_col : metric)
    (limits_mask : option bounds) : result (matrix Q * matrix nat) :=
  let unique_donor_positions := sorted_unique (donor_position <$> df) in
  let unique_acceptor_positions := sorted_unique (acceptor_position <$> df) in
  st ← matrix_rows df dist_col limits_mask unique_donor_positions
         unique_acceptor_positions (MatrixState [] [] [] []);
  source_distances ← labelled_matrix (distances st) (donors st) (acceptors st);
  source_nb_contacts ← labelled_matrix (nb_contacts st) (donors st) (acceptors st);
  Ok (source_distances, source_nb_contacts).

(** ** heat_map_contacts *)

(** What is handed to [sns.heatmap] and to [rcParams], the drawing itself
    being seaborn's. *)
Record heat_map : Type := HeatMap {
  source_distances : matrix Q;
  source_nb_contacts : matrix nat;
  factor : nat
}.

Definition heat_map_contacts (df_residues : loc) (distances_col : metric)
    (limits : limits) : M heat_map :=
  df_residues ← reduce_contacts_dataframe df_residues distances_col (l_roi limits);
  rows ← read df_residues;
  rows ← lift (numeric_rows rows);
  '(source_distances, source_nb_contacts) ←
    lift (get_df_distances_nb_contacts rows distances_col (l_mask limits));
  let n := length (m_index source_distances) in
  let factor := if decide (40 ≤ n) then n / 40 else 1 in
  mret (HeatMap source_distances source_nb_contacts factor).

(** ** The texts and the file of a heat map, and the end of the main block *)

(** The names of the four distance columns, [stats.columns[5:]]. *)
Definition metric_name (m : metric) : string :=
  match m with
  | Half_mean => "2nd_half_MD_mean_distance"
  | Half_median => "2nd_half_MD_median_distance"
  | Whole_mean => "whole_MD_mean_distance"
  | Whole_median => "whole_MD_median_distance"
  end.

(** [s.replace(c, c')] with one-character arguments *)
Fixpoint replace (c c' : ascii) (s : string) : string :=
  match s with
  | EmptyString => EmptyString
  | String x s' => String (if decide (x = c) then c' else x) (replace c c' s')
  end.

(** [os.path.join(a, b)] with [/] as the separator *)
Definition os_path_join (a b : string) : string :=
  match b with
  | String "/" _ => b
  | _ =>
      match String.rev a with
      | EmptyString | String "/" _ => a +:+ b
      | _ => a +:+ "/" +:+ b
      end
  end.

(** The subtitle of a heat map: the mask, then the focus, whose bounds are
    read from [limits['mask']] and so need a mask. *)
Definition heat_map_subtitle (mask : option string) (limits : limits) : result string :=
  let subtitle :=
    match truthy mask with
    | Some m => String "010" "Mask: " +:+ m
    | None => ""
    end in
  match l_roi limits with
  | Some roi =>
      m ← of_option (KeyError "min") (l_mask limits);
      Ok (subtitle +:+ "   Heatmap focus on donor residues "
            +:+ pretty (b_min m + b_min roi)%Z +:+ " to "
            +:+ pretty (b_min m + b_max roi)%Z)
  | None => Ok subtitle
  end.

(** What [heat_map_contacts] saves: the heat map, its two titles and the
    path of the file. *)
Record figure : Type := Figure {
  fig_heat_map : heat_map;
  fig_suptitle : string;
  fig_title : string;
  fig_path : string
}.

(** [heat_map_contacts] as a whole: the heat map is drawn from the matrices,
    then the titles and the path are built and the figure is saved. *)
Definition heat_map_contacts_saved (df_residues : loc) (distances_col : metric)
    (out_basename : string) (mask : option string) (out_dir output_fmt : string)
    (limits : limits) : M figure :=
  heatmap ← heat_map_contacts df_residues distances_col limits;
  let title :=
    "Contact residues " +:+ replace "_" " " (metric_name distances_col)
      +:+ ": " +:+ out_basename in
  subtitle ← lift (heat_map_subtitle mask limits);
  let mask_str :=
    match truthy mask with
    | Some m => "_" +:+ m
    | None => ""
    end in
  let out_path :=
    os_path_join out_dir
      ("heatmap_" +:+ replace " " "-" (metric_name distances_col) +:+ "_"
         +:+ out_basename +:+ mask_str +:+ "." +:+ output_fmt) in
  mret (Figure heatmap title
          ("Number of residues atoms in contact displayed in the squares" +:+ subtitle)
          out_path).

(** [hm_text], logged by the main block before the heat maps. *)
Definition hm_text (roi_hm : option string) (limits_mask_roi : limits) : result string :=
  match truthy roi_hm with
  | Some _ =>
      m ← of_option (KeyError "min") (l_mask limits_mask_roi);
      r ← of_option (KeyError "min") (l_roi limits_mask_roi);
      Ok ("Heat maps contacts on region of interest "
            +:+ pretty (b_min m + b_min r - 1)%Z +:+ " to "
            +:+ pretty (b_min m + b_max r - 1)%Z +:+ ":")
  | None => Ok "Heat maps contacts:"
  end.

(** The end of the main block: [hm_text], then one heat map for each
    distance column of the statistics table [stats]. *)
Definition main_heat_maps (stats : loc) (basename : string) (mask roi_hm : option string)
    (out format : string) (limits_mask_roi : limits) : M (list figure) :=
  _ ← lift (hm_text roi_hm limits_mask_roi);
  mapM (λ distances_column_id,
          heat_map_contacts_saved stats distances_column_id basename mask out format
            limits_mask_roi)
       [Half_mean; Half_median; Whole_mean; Whole_median].

(** ** Notions used in the statements *)

(** The error kinds of the limits parser. *)
Inductive error_kind : Type := InvalidFormat | OutOfRange.

Definition kind (msg : arg_error) : error_kind :=
  match msg with
  | MaskFormat _ | RoiFormat _ => InvalidFormat
  | RoiMinOutside _ _ | RoiMaxOutside _ _ => OutOfRange
  end.

Definition fails_with {A : Type} (k : error_kind) (r : result A) : Prop :=
  ∃ msg, r = Raise (ArgumentTypeError msg) ∧ kind msg = k.

(** [b] is what a mask or ROI string [s] says: the two groups of the
    leftmost match of [pattern], read as integers. *)
Definition limit_value (pattern : Re.regex) (s : string) (b : bounds) : Prop :=
  ∃ caps, Re.search pattern s = Some caps ∧ min_max caps = Ok b.

(** A non-empty string of decimal digits. *)
Definition digits (s : string) : Prop :=
  String.list_ascii_of_string s ≠ [] ∧
  forallb Re.is_digit (String.list_ascii_of_string s) = true.

(** The candidate pairs of [hydrogen_bonds]: the entries of [h_bonds.data]
    other than the aggregate one, numbered as the rows of [dist] are. *)
Definition candidates (traj : hbond_analysis) : list string :=
  filter (λ key, key ≠ "total_solute_hbonds") (h_bonds traj).

(** The percentage the program compares with the occupancy threshold, over
    the frames taken by their index: among the frames with index from
    [floor(n/2)] to the end, the number of those whose distance is at most
    the distance threshold, divided by the number of these frames and
    multiplied by 100, both in binary64. *)
Definition occupancy (dist_thr : float) (d : list float) : float :=
  let n := length d in
  let window := filter (λ ix, n / 2 ≤ ix.1) (zip (seq 0 n) d) in
  let within := filter (λ ix, PrimFloat.leb ix.2 dist_thr = true) window in
  (float_of_nat (length within) / float_of_nat (length window) * 100)%float.

(** The occupancy of a pair in the words of the specification, an exact
    number: among the frames with index from [floor(n/2)] to the end, the
    percentage of those whose distance is at most the distance threshold. *)
Definition exact_occupancy (dist_thr : float) (d : list float) : Q :=
  let n := length d in
  let window := filter (λ ix, n / 2 ≤ ix.1) (zip (seq 0 n) d) in
  let within := filter (λ ix, PrimFloat.leb ix.2 dist_thr = true) window in
  (inject_Z (Z.of_nat (length within)) * 100 / inject_Z (Z.of_nat (length window)))%Q.

(** The donor and acceptor residue positions a contact name carries, as the
    text the pattern captures. *)
Definition positions (pattern : Re.regex) (key donor acceptor : string) : Prop :=
  ∃ m, Re.search pattern key = Some m ∧
       Re.group m 2 = Ok donor ∧ Re.group m 4 = Ok acceptor.

(** Candidate number [i], named [key], passes both filters of
    [hydrogen_bonds]: its two positions differ and its occupancy reaches the
    occupancy threshold. *)
Definition passes (dist : list (list float)) (dist_thr occupancy_thr : float)
    (pattern : Re.regex) (i : nat) (key : string) : Prop :=
  ∃ d donor acceptor,
    dist !! i = Some d ∧
    positions pattern key donor acceptor ∧ donor ≠ acceptor ∧
    PrimFloat.leb occupancy_thr (occupancy dist_thr d) = true.

Definition retained (traj : hbond_analysis) (dist_thr occupancy_thr : float)
    (pattern : Re.regex) (key : string) : Prop :=
  ∃ i, candidates traj !! i = Some key ∧
       passes (dist traj) dist_thr occupancy_thr pattern i key.

(** The integer read from group [i] of a contact name (0 when there is none). *)
Definition position_in (pattern : Re.regex) (i : nat) (name : string) : Z :=
  match Re.search pattern name with
  | Some m =>
      match g ← Re.group m i; int g with
      | Ok z => z
      | Raise _ => 0%Z
      end
  | None => 0%Z
  end.

Definition donor_of (pattern : Re.regex) : string → Z := position_in pattern 2.
Definition acceptor_of (pattern : Re.regex) : string → Z := position_in pattern 4.

(** The column order of the contact table: donor position, then acceptor
    position, both as integers, then the name. *)
Definition contact_le (pattern : Re.regex) (a b : string) : Prop :=
  (donor_of pattern a < donor_of pattern b)%Z ∨
  (donor_of pattern a = donor_of pattern b ∧
   ((acceptor_of pattern a < acceptor_of pattern b)%Z ∨
    (acceptor_of pattern a = acceptor_of pattern b ∧ String.le a b))).

(** The names [sort_contacts] has filed under a donor and an acceptor. *)
Definition bucket (pattern : Re.regex) (names : list string) (k1 k2 : Z) : list string :=
  filter (λ n, acceptor_of pattern n = k2) (filter (λ n, donor_of pattern n = k1) names).

Definition filed (pattern : Re.regex) (tmp : gmap Z (gmap Z (list string)))
    (names : list string) : Prop :=
  ∀ k1 k2,
    tmp !! k1 ≫= (λ inner, inner !! k2)
    = if decide (bucket pattern names k1 k2 = []) then None
      else Some (bucket pattern names k1 k2).

(** The table the aggregator returns for a statistics table, the only
    object of the store it is run in. *)
Definition reduce_table (rows : list (stats_row cell)) (dist_col : metric)
    (limits_roi : option bounds) : result (list (stats_row cell)) :=
  ((df ← reduce_contacts_dataframe 1%positive dist_col limits_roi; read df)
     {[1%positive := rows]}).2.

(** [r'] is [r] with its two positions made numeric and nothing else
    changed. *)
Definition coerced (r r' : stats_row cell) : Prop :=
  ∃ d a, to_numeric_cell (donor_position r) = Ok d ∧
         to_numeric_cell (acceptor_position r) = Ok a ∧
         r' = with_positions (CInt d) (CInt a) r.

(** The label of a donor or acceptor in the words of the specification: the
    adjusted position, which is the raw one plus [mask.min - 1] under a mask,
    followed by the residue name. *)
Definition label_text (limits_mask : option bounds) (position : Z) (residue : string)
  : string :=
  match limits_mask with
  | Some m => pretty (position + b_min m - 1)%Z +:+ residue
  | None => pretty position +:+ residue
  end.

(** The first row of least distance among [best :: rows]. *)
Fixpoint first_min_from (dist_col : metric) (best : stats_row Z)
    (rows : list (stats_row Z)) : stats_row Z :=
  match rows with
  | [] => best
  | r :: rows' =>
      if Qlt_le_dec (distance dist_col r) (distance dist_col best)
      then first_min_from dist_col r rows'
      else first_min_from dist_col best rows'
  end.

(** A group of rows, never empty: its first row and the others. *)
Abbreviation block := (stats_row Z * list (stats_row Z))%type.

Definition block_rows (b : block) : list (stats_row Z) := b.1 :: b.2.

Definition block_min (dist_col : metric) (b : block) : stats_row Z :=
  first_min_from dist_col b.1 b.2.

(** The row the aggregator is specified to return for a group: its first
    row of least distance, with the size of the group. *)
Definition block_reduced (dist_col : metric) (b : block) : stats_row Z :=
  with_number_contacts (Some (length (block_rows b))) (block_min dist_col b).

(** The rows of a table come pair by pair: [blocks] are the groups of the
    table in order, each holding all the rows of one pair of positions (and
    one label text), and the index labels are distinct. *)
Record grouped (rows : list (stats_row Z)) (blocks : list block) : Prop := Grouped {
  grouped_rows : rows = blocks ≫= block_rows;
  grouped_same : ∀ b r r',
    b ∈ blocks → r ∈ block_rows b → r' ∈ block_rows b →
    same_pair r r' ∧ donor_acceptor r = donor_acceptor r';
  grouped_apart : ∀ i j b b' r r',
    blocks !! i = Some b → blocks !! j = Some b' → i ≠ j →
    r ∈ block_rows b → r' ∈ block_rows b' →
    ¬ same_pair r r' ∧ donor_acceptor r ≠ donor_acceptor r';
  grouped_labels : NoDup (label <$> rows)
}.

(** The table with its position cells read as [pd.to_numeric] reads them. *)
Definition numeric_table (table : list (stats_row cell)) : result (list (stats_row Z)) :=
  mapM (λ r, d ← to_numeric_cell (donor_position r);
             a ← to_numeric_cell (acceptor_position r);
             Ok (with_positions d a r)) table.

(** The rows left by the ROI step. *)
Definition restricted (limits_roi : option bounds) (rows : list (stats_row Z))
  : list (stats_row Z) :=
  match limits_roi with
  | Some roi => select_roi roi rows
  | None => rows
  end.

(** ** Sample inputs *)

(** Four frames and four candidate pairs: one retained at 50 %, one retained
    at 100 %, one inside a single residue, one never within the threshold. *)
Definition sample_traj : hbond_analysis :=
  HbondAnalysis 4
    ["total_solute_hbonds"; "SER9_O-ALA3_N-H"; "ASP2_OD1-ARG7_NH1-HH11";
     "ASP2_OD1-ASP2_N-H"; "GLY1_O-LYS4_N-H"]
    [[1; 2; 2.5; 5]; [1; 1; 1; 1]; [1; 1; 1; 1]; [9; 9; 9; 9]]%float.

Definition sample_contacts : frame :=
  [("frames", Range 4);
   ("ASP2_OD1-ARG7_NH1-HH11", Floats [1; 1; 1; 1]%float);
   ("SER9_O-ALA3_N-H", Floats [1; 2; 2.5; 5]%float)].

(** 200 frames and two pairs: the first is within a distance of 3 in 29 of
    the 100 frames from index 100 on, the second in every frame. *)
Definition boundary_distances : list float :=
  (replicate 100 9 ++ replicate 29 1 ++ replicate 71 9)%float.

Definition boundary_traj : hbond_analysis :=
  HbondAnalysis 200
    ["total_solute_hbonds"; "SER9_O-ALA3_N-H"; "GLY1_O-LYS4_N-H"]
    [boundary_distances; replicate 200 1%float].

(** A nucleic-acid pair, whose two-letter residue names the contact pattern
    does not match, next to a protein pair. *)
Definition unmatched_traj : hbond_analysis :=
  HbondAnalysis 4
    ["total_solute_hbonds"; "DA5_N1-DT20_N3-H3"; "SER9_O-ALA3_N-H"]
    [[1; 1; 1; 1]; [1; 1; 1; 1]]%float.

(** The contact table with a column the contact pattern does not match. *)
Definition unmatched_contacts : frame :=
  [("frames", Range 4); ("DA5_N1-DT20_N3-H3", Floats [1; 1; 1; 1]%float)].

(** A statistics table in which the two contacts of residues 5 and 10 are
    separated by a contact of residues 7 and 12 (a constant stands for the
    four distance columns of each row). *)
Definition stats_row_of (i : nat) (name donor dres acceptor ares : string) (x : Q)
  : stats_row cell :=
  StatsRow i name (CStr donor) dres (CStr acceptor) ares x x x x None.

Definition interleaved_stats : list (stats_row cell) :=
  [stats_row_of 0 "ALA5_O-GLY10_N-H" "5" "ALA" "10" "GLY" (29 # 10);
   stats_row_of 1 "SER7_OG-THR12_N-H" "7" "SER" "12" "THR" (25 # 10);
   stats_row_of 2 "ALA5_N-GLY10_O-H" "5" "ALA" "10" "GLY" (21 # 10)].

(** The same three contacts in the order the statistics step lists them,
    the two contacts of residues 5 and 10 next to each other. *)
Definition adjacent_stats : list (stats_row cell) :=
  [stats_row_of 0 "ALA5_N-GLY10_O-H" "5" "ALA" "10" "GLY" (21 # 10);
   stats_row_of 1 "ALA5_O-GLY10_N-H" "5" "ALA" "10" "GLY" (29 # 10);
   stats_row_of 2 "SER7_OG-THR12_N-H" "7" "SER" "12" "THR" (25 # 10)].

Definition adjacent_rows : list (stats_row Z) :=
  [StatsRow 0 "ALA5_N-GLY10_O-H" 5%Z "ALA" 10%Z "GLY"
     (21 # 10) (21 # 10) (21 # 10) (21 # 10) None;
   StatsRow 1 "ALA5_O-GLY10_N-H" 5%Z "ALA" 10%Z "GLY"
     (29 # 10) (29 # 10) (29 # 10) (29 # 10) None;
   StatsRow 2 "SER7_OG-THR12_N-H" 7%Z "SER" 12%Z "THR"
     (25 # 10) (25 # 10) (25 # 10) (25 # 10) None].

Definition adjacent_blocks : list block :=
  match adjacent_rows with
  | [r0; r1; r2] => [(r0, [r1]); (r2, [])]
  | _ => []
  end.

(** A store holding [interleaved_stats] as its only table. *)
Definition sample_store : store := {[1%positive := interleaved_stats]}.

(** A reduced table of two residue pairs, under the mask [:682-850]. *)
Definition sample_reduced : list (stats_row Z) :=
  [StatsRow 0 "MET1_O-LYS4_N-H" 1%Z "MET" 4%Z "LYS"
     (27 # 10) (27 # 10) (27 # 10) (27 # 10) (Some 1);
   StatsRow 2 "ALA5_N-GLY10_O-H" 5%Z "ALA" 10%Z "GLY"
     (21 # 10) (21 # 10) (21 # 10) (21 # 10) (Some 2)].

Definition sample_distances : matrix Q :=
  Matrix ["682MET"; "686ALA"] ["685LYS"; "691GLY"]
    [[Some (27 # 10); None]; [None; Some (21 # 10)]].

Definition sample_counts : matrix nat :=
  Matrix ["682MET"; "686ALA"] ["685LYS"; "691GLY"]
    [[Some 1; None]; [None; Some 2]].

(** ** Further notions and samples *)

(** The text of a mask and of a region of interest with the given bounds,
    the numbers written in decimal. *)
Definition mask_text (lo hi : N) : string :=
  ":" +:+ pretty lo +:+ "-" +:+ pretty hi.
Definition roi_text (lo hi : N) : string :=
  pretty lo +:+ "-" +:+ pretty hi.

(** A trajectory without frames. *)
Definition empty_traj : hbond_analysis :=
  HbondAnalysis 0 ["total_solute_hbonds"; "ASP2_OD1-ASP2_N-H"; "SER9_O-ALA3_N-H"] [[]; []].

(** One row of the statistics table of [contacts_csv]. *)
Record contact_stats : Type := ContactStats {
  cs_contact : string;
  cs_donor_position : string;
  cs_donor_residue : string;
  cs_acceptor_position : string;
  cs_acceptor_residue : string;
  cs_half_mean : float;
  cs_half_median : float;
  cs_whole_mean : float;
  cs_whole_median : float
}.

(** The dictionary of columns that holds the given rows. *)
Definition stats_columns (rows : list contact_stats) : dict string (list value) :=
  [("contact", Str ∘ cs_contact <$> rows);
   ("donor position", Str ∘ cs_donor_position <$> rows);
   ("donor residue", Str ∘ cs_donor_residue <$> rows);
   ("acceptor position", Str ∘ cs_acceptor_position <$> rows);
   ("acceptor residue", Str ∘ cs_acceptor_residue <$> rows);
   ("2nd_half_MD_mean_distance", Num ∘ cs_half_mean <$> rows);
   ("2nd_half_MD_median_distance", Num ∘ cs_half_median <$> rows);
   ("whole_MD_mean_distance", Num ∘ cs_whole_mean <$> rows);
   ("whole_MD_median_distance", Num ∘ cs_whole_median <$> rows)].

Section describes.
Context (mean median : list float → result float) (round2 : float → float).

(** [row] is the row of the contact column [contact_id] of [df]: the name,
    the four groups of its match, and the rounded mean and median of the
    column from row [len(df.index) // 2] on and of the whole column. *)
Definition describes (df : frame) (pattern : Re.regex) (contact_id : string)
    (row : contact_stats) : Prop :=
  ∃ m c half_mean half_median whole_mean whole_median,
    cs_contact row = contact_id ∧
    Re.search pattern contact_id = Some m ∧
    Re.group m 2 = Ok (cs_donor_position row) ∧
    Re.group m 1 = Ok (cs_donor_residue row) ∧
    Re.group m 4 = Ok (cs_acceptor_position row) ∧
    Re.group m 3 = Ok (cs_acceptor_residue row) ∧
    dict_get contact_id df = Some c ∧
    mean (drop (frame_len df / 2) (series_values c)) = Ok half_mean ∧
    cs_half_mean row = round2 half_mean ∧
    median (drop (frame_len df / 2) (series_values c)) = Ok half_median ∧
    cs_half_median row = round2 half_median ∧
    mean (series_values c) = Ok whole_mean ∧
    cs_whole_mean row = round2 whole_mean ∧
    median (series_values c) = Ok whole_median ∧
    cs_whole_median row = round2 whole_median.

End describes.

(** A mean and a median of floats, to have statistics functions at hand. *)
Definition sample_mean (l : list float) : result float :=
  match l with
  | [] => Raise StatisticsError
  | _ => Ok (foldr PrimFloat.add 0%float l / float_of_nat (length l))%float
  end.

Definition sample_median (l : list float) : result float :=
  let sorted := merge_sort (λ x y, Is_true (PrimFloat.leb x y)) l in
  match sorted !! (length l / 2) with
  | None => Raise StatisticsError
  | Some hi =>
      if Nat.even (length l)
      then match sorted !! (length l / 2 - 1) with
           | Some lo => Ok ((lo + hi) / 2)%float
           | None => Raise StatisticsError
           end
      else Ok hi
  end.

(** The order of the rows of a statistics table written by [contacts_csv]
    from the sorted contact columns: donor position, then acceptor
    position. *)
Definition pair_le (r r' : stats_row Z) : Prop :=
  (donor_position r < donor_position r')%Z ∨
  (donor_position r = donor_position r' ∧ acceptor_position r ≤ acceptor_position r')%Z.

(** The text [f"{donor}_{acceptor}"] under which the aggregator remembers
    a pair names the pair of positions, and nothing else. *)
Definition label_faithful (rows : list (stats_row Z)) : Prop :=
  ∀ r r', r ∈ rows → r' ∈ rows →
          (donor_acceptor r = donor_acceptor r' ↔ same_pair r r').

(** The runs of consecutive rows of one pair of positions. *)
Fixpoint group_adjacent (rows : list (stats_row Z)) : list block :=
  match rows with
  | [] => []
  | r :: rows' =>
      match group_adjacent rows' with
      | (r', rest) :: blocks =>
          if decide (same_pair r r') then (r, r' :: rest) :: blocks
          else (r, []) :: (r', rest) :: blocks
      | [] => [(r, [])]
      end
  end.

(** The first row of a table with the given donor and acceptor positions. *)
Definition contact_at (df : list (stats_row Z)) (donor_position' acceptor_position' : Z)
  : option (stats_row Z) :=
  head (filter (λ r, donor_position r = donor_position' ∧
                     acceptor_position r = acceptor_position') df).

(** A matrix given cell by cell: one column for each acceptor position, one
    entry for each donor position. *)
Definition cells {V : Type} (cell : Z → Z → option V)
    (donor_positions acceptor_positions : list Z) : list (list (option V)) :=
  (λ a, (λ d, cell d a) <$> donor_positions) <$> acceptor_positions.

(** The dictionary of one matrix while the row of [donor] is filled: the
    columns of [done] have their entry for [donor], those of [todo] do not;
    during the first row the columns are created one by one. *)
Definition filling {V : Type} (cell : Z → Z → option V) (earlier : list Z) (donor : Z)
    (done todo : list Z) : dict Z (list (option V)) :=
  ((λ a, (a, (λ d, cell d a) <$> (earlier ++ [donor]))) <$> done) ++
  (if decide (earlier = []) then []
   else (λ a, (a, (λ d, cell d a) <$> earlier)) <$> todo).

(** The dictionary between two rows. *)
Definition filled {V : Type} (cell : Z → Z → option V) (donors acceptors : list Z)
  : dict Z (list (option V)) :=
  if decide (donors = []) then []
  else (λ a, (a, (λ d, cell d a) <$> donors)) <$> acceptors.

(** The rows of a table that have the pair of positions of [r]. *)
Definition pair_rows (rows : list (stats_row Z)) (r : stats_row Z) : list (stats_row Z) :=
  filter (same_pair r) rows.

(** The first row of each pair of positions, in the order of the table. *)
Fixpoint first_seen (rows : list (stats_row Z)) : list (stats_row Z) :=
  match rows with
  | [] => []
  | r :: rows' => r :: filter (λ r', ¬ same_pair r r') (first_seen rows')
  end.

(** The row of least distance of a group, the first one if several are. *)
Definition least (dist_col : metric) (group : list (stats_row Z)) : option (stats_row Z) :=
  match group with
  | [] => None
  | r :: group' => Some (first_min_from dist_col r group')
  end.

(** [r] is the row of least distance among the rows of its pair. *)
Definition kept_row (dist_col : metric) (rows : list (stats_row Z)) (r : stats_row Z)
  : Prop :=
  label <$> least dist_col (pair_rows rows r) = Some (label r).

#[export] Instance kept_row_dec dist_col rows r : Decision (kept_row dist_col rows r).
Proof. unfold kept_row. apply _. Defined.

(** The table the aggregator builds from [rows]: the kept rows, in the order
    of the table, each with a number of contacts; the numbers are the sizes
    of the groups in the order in which the pairs are first seen. *)
Definition reduced (dist_col : metric) (rows : list (stats_row Z)) : list (stats_row Z) :=
  zip_with (λ n r, with_number_contacts (Some n) r)
    ((λ r, length (pair_rows rows r)) <$> first_seen rows)
    (filter (kept_row dist_col rows) rows).

(** ** From the statistics of contacts_csv to the table of the heat maps *)

(** The value of a float that is a number, as a rational. *)
Definition Q_of_float (x : float) : option Q :=
  match Prim2SF x with
  | S754_zero _ => Some 0%Q
  | S754_finite s m e =>
      Some ((if s then -1 else 1) * inject_Z (Z.pos m) * Qpower 2 e)%Q
  | S754_infinity _ | S754_nan => None
  end.

(** Row [i] of [pd.DataFrame(data)]: the positions are the captured texts,
    and there is no ["number contacts"] column yet. *)
Definition stats_table_row (i : nat) (r : contact_stats) : option (stats_row cell) :=
  x1 ← Q_of_float (cs_half_mean r);
  x2 ← Q_of_float (cs_half_median r);
  x3 ← Q_of_float (cs_whole_mean r);
  x4 ← Q_of_float (cs_whole_median r);
  Some (StatsRow i (cs_contact r) (CStr (cs_donor_position r)) (cs_donor_residue r)
          (CStr (cs_acceptor_position r)) (cs_acceptor_residue r) x1 x2 x3 x4 None).

Fixpoint stats_table_from (i : nat) (rows : list contact_stats)
  : option (list (stats_row cell)) :=
  match rows with
  | [] => Some []
  | r :: rows' =>
      t ← stats_table_row i r;
      table ← stats_table_from (S i) rows';
      Some (t :: table)
  end.

(** [contacts_stat = pd.DataFrame(data)] for the rows [contacts_csv] has
    gathered, with the index 0, 1, ...  There is no such table when a
    statistic is infinite or not a number, which a row cannot hold. *)
Definition stats_table (rows : list contact_stats) : option (list (stats_row cell)) :=
  stats_table_from 0 rows.

(** A residue name as the contact pattern captures it: three characters,
    none of them a digit. *)
Definition residue_name (g : string) : Prop :=
  length (String.list_ascii_of_string g) = 3 ∧
  Forall (λ c, Re.is_digit c = false) (String.list_ascii_of_string g).

(** In the names of the contacts a residue position has one residue name as
    a donor, and one as an acceptor. *)
Definition one_name_per_position (names : list string) : Prop :=
  ∀ key key' g1 g2 g3 g4 g1' g2' g3' g4',
    key ∈ names → key' ∈ names →
    Re.search pattern_contact key = Some [g1; g2; g3; g4] →
    Re.search pattern_contact key' = Some [g1'; g2'; g3'; g4'] →
    (int g2 = int g2' → g1 = g1') ∧ (int g4 = int g4' → g3 = g3').

(** The names of the contacts between a donor position and an acceptor
    position. *)
Definition contacts_between (names : list string) (donor acceptor : Z) : list string :=
  filter (λ key, donor_of pattern_contact key = donor ∧
                 acceptor_of pattern_contact key = acceptor) names.

(** The donor position is kept by the ROI step. *)
Definition in_roi (limits_roi : option bounds) (donor : Z) : Prop :=
  match limits_roi with
  | Some roi => between roi donor
  | None => True
  end.

#[export] Instance in_roi_dec limits_roi donor : Decision (in_roi limits_roi donor).
Proof. destruct limits_roi; apply _. Defined.

(** [z] is the row of the contact column [key] once [pd.to_numeric] has read
    its positions. *)
Definition row_of_contact (key : string) (z : stats_row Z) : Prop :=
  ∃ g1 g2 g3 g4,
    Re.search pattern_contact key = Some [g1; g2; g3; g4] ∧
    contact z = key ∧
    donor_position z = donor_of pattern_contact key ∧ donor_residue z = g1 ∧
    acceptor_position z = acceptor_of pattern_contact key ∧ acceptor_residue z = g3.

(** The row of the table [t] with its positions read from the name of the
    contact. *)
Definition numbered (t : stats_row cell) : stats_row Z :=
  with_positions (donor_of pattern_contact (contact t))
    (acceptor_of pattern_contact (contact t)) t.

(** Four frames and three contacts, two of them between the residues 5 and
    10; the table of their distances, their statistics and the table of
    these. *)
Definition paired_traj : hbond_analysis :=
  HbondAnalysis 4
    ["total_solute_hbonds"; "SER7_OG-THR12_N-H"; "ALA5_O-GLY10_N-H"; "ALA5_N-GLY10_O-H"]
    [[2.5; 2.5; 2.5; 2.5]; [2.75; 2.75; 2.75; 2.75]; [2.25; 2.25; 2.25; 2.25]]%float.

Definition paired_contacts : frame :=
  [("frames", Range 4);
   ("ALA5_N-GLY10_O-H", Floats [2.25; 2.25; 2.25; 2.25]%float);
   ("ALA5_O-GLY10_N-H", Floats [2.75; 2.75; 2.75; 2.75]%float);
   ("SER7_OG-THR12_N-H", Floats [2.5; 2.5; 2.5; 2.5]%float)].

Definition paired_rows : list contact_stats :=
  [ContactStats "ALA5_N-GLY10_O-H" "5" "ALA" "10" "GLY" 2.25 2.25 2.25 2.25;
   ContactStats "ALA5_O-GLY10_N-H" "5" "ALA" "10" "GLY" 2.75 2.75 2.75 2.75;
   ContactStats "SER7_OG-THR12_N-H" "7" "SER" "12" "THR" 2.5 2.5 2.5 2.5]%float.

Definition paired_table : list (stats_row cell) := default [] (stats_table paired_rows).

(** ** The heat maps of a run *)

(** The number in the square of a donor and an acceptor: how many contacts
    there are between the two positions, and nothing when there is none. *)
Definition contacts_count (names : list string) (donor acceptor : Z) : option nat :=
  match length (contacts_between names donor acceptor) with
  | 0 => None
  | S n => Some (S n)
  end.

(** The rows of the statistics table between a donor and an acceptor. *)
Definition rows_between (table : list (stats_row cell)) (donor acceptor : Z)
  : list (stats_row Z) :=
  filter (λ z, donor_position z = donor ∧ acceptor_position z = acceptor)
    (numbered <$> table).

(** The contacts whose donor the ROI step keeps. *)
Definition roi_contacts (limits_roi : option bounds) (names : list string) : list string :=
  filter (λ key, in_roi limits_roi (donor_of pattern_contact key)) names.

(** The heat map of the contacts [names] with the statistics [table] for
    one distance column: a row for each donor position kept by the ROI step
    and a column for each acceptor position of these contacts, in increasing
    order; in a square, the least distance and the number of the contacts
    between the two positions. *)
Definition contacts_heat_map (names : list string) (table : list (stats_row cell))
    (limits_roi : option bounds) (donors acceptors : list string) (distances_col : metric)
  : heat_map :=
  let kept := roi_contacts limits_roi names in
  let donor_positions := sorted_unique (donor_of pattern_contact <$> kept) in
  let acceptor_positions := sorted_unique (acceptor_of pattern_contact <$> kept) in
  HeatMap
    (Matrix donors acceptors
       (cells (λ d a, distance distances_col <$> least distances_col (rows_between table d a))
          donor_positions acceptor_positions))
    (Matrix donors acceptors (cells (contacts_count names) donor_positions acceptor_positions))
    (if decide (40 ≤ length donor_positions) then length donor_positions / 40 else 1).

(** [lbl] is the label of the donor position [p]: the position in the
    numbering of the labels, then the residue name of a contact with this
    donor. *)
Definition donor_labelled (names : list string) (limits_mask : option bounds)
    (p : Z) (lbl : string) : Prop :=
  ∃ key g1 g2 g3 g4,
    key ∈ names ∧ Re.search pattern_contact key = Some [g1; g2; g3; g4] ∧
    donor_of pattern_contact key = p ∧ lbl = label_text limits_mask p g1.

Definition acceptor_labelled (names : list string) (limits_mask : option bounds)
    (p : Z) (lbl : string) : Prop :=
  ∃ key g1 g2 g3 g4,
    key ∈ names ∧ Re.search pattern_contact key = Some [g1; g2; g3; g4] ∧
    acceptor_of pattern_contact key = p ∧ lbl = label_text limits_mask p g3.

(** * Properties *)

(** ** The matcher *)

Module ReFacts.
Import Re.

Lemma run_le_length k s : run k s ≤ length s.
Proof. induction s as [|c s IH]; simpl; [lia|]. destruct (accepts k c); simpl; lia. Qed.

Lemma run_take k s n :
  n ≤ run k s → Forall (λ c, accepts k c = true) (take n s).
Proof.
  revert n. induction s as [|c s IH]; intros n Hn; simpl in *.
  - destruct n; constructor.
  - destruct n as [|n]; [constructor|].
    destruct (accepts k c) eqn:Hc; [|lia].
    simpl. constructor; [done|]. apply IH. lia.
Qed.

Lemma run_app k w s :
  Forall (λ c, accepts k c = true) w → length w ≤ run k (w ++ s).
Proof.
  induction 1 as [|c w Hc _ IH]; simpl; [lia|]. rewrite Hc. simpl. lia.
Qed.

Lemma backtrack_Some continue j caps :
  backtrack continue j = Some caps →
  ∃ n, 1 ≤ n ≤ j ∧ continue n = Some caps.
Proof.
  induction j as [|j IH]; simpl; [done|].
  destruct (continue (S j)) as [c|] eqn:Hc.
  - intros [= <-]. exists (S j). split; [lia|done].
  - intros (n & ? & ?)%IH. exists n. split; [lia|done].
Qed.

Lemma backtrack_None continue j n :
  backtrack continue j = None → 1 ≤ n ≤ j → continue n = None.
Proof.
  induction j as [|j IH]; simpl; [lia|].
  destruct (continue (S j)) as [c|] eqn:Hc; [done|].
  intros Hj Hn. destruct (decide (n = S j)) as [->|]; [done|].
  apply IH; [done|lia].
Qed.

Lemma match_here_sound r s caps :
  match_here r s = Some caps → matches r s caps.
Proof.
  revert s caps. induction r as [|a r IH]; intros s caps; simpl.
  - intros [= <-]. constructor.
  - assert (∀ n, n ≤ run (a_cls a) s →
              (match a_quant a with Exactly m => n = m | Plus => 1 ≤ n end) →
              capture a (take n s) <$> match_here r (drop n s) = Some caps →
              matches (a :: r) s caps) as Hstep.
    { intros n Hn Hq Hc.
      destruct (match_here r (drop n s)) as [caps'|] eqn:Hr; [|done].
      injection Hc as <-.
      rewrite <-(take_drop n s) at 1. constructor; [|by apply IH].
      split; [by apply run_take|].
      pose proof (run_le_length (a_cls a) s).
      rewrite length_take. destruct (a_quant a); lia. }
    destruct (a_quant a) as [n|] eqn:Hq.
    + case_decide; [|done]. intros Hc. by apply (Hstep n).
    + intros (n & Hn & Hc)%backtrack_Some. apply (Hstep n); [lia|lia|done].
Qed.

Lemma match_here_complete r s caps :
  matches r s caps → is_Some (match_here r s).
Proof.
  induction 1 as [s|a r w s caps [Hw Hq] _ [caps' IH]]; simpl; [by eexists|].
  pose proof (run_app (a_cls a) w s Hw) as Hrun.
  assert (capture a (take (length w) (w ++ s))
            <$> match_here r (drop (length w) (w ++ s)) = Some (capture a w caps')) as Hc.
  { by rewrite take_app_length, drop_app_length, IH. }
  destruct (a_quant a) as [n|].
  - subst n. rewrite decide_True by done. rewrite Hc. by eexists.
  - destruct (backtrack _ (run (a_cls a) (w ++ s))) as [c|] eqn:Hb; [by eexists|].
    eapply (backtrack_None _ _ (length w)) in Hb; [|lia].
    cbv beta in Hb. rewrite Hc in Hb. done.
Qed.

Lemma search_from_sound r s caps :
  search_from r s = Some caps → matches_in r s caps.
Proof.
  induction s as [|c s IH]; simpl.
  - destruct (match_here r []) eqn:Hm; [|done].
    intros [= <-]. exists [], []. split; [done|]. by apply match_here_sound.
  - destruct (match_here r (c :: s)) eqn:Hm.
    + intros [= <-]. exists [], (c :: s). split; [done|]. by apply match_here_sound.
    + intros (pre & rest & -> & ?)%IH. by exists (c :: pre), rest.
Qed.

Lemma search_from_complete r s caps :
  matches_in r s caps → is_Some (search_from r s).
Proof.
  intros (pre & rest & -> & Hm). induction pre as [|c pre IH]; simpl.
  - destruct rest; simpl; apply match_here_complete in Hm as [c' ->]; by eexists.
  - destruct (match_here r (c :: pre ++ rest)); [by eexists|done].
Qed.

Lemma search_sound r s caps :
  search r s = Some caps → matches_in r (String.list_ascii_of_string s) caps.
Proof. apply search_from_sound. Qed.

Lemma search_None r s : search r s = None ↔ ¬ well_formed r s.
Proof.
  unfold search, well_formed. split.
  - intros Hn [caps [c Hc]%search_from_complete]. congruence.
  - intros Hn. destruct (search_from r _) as [caps|] eqn:Hs; [|done].
    destruct Hn. exists caps. by apply search_from_sound.
Qed.

Lemma search_Some r s : is_Some (search r s) ↔ well_formed r s.
Proof.
  split.
  - intros [caps Hc]. exists caps. by apply search_sound.
  - intros [caps Hc]. by apply search_from_complete in Hc.
Qed.

Lemma group_digits w :
  atom_accepts (grp Digit Plus) w → digits (String.string_of_list_ascii w).
Proof.
  intros [Hw Hlen]. unfold digits. simpl in *.
  rewrite String.list_ascii_of_string_of_list_ascii. split.
  - destruct w; simpl in *; [lia|done].
  - apply forallb_forall. intros c Hc.
    rewrite Forall_forall in Hw. apply Hw. by apply list_elem_of_In.
Qed.

End ReFacts.

Lemma int_digits s : digits s → ∃ z, int s = Ok z.
Proof. intros Hd. unfold int. rewrite decide_True by done. by eexists. Qed.

Lemma int_Ok s z : int s = Ok z → digits s.
Proof. unfold int. case_decide; [done|discriminate]. Qed.

(** ** check_limits *)

Lemma pattern_mask_groups s caps :
  Re.search pattern_mask s = Some caps →
  ∃ g1 g2, caps = [g1; g2] ∧ digits g1 ∧ digits g2.
Proof.
  intros (pre & rest & _ & Hm)%ReFacts.search_sound.
  unfold pattern_mask in Hm.
  inversion Hm as [|a1 r1 w1 s1 c1 _ Hm1]; subst; clear Hm.
  inversion Hm1 as [|a2 r2 w2 s2 c2 H2 Hm2]; subst; clear Hm1.
  inversion Hm2 as [|a3 r3 w3 s3 c3 _ Hm3]; subst; clear Hm2.
  inversion Hm3 as [|a4 r4 w4 s4 c4 H4 Hm4]; subst; clear Hm3.
  inversion Hm4; subst. simpl.
  eexists _, _. split; [done|]. split; by apply ReFacts.group_digits.
Qed.

Lemma pattern_roi_groups s caps :
  Re.search pattern_roi s = Some caps →
  ∃ g1 g2, caps = [g1; g2] ∧ digits g1 ∧ digits g2.
Proof.
  intros (pre & rest & _ & Hm)%ReFacts.search_sound.
  unfold pattern_roi in Hm.
  inversion Hm as [|a2 r2 w2 s2 c2 H2 Hm2]; subst; clear Hm.
  inversion Hm2 as [|a3 r3 w3 s3 c3 _ Hm3]; subst; clear Hm2.
  inversion Hm3 as [|a4 r4 w4 s4 c4 H4 Hm4]; subst; clear Hm3.
  inversion Hm4; subst. simpl.
  eexists _, _. split; [done|]. split; by apply ReFacts.group_digits.
Qed.

Lemma min_max_digits g1 g2 :
  digits g1 → digits g2 → ∃ b, min_max [g1; g2] = Ok b.
Proof.
  intros [lo Hlo]%int_digits [hi Hhi]%int_digits.
  exists (Bounds lo hi). unfold min_max. simpl.
  rewrite Hlo. simpl. rewrite Hhi. done.
Qed.

Lemma limit_value_total pattern s :
  pattern = pattern_mask ∨ pattern = pattern_roi →
  Re.well_formed pattern s → ∃ b, limit_value pattern s b.
Proof.
  intros Hp [caps Hc]%ReFacts.search_Some.
  assert (∃ g1 g2, caps = [g1; g2] ∧ digits g1 ∧ digits g2) as (g1 & g2 & -> & H1 & H2).
  { destruct Hp as [-> | ->]; eauto using pattern_mask_groups, pattern_roi_groups. }
  destruct (min_max_digits g1 g2 H1 H2) as [b Hb]. exists b, [g1; g2]. done.
Qed.

Lemma limit_value_fun pattern s b b' :
  limit_value pattern s b → limit_value pattern s b' → b = b'.
Proof. intros (c & Hc & Hb) (c' & Hc' & Hb'). congruence. Qed.


Example check_limits_ok :
  check_limits (Some ":682-850") (Some "35-39")
  = Ok (Limits (Some (Bounds 682 850)) (Some (Bounds 35 39))).
Proof. vm_compute. reflexivity. Qed.

Example contact_groups :
  Re.search pattern_contact "ASP11_OD1-ARG15_NH1-HH11" = Some ["ASP"; "11"; "ARG"; "15"].
Proof. vm_compute. reflexivity. Qed.

Example hydrogen_bonds_demo :
  columns <$> (match hydrogen_bonds
    (HbondAnalysis 4 ["total_solute_hbonds"; "SER9_O-ALA3_N-H"; "ASP2_OD1-ARG7_NH1-HH11";
                      "ASP2_OD1-ASP2_N-H"; "GLY1_O-LYS4_N-H"]
       [[1.0; 2.0; 2.5; 5.0]; [1; 1; 1; 1]; [1; 1; 1; 1]; [9; 9; 9; 9]]%float)
    3.0 20.0 pattern_contact with Ok df => Some df | Raise _ => None end)
  = Some ["frames"; "ASP2_OD1-ARG7_NH1-HH11"; "SER9_O-ALA3_N-H"].
Proof. vm_compute. reflexivity. Qed.
(** The result of each of the two parsing blocks of [check_limits]. *)
Lemma parse_block pattern (err : string → arg_error) (x : option string) :
  pattern = pattern_mask ∨ pattern = pattern_roi →
  let block : result (option bounds) :=
    match truthy x with
    | Some s =>
        match Re.search pattern s with
        | Some m => b ← min_max m; Ok (Some b)
        | None => Raise (ArgumentTypeError (err s))
        end
    | None => Ok None
    end in
  (truthy x = None ∧ block = Ok None) ∨
  (∃ s, truthy x = Some s ∧ ¬ Re.well_formed pattern s ∧
        block = Raise (ArgumentTypeError (err s))) ∨
  (∃ s b, truthy x = Some s ∧ Re.well_formed pattern s ∧
          limit_value pattern s b ∧ block = Ok (Some b)).
Proof.
  intros Hp. simpl. destruct (truthy x) as [s|]; [|by left].
  right. destruct (Re.search pattern s) as [caps|] eqn:Hs.
  - right. assert (Re.well_formed pattern s) as Hwf.
    { apply ReFacts.search_Some. by eexists. }
    destruct (limit_value_total pattern s Hp Hwf) as (b & caps' & Hs' & Hb).
    assert (caps' = caps) as -> by congruence.
    exists s, b. rewrite Hb. repeat split; try done. by exists caps.
  - left. exists s. by rewrite <-ReFacts.search_None.
Qed.

(** C5. [check_limits] fails with [InvalidFormat] exactly when a supplied
    (truthy) mask does not contain [:<digits>-<digits>] or a supplied ROI
    does not contain [<digits>-<digits>]; with both supplied and well formed
    it fails with [OutOfRange] exactly when [mask.min + roi.min >= mask.max]
    or [mask.min + roi.max >= mask.max], and otherwise returns the limits
    structure; [OutOfRange] arises in no other situation, and the function,
    which is pure, has no further outcome. *)
Theorem check_limits_errors (mask roi : option string) :
  (fails_with InvalidFormat (check_limits mask roi) ↔
     (∃ s, truthy mask = Some s ∧ ¬ Re.well_formed pattern_mask s) ∨
     (∃ s, truthy roi = Some s ∧ ¬ Re.well_formed pattern_roi s)) ∧
  (∀ sm sr,
     truthy mask = Some sm → truthy roi = Some sr →
     Re.well_formed pattern_mask sm → Re.well_formed pattern_roi sr →
     ∃ m r,
       limit_value pattern_mask sm m ∧ limit_value pattern_roi sr r ∧
       (fails_with OutOfRange (check_limits mask roi) ↔
          (b_min m + b_min r >= b_max m ∨ b_min m + b_max r >= b_max m)%Z) ∧
       ((b_min m + b_min r < b_max m ∧ b_min m + b_max r < b_max m)%Z →
          check_limits mask roi = Ok (Limits (Some m) (Some r)))) ∧
  (fails_with OutOfRange (check_limits mask roi) →
     (∃ sm, truthy mask = Some sm ∧ Re.well_formed pattern_mask sm) ∧
     (∃ sr, truthy roi = Some sr ∧ Re.well_formed pattern_roi sr)) ∧
  (fails_with InvalidFormat (check_limits mask roi) ∨
   fails_with OutOfRange (check_limits mask roi) ∨
   ∃ l, check_limits mask roi = Ok l).
Proof.
  unfold check_limits.
  pose proof (parse_block pattern_mask MaskFormat mask (or_introl eq_refl)) as Hm.
  pose proof (parse_block pattern_roi RoiFormat roi (or_intror eq_refl)) as Hr.
  cbv zeta in Hm, Hr.
  destruct Hm as [[Hm ->]|[(sm & Hm & Hwm & ->)|(sm & m & Hm & Hwm & Hvm & ->)]];
    simpl;
    [destruct Hr as [[Hr ->]|[(sr & Hr & Hwr & ->)|(sr & r & Hr & Hwr & Hvr & ->)]]
    | idtac
    | destruct Hr as [[Hr ->]|[(sr & Hr & Hwr & ->)|(sr & r & Hr & Hwr & Hvr & ->)]]];
    simpl; unfold fails_with.
  1-6: by (repeat split; try naive_solver; left; eexists).
  assert (∀ sm' sr', truthy mask = Some sm' → truthy roi = Some sr' →
            sm' = sm ∧ sr' = sr) as Huniq by (intros; split; congruence).
  destruct (decide (b_min m + b_min r >= b_max m)%Z) as [Hlo|Hlo];
    [|destruct (decide (b_min m + b_max r >= b_max m)%Z) as [Hhi|Hhi]].
  all: split; [naive_solver|].
  all: split;
    [intros sm' sr' Hsm Hsr _ _; destruct (Huniq sm' sr' Hsm Hsr) as [-> ->];
     exists m, r; repeat split; try done; try naive_solver; try lia|].
  all: split; [naive_solver|].
  1-2: by right; left; eexists.
  right. right. by eexists.
Qed.


(** ** Dictionaries and tables *)

Section dict.
Context {K V : Type} `{EqDecision K}.
Implicit Types (d : dict K V) (k : K) (v : V).

Lemma dict_keys_set k v d :
  dict_keys (dict_set k v d)
  = if decide (k ∈ dict_keys d) then dict_keys d else dict_keys d ++ [k].
Proof.
  unfold dict_keys. induction d as [|[k' v'] d IH]; csimpl; [done|].
  destruct (decide (k' = k)) as [->|Hne]; csimpl.
  - rewrite decide_True; [done|]. apply list_elem_of_here.
  - rewrite IH. destruct (decide (k ∈ d.*1)) as [Hin|Hin].
    + rewrite decide_True; [done|]. by apply list_elem_of_further.
    + rewrite decide_False; [done|]. rewrite elem_of_cons. naive_solver.
Qed.

Lemma dict_keys_set_elem k k' v d :
  k' ∈ dict_keys (dict_set k v d) ↔ k' ∈ dict_keys d ∨ k' = k.
Proof.
  rewrite dict_keys_set. case_decide; [naive_solver|].
  rewrite elem_of_app, list_elem_of_singleton. done.
Qed.

Lemma dict_keys_set_NoDup k v d :
  NoDup (dict_keys d) → NoDup (dict_keys (dict_set k v d)).
Proof.
  intros Hd. rewrite dict_keys_set. case_decide; [done|].
  apply NoDup_app. split; [done|]. split; [|apply NoDup_singleton].
  intros x Hx ->%list_elem_of_singleton. done.
Qed.

Lemma dict_keys_set_head k v d k0 rest :
  dict_keys d = k0 :: rest → ∃ rest', dict_keys (dict_set k v d) = k0 :: rest'.
Proof.
  intros Hd. rewrite dict_keys_set, Hd. case_decide; simpl; eauto.
Qed.

End dict.

Lemma select_columns_columns df names df' :
  select_columns df names = Ok df' → columns df' = names.
Proof.
  revert df'. induction names as [|k names IH]; intros df'; simpl.
  - by intros [= <-].
  - destruct (dict_get k df) as [c|]; simpl; [|done].
    destruct (select_columns df names) as [rest|]; simpl; [|done].
    intros [= <-]. unfold columns, dict_keys in *. csimpl. f_equal. by apply IH.
Qed.

(** ** The occupancy window *)

Lemma window_drop (d : list float) (a k : nat) :
  (filter (λ ix : nat * float, k ≤ ix.1) (zip (seq a (length d)) d)).*2
  = drop (k - a) d.
Proof.
  revert a. induction d as [|x d IH]; intros a; csimpl; [by rewrite drop_nil|].
  rewrite filter_cons. csimpl. destruct (decide (k ≤ a)) as [Hk|Hk]; csimpl.
  - rewrite IH. replace (k - a) with 0 by lia. replace (k - S a) with 0 by lia. done.
  - rewrite IH. replace (k - a) with (S (k - S a)) by lia. done.
Qed.

Lemma filter_snd_length {A B : Type} (P : B → Prop) `{∀ y, Decision (P y)}
    (l : list (A * B)) :
  length (filter (λ xy, P xy.2) l) = length (filter P l.*2).
Proof.
  induction l as [|[x y] l IH]; csimpl; [done|].
  rewrite !filter_cons. csimpl. destruct (decide (P y)); simpl; by rewrite IH.
Qed.

(** The slice the program takes is the window of the specification. *)
Lemma occupancy_second_half dist_thr d :
  occupancy dist_thr d
  = (float_of_nat (length (filter (λ x, PrimFloat.leb x dist_thr = true) (second_half d)))
     / float_of_nat (length (second_half d)) * 100)%float.
Proof.
  unfold occupancy, second_half.
  pose proof (window_drop d 0 (length d / 2)) as Hw.
  rewrite Nat.sub_0_r in Hw. cbv zeta.
  pose proof (filter_snd_length (λ x, PrimFloat.leb x dist_thr = true)
                (filter (λ ix : nat * float, length d / 2 ≤ ix.1)
                   (zip (seq 0 (length d)) d))) as Hl.
  cbv beta in Hl. rewrite Hl, Hw.
  rewrite <-(length_fmap snd (filter _ (zip _ _))), Hw. done.
Qed.

Lemma second_half_nonempty d : d ≠ [] → length (second_half d) ≠ 0.
Proof.
  unfold second_half. rewrite length_drop. destruct d as [|x d]; [done|].
  intros _. simpl length.
  pose proof (Nat.div_lt (S (length d)) 2). lia.
Qed.

Lemma pct_contacts_Ok dist_thr d pct :
  pct_contacts dist_thr d = Ok pct → pct = occupancy dist_thr d.
Proof.
  unfold pct_contacts. cbv zeta. case_decide; [done|].
  intros [= <-]. by rewrite occupancy_second_half.
Qed.

Lemma pct_contacts_nonempty dist_thr d :
  d ≠ [] → pct_contacts dist_thr d = Ok (occupancy dist_thr d).
Proof.
  intros Hd%second_half_nonempty. unfold pct_contacts. cbv zeta.
  rewrite decide_False by done. by rewrite occupancy_second_half.
Qed.

(** ** The loop of hydrogen_bonds *)

Section hydrogen_bonds_loop.
Context (dist : list (list float)) (dist_thr occupancy_thr : float) (pattern : Re.regex).

Local Abbreviation step := (hydrogen_bonds_step dist dist_thr occupancy_thr pattern).
Local Abbreviation loop := (hydrogen_bonds_loop dist dist_thr occupancy_thr pattern).
Local Abbreviation passes := (passes dist dist_thr occupancy_thr pattern).
Local Abbreviation keys st := (dict_keys (data_hydrogen_bonds st)).

Lemma hydrogen_bonds_step_total st st' :
  step st "total_solute_hbonds" = Ok st' → st' = st.
Proof. unfold hydrogen_bonds_step. rewrite decide_False by naive_solver. congruence. Qed.

Lemma hydrogen_bonds_step_candidate st key st' :
  key ≠ "total_solute_hbonds" →
  step st key = Ok st' →
  idx st' = S (idx st) ∧
  ((¬ passes (idx st) key ∧ data_hydrogen_bonds st' = data_hydrogen_bonds st) ∨
   (passes (idx st) key ∧
    ∃ d, data_hydrogen_bonds st' = dict_set key (Floats d) (data_hydrogen_bonds st))).
Proof.
  intros Hkey. unfold hydrogen_bonds_step. rewrite decide_True by done.
  destruct (Re.search pattern key) as [m|] eqn:Hm; simpl.
  - destruct (Re.group m 2) as [g2|] eqn:Hg2; simpl; [|done].
    destruct (Re.group m 4) as [g4|] eqn:Hg4; simpl; [|done].
    assert (∀ donor acceptor, positions pattern key donor acceptor →
              donor = g2 ∧ acceptor = g4) as Hpos.
    { intros donor acceptor (m' & ? & ? & ?). split; congruence. }
    destruct (decide (g2 = g4)) as [->|Hne]; simpl.
    { intros [= <-]. simpl. split; [done|]. left. split; [|done].
      intros (d & donor & acceptor & _ & [-> ->]%Hpos & ? & _). done. }
    destruct (dist !! idx st) as [d|] eqn:Hd; simpl; [|done].
    destruct (pct_contacts dist_thr d) as [pct|] eqn:Hpct; simpl; [|done].
    apply pct_contacts_Ok in Hpct as ->.
    destruct (PrimFloat.leb occupancy_thr (occupancy dist_thr d)) eqn:Hleb; simpl.
    + intros [= <-]. simpl. split; [done|]. right. split; [|by eexists].
      exists d, g2, g4. repeat split; try done. by exists m.
    + intros [= <-]. simpl. split; [done|]. left. split; [|done].
      intros (d' & donor & acceptor & Hd' & _ & _ & Hleb').
      assert (d' = d) as -> by congruence. congruence.
  - intros [= <-]. simpl. split; [done|]. left. split; [|done].
    intros (d & donor & acceptor & _ & (m & ? & _) & _). congruence.
Qed.

Lemma hydrogen_bonds_loop_spec ks st st' :
  loop ks st = Ok st' →
  idx st' = idx st + length (filter (λ key, key ≠ "total_solute_hbonds") ks) ∧
  (∀ key, key ∈ keys st' ↔
          key ∈ keys st ∨
          ∃ j, filter (λ key, key ≠ "total_solute_hbonds") ks !! j = Some key ∧
               passes (idx st + j) key) ∧
  (NoDup (keys st) → NoDup (keys st')) ∧
  (∀ k0 rest, keys st = k0 :: rest → ∃ rest', keys st' = k0 :: rest').
Proof.
  revert st. induction ks as [|k ks IH]; intros st; simpl.
  - intros [= <-]. rewrite Nat.add_0_r. repeat split; eauto.
    intros [?|(j & Hj & _)]; [done|]. by rewrite filter_nil, lookup_nil in Hj.
  - destruct (step st k) as [st1|] eqn:Hstep; simpl; [|done].
    intros (Hidx & Hkeys & Hnd & Hhd)%IH.
    destruct (decide (k = "total_solute_hbonds")) as [->|Hk].
    { apply hydrogen_bonds_step_total in Hstep as ->.
      rewrite filter_cons_False by naive_solver. done. }
    apply hydrogen_bonds_step_candidate in Hstep as [Hi Hstep]; [|done].
    rewrite filter_cons_True by done. simpl length.
    split; [lia|]. rewrite Hi in Hkeys.
    assert (∀ key, (∃ j, (k :: filter (λ key, key ≠ "total_solute_hbonds") ks) !! j
                         = Some key ∧ passes (idx st + j) key) ↔
                   (key = k ∧ passes (idx st) key) ∨
                   (∃ j, filter (λ key, key ≠ "total_solute_hbonds") ks !! j = Some key ∧
                         passes (S (idx st) + j) key)) as Hshift.
    { intros key. split.
      - intros ([|j] & Hj & Hp); simpl in Hj.
        + left. rewrite Nat.add_0_r in Hp. naive_solver.
        + right. exists j. split; [done|].
          by replace (S (idx st) + j) with (idx st + S j) by lia.
      - intros [[-> Hp]|(j & Hj & Hp)].
        + exists 0. rewrite Nat.add_0_r. done.
        + exists (S j). split; [done|].
          by replace (idx st + S j) with (S (idx st) + j) by lia. }
    destruct Hstep as [[Hnp Hdata]|[Hp [d Hdata]]]; rewrite Hdata in *.
    + split; [|done]. intros key. rewrite Hkeys, Hshift. naive_solver.
    + split; [|split].
      * intros key. rewrite Hkeys, Hshift, dict_keys_set_elem. naive_solver.
      * intros Hst. by apply Hnd, dict_keys_set_NoDup.
      * intros k0 rest Hst.
        destruct (dict_keys_set_head k (Floats d) _ _ _ Hst) as [rest' Hr]. eauto.
Qed.

End hydrogen_bonds_loop.

(** ** Lists gathered by key and sorted block by block *)

Section by_key.
Context {A K : Type} `{EqDecision K} (f : A → K).

Lemma bind_filter_nil (ks : list K) :
  (k ← ks; filter (λ y, f y = k) []) = [].
Proof. induction ks as [|k ks IH]; [done|]. by rewrite bind_cons, IH. Qed.

Lemma bind_filter_cons_notin (ks : list K) (x : A) (l : list A) :
  f x ∉ ks →
  (k ← ks; filter (λ y, f y = k) (x :: l)) = (k ← ks; filter (λ y, f y = k) l).
Proof.
  induction ks as [|k ks IH]; [done|].
  intros [Hne Hks]%not_elem_of_cons. rewrite !bind_cons, IH by done.
  by rewrite filter_cons_False.
Qed.

Lemma bind_filter_cons_in (ks : list K) (x : A) (l : list A) :
  NoDup ks → f x ∈ ks →
  (k ← ks; filter (λ y, f y = k) (x :: l)) ≡ₚ x :: (k ← ks; filter (λ y, f y = k) l).
Proof.
  induction ks as [|k ks IH]; [by intros _ ?%elem_of_nil|].
  intros [Hk Hnd]%NoDup_cons Hin. rewrite !bind_cons.
  destruct (decide (f x = k)) as [Hx|Hx].
  - rewrite filter_cons_True by done.
    rewrite bind_filter_cons_notin by (by rewrite Hx). done.
  - rewrite filter_cons_False by done.
    apply elem_of_cons in Hin as [?|Hin]; [done|].
    rewrite IH by done. by rewrite Permutation_middle.
Qed.

(** Gathering a list key by key loses and repeats nothing. *)
Lemma bind_filter_Permutation (ks : list K) (l : list A) :
  NoDup ks → (∀ x, x ∈ l → f x ∈ ks) →
  (k ← ks; filter (λ y, f y = k) l) ≡ₚ l.
Proof.
  intros Hnd. induction l as [|x l IH]; intros Hin.
  - by rewrite bind_filter_nil.
  - rewrite bind_filter_cons_in; [|done|apply Hin, list_elem_of_here].
    f_equiv. apply IH. intros y Hy. by apply Hin, list_elem_of_further.
Qed.

End by_key.

Lemma bind_Permutation_ext {A B : Type} (g h : A → list B) (ks : list A) :
  (∀ k, k ∈ ks → g k ≡ₚ h k) → ks ≫= g ≡ₚ ks ≫= h.
Proof.
  induction ks as [|k ks IH]; intros Hgh; [done|]. rewrite !bind_cons.
  f_equiv; [apply Hgh, list_elem_of_here|].
  apply IH. intros k' ?. by apply Hgh, list_elem_of_further.
Qed.

Lemma bind_StronglySorted {K A : Type} (RK : relation K) (R : relation A)
    (ks : list K) (g : K → list A) :
  StronglySorted RK ks →
  (∀ k, k ∈ ks → StronglySorted R (g k)) →
  (∀ k k' x y, k ∈ ks → k' ∈ ks → RK k k' → x ∈ g k → y ∈ g k' → R x y) →
  StronglySorted R (ks ≫= g).
Proof.
  induction 1 as [|k ks Hks IH Hk]; intros Hg HR; [constructor|].
  rewrite bind_cons. apply StronglySorted_app. split; [|split].
  - intros x y Hx (k' & Hy & Hk')%list_elem_of_bind.
    rewrite Forall_forall in Hk.
    apply (HR k k'); [apply list_elem_of_here|by apply list_elem_of_further| |done|done].
    by apply Hk.
  - apply Hg, list_elem_of_here.
  - apply IH.
    + intros k' ?. by apply Hg, list_elem_of_further.
    + intros k1 k2 x y ? ?. apply HR; by apply list_elem_of_further.
Qed.

Lemma StronglySorted_impl_elem {A : Type} (R1 R2 : relation A) (l : list A) :
  (∀ x y, x ∈ l → y ∈ l → R1 x y → R2 x y) →
  StronglySorted R1 l → StronglySorted R2 l.
Proof.
  intros HR Hl. induction Hl as [|x l Hl IH Hx]; [constructor|].
  constructor.
  - apply IH. intros y z ? ?. apply HR; by apply list_elem_of_further.
  - rewrite Forall_forall in *. intros y Hy. apply HR.
    + apply list_elem_of_here.
    + by apply list_elem_of_further.
    + by apply Hx.
Qed.

Lemma StronglySorted_le_lt (l : list Z) :
  StronglySorted Z.le l → NoDup l → StronglySorted Z.lt l.
Proof.
  induction 1 as [|x l Hl IH Hx]; intros Hnd; [constructor|].
  apply NoDup_cons in Hnd as [Hxl Hnd]. constructor; [by apply IH|].
  rewrite Forall_forall in *. intros y Hy.
  assert (x ≠ y) by (by intros ->).
  specialize (Hx y Hy). lia.
Qed.

Section sorted_keys.
Context {V : Type} (d : gmap Z V).

Lemma sorted_keys_elem k : k ∈ sorted_keys d ↔ is_Some (d !! k).
Proof.
  unfold sorted_keys. rewrite merge_sort_Permutation, list_elem_of_fmap. split.
  - intros ([k' v] & -> & Hkv%elem_of_map_to_list). by eexists.
  - intros [v Hv]. exists (k, v). split; [done|]. by apply elem_of_map_to_list.
Qed.

Lemma sorted_keys_NoDup : NoDup (sorted_keys d).
Proof.
  unfold sorted_keys. rewrite merge_sort_Permutation. apply NoDup_fst_map_to_list.
Qed.

Lemma sorted_keys_sorted : StronglySorted Z.lt (sorted_keys d).
Proof.
  apply StronglySorted_le_lt; [|apply sorted_keys_NoDup].
  apply (StronglySorted_merge_sort _).
Qed.

End sorted_keys.

(** ** sort_contacts *)

Section sort_contacts.
Context (pattern : Re.regex).

Local Abbreviation donor := (donor_of pattern).
Local Abbreviation acceptor := (acceptor_of pattern).
Local Abbreviation bucket_of := (bucket pattern).
Local Abbreviation is_filed := (filed pattern).

Lemma bucket_elem names k1 k2 n :
  n ∈ bucket_of names k1 k2 ↔ n ∈ names ∧ donor n = k1 ∧ acceptor n = k2.
Proof. unfold bucket. rewrite !list_elem_of_filter. naive_solver. Qed.

Lemma bucket_snoc names n k1 k2 :
  bucket_of (names ++ [n]) k1 k2
  = bucket_of names k1 k2
    ++ (if decide (donor n = k1 ∧ acceptor n = k2) then [n] else []).
Proof.
  unfold bucket. rewrite !filter_app. f_equal.
  rewrite (filter_cons _ n []), filter_nil.
  destruct (decide (donor n = k1)) as [H1|H1].
  - rewrite (filter_cons _ n []), filter_nil.
    destruct (decide (acceptor n = k2)).
    + by rewrite decide_True.
    + rewrite decide_False; [done|]. naive_solver.
  - rewrite filter_nil, decide_False; [done|]. naive_solver.
Qed.

Lemma filed_empty : is_filed ∅ [].
Proof. intros k1 k2. by rewrite lookup_empty. Qed.

(** Filing one more name, as the three branches of the loop do. *)
Lemma filed_insert tmp names n :
  is_filed tmp names →
  is_filed
    (match tmp !! donor n with
     | Some inner =>
         match inner !! acceptor n with
         | Some l => <[donor n := <[acceptor n := l ++ [n]]> inner]> tmp
         | None => <[donor n := <[acceptor n := [n]]> inner]> tmp
         end
     | None => <[donor n := {[acceptor n := [n]]}]> tmp
     end)
    (names ++ [n]).
Proof.
  intros Hf k1 k2. rewrite bucket_snoc.
  destruct (decide (donor n = k1 ∧ acceptor n = k2)) as [[<- <-]|Hne].
  - rewrite (decide_False (P := _ ++ _ = [])) by (by intros [_ ?]%app_eq_nil).
    pose proof (Hf (donor n) (acceptor n)) as Hn.
    destruct (tmp !! donor n) as [inner|] eqn:Htmp; simpl in Hn.
    + destruct (inner !! acceptor n) as [l|] eqn:Hl;
        rewrite lookup_insert_eq; simpl; rewrite lookup_insert_eq.
      * case_decide; [done|]. by injection Hn as <-.
      * case_decide as Hb; [|done]. by rewrite Hb.
    + rewrite lookup_insert_eq. simpl. rewrite lookup_singleton_eq.
      case_decide as Hb; [|done]. by rewrite Hb.
  - rewrite app_nil_r, <-(Hf k1 k2).
    destruct (decide (donor n = k1)) as [<-|Hk1].
    + assert (acceptor n ≠ k2) as Hk2 by naive_solver.
      destruct (tmp !! donor n) as [inner|] eqn:Htmp; simpl.
      * destruct (inner !! acceptor n);
          rewrite lookup_insert_eq; simpl; by rewrite lookup_insert_ne.
      * rewrite lookup_insert_eq. simpl. by rewrite lookup_singleton_ne.
    + destruct (tmp !! donor n) as [inner|]; [destruct (inner !! acceptor n)|];
        by rewrite lookup_insert_ne.
Qed.

Lemma position_in_Ok i n m g z :
  Re.search pattern n = Some m → Re.group m i = Ok g → int g = Ok z →
  position_in pattern i n = z.
Proof. intros Hm Hg Hz. unfold position_in. rewrite Hm, Hg. simpl. by rewrite Hz. Qed.

Lemma sort_contacts_scan_spec names tmp ordered prev tmp' ordered' :
  sort_contacts_scan pattern names tmp ordered = Ok (tmp', ordered') →
  is_filed tmp prev →
  is_filed tmp' (prev ++ filter (λ n, n ≠ "frames") names) ∧
  ordered' = ordered ++ filter (λ n, n = "frames") names ∧
  Forall (λ n, is_Some (Re.search pattern n)) (filter (λ n, n ≠ "frames") names).
Proof.
  revert tmp ordered prev. induction names as [|n names IH]; intros tmp ordered prev; simpl.
  - intros [= <- <-] Hf. rewrite !filter_nil, !app_nil_r. done.
  - destruct (decide (n = "frames")) as [->|Hn].
    + rewrite filter_cons_False by naive_solver. rewrite filter_cons_True by done.
      intros Hs Hf. destruct (IH _ _ _ Hs Hf) as (? & -> & ?).
      by rewrite <-app_assoc.
    + rewrite filter_cons_True by done. rewrite filter_cons_False by done.
      destruct (Re.search pattern n) as [m|] eqn:Hm; [|done].
      destruct (Re.group m 2) as [g2|] eqn:Hg2; simpl; [|done].
      destruct (int g2) as [k1|] eqn:Hk1; simpl; [|done].
      destruct (Re.group m 4) as [g4|] eqn:Hg4; simpl; [|done].
      destruct (int g4) as [k2|] eqn:Hk2; simpl; [|done].
      pose proof (position_in_Ok 2 n m g2 k1 Hm Hg2 Hk1) as Hd.
      pose proof (position_in_Ok 4 n m g4 k2 Hm Hg4 Hk2) as Ha.
      fold (donor_of pattern n) in Hd.
      fold (acceptor_of pattern n) in Ha.
      intros Hs Hf. apply (filed_insert _ _ n) in Hf. rewrite Hd, Ha in Hf.
      assert (∀ tmp1, is_filed tmp1 (prev ++ [n]) →
                sort_contacts_scan pattern names tmp1 ordered = Ok (tmp', ordered') →
                is_filed tmp' (prev ++ n :: filter (λ n, n ≠ "frames") names) ∧
                ordered' = ordered ++ filter (λ n, n = "frames") names ∧
                Forall (λ n, is_Some (Re.search pattern n))
                  (n :: filter (λ n, n ≠ "frames") names)) as Hgo.
      { intros tmp1 Hf1 Hs1. destruct (IH _ _ _ Hs1 Hf1) as (Hf' & -> & Hall).
        rewrite <-app_assoc in Hf'. repeat split; try done.
        constructor; [by rewrite Hm|done]. }
      destruct (tmp !! k1) as [inner|]; [destruct (inner !! k2)|]; by eapply Hgo.
Qed.

Section emit.
Context (tmp : gmap Z (gmap Z (list string))) (names : list string).
Context (Hfiled : is_filed tmp names).

Lemma filed_lookup k1 k2 :
  k1 ∈ sorted_keys tmp → k2 ∈ sorted_keys (tmp !!! k1) →
  (tmp !!! k1) !!! k2 = bucket_of names k1 k2.
Proof using Hfiled.
  intros [inner Hi]%sorted_keys_elem. rewrite (lookup_total_correct _ _ _ Hi).
  intros [l Hl]%sorted_keys_elem. rewrite (lookup_total_correct _ _ _ Hl).
  pose proof (Hfiled k1 k2) as H. rewrite Hi in H. simpl in H. rewrite Hl in H.
  case_decide; congruence.
Qed.

Lemma filed_keys n :
  n ∈ names →
  donor n ∈ sorted_keys tmp ∧
  acceptor n ∈ sorted_keys (tmp !!! donor n).
Proof using Hfiled.
  intros Hn. pose proof (Hfiled (donor n) (acceptor n)) as H.
  rewrite decide_False in H.
  - destruct (tmp !! donor n) as [inner|] eqn:Hi; [|done]. simpl in H.
    rewrite (lookup_total_correct _ _ _ Hi).
    split; apply sorted_keys_elem; by eexists.
  - intros Hb. assert (n ∈ bucket_of names (donor n) (acceptor n)) as Hin.
    { by apply bucket_elem. }
    rewrite Hb in Hin. by apply elem_of_nil in Hin.
Qed.

Lemma emit_inner_elem k1 n :
  k1 ∈ sorted_keys tmp →
  n ∈ (k2 ← sorted_keys (tmp !!! k1);
       merge_sort String.le ((tmp !!! k1) !!! k2)) →
  ∃ k2, k2 ∈ sorted_keys (tmp !!! k1) ∧
        n ∈ names ∧ donor n = k1 ∧ acceptor n = k2.
Proof using Hfiled.
  intros Hk1 (k2 & Hn & Hk2)%list_elem_of_bind.
  rewrite merge_sort_Permutation, filed_lookup in Hn by done.
  apply bucket_elem in Hn. eauto.
Qed.

Lemma sort_contacts_emit_Permutation : sort_contacts_emit tmp ≡ₚ names.
Proof using Hfiled.
  unfold sort_contacts_emit.
  rewrite (bind_Permutation_ext _ (λ k1, filter (λ n, donor n = k1) names)).
  - apply bind_filter_Permutation; [apply sorted_keys_NoDup|].
    intros n Hn. by apply filed_keys.
  - intros k1 Hk1.
    rewrite (bind_Permutation_ext _
               (λ k2, filter (λ n, acceptor n = k2)
                        (filter (λ n, donor n = k1) names))).
    + apply bind_filter_Permutation; [apply sorted_keys_NoDup|].
      intros n [<- Hn]%list_elem_of_filter. by apply filed_keys.
    + intros k2 Hk2. by rewrite merge_sort_Permutation, filed_lookup.
Qed.

Lemma sort_contacts_emit_sorted :
  StronglySorted (contact_le pattern) (sort_contacts_emit tmp).
Proof using Hfiled.
  unfold sort_contacts_emit.
  apply (bind_StronglySorted Z.lt); [apply sorted_keys_sorted| |].
  - intros k1 Hk1.
    apply (bind_StronglySorted Z.lt); [apply sorted_keys_sorted| |].
    + intros k2 Hk2.
      apply (StronglySorted_impl_elem String.le);
        [|apply (StronglySorted_merge_sort _)].
      intros x y Hx Hy Hxy.
      rewrite merge_sort_Permutation, filed_lookup in Hx, Hy by done.
      apply bucket_elem in Hx as (_ & Hx1 & Hx2).
      apply bucket_elem in Hy as (_ & Hy1 & Hy2).
      right. split; [congruence|]. right. split; [congruence|done].
    + intros k2 k2' x y Hk2 Hk2' Hlt Hx Hy.
      rewrite merge_sort_Permutation, filed_lookup in Hx, Hy by done.
      apply bucket_elem in Hx as (_ & Hx1 & Hx2).
      apply bucket_elem in Hy as (_ & Hy1 & Hy2).
      right. split; [congruence|]. left. by rewrite Hx2, Hy2.
  - intros k1 k1' x y Hk1 Hk1' Hlt Hx Hy.
    apply emit_inner_elem in Hx as (? & _ & _ & Hx & _); [|done].
    apply emit_inner_elem in Hy as (? & _ & _ & Hy & _); [|done].
    left. by rewrite Hx, Hy.
Qed.

End emit.

(** What [sort_contacts] returns: the ["frames"] entries, then the other
    names in the order of [contact_le]. *)
Lemma sort_contacts_spec names ordered :
  sort_contacts names pattern = Ok ordered →
  ∃ sorted,
    ordered = filter (λ n, n = "frames") names ++ sorted ∧
    sorted ≡ₚ filter (λ n, n ≠ "frames") names ∧
    StronglySorted (contact_le pattern) sorted ∧
    Forall (λ n, is_Some (Re.search pattern n)) sorted.
Proof.
  unfold sort_contacts.
  destruct (sort_contacts_scan pattern names ∅ []) as [[tmp ordered']|] eqn:Hs;
    simpl; [|done].
  intros [= <-].
  destruct (sort_contacts_scan_spec _ _ _ [] _ _ Hs filed_empty) as (Hf & -> & Hall).
  simpl in Hf. exists (sort_contacts_emit tmp).
  pose proof (sort_contacts_emit_Permutation _ _ Hf) as Hp.
  repeat split; try done.
  - by apply sort_contacts_emit_sorted with (names := filter (λ n, n ≠ "frames") names).
  - by rewrite Hp.
Qed.

(** [sort_contacts] ends the run only on a name the pattern does not match. *)
Lemma sort_contacts_scan_Ok names tmp ordered :
  Forall (λ n, n = "frames" ∨
               ∃ m g2 g4, Re.search pattern n = Some m ∧
                          Re.group m 2 = Ok g2 ∧ Re.group m 4 = Ok g4 ∧
                          digits g2 ∧ digits g4) names →
  ∃ r, sort_contacts_scan pattern names tmp ordered = Ok r.
Proof.
  intros Hall. revert tmp ordered.
  induction Hall as [|n names Hn _ IH]; intros tmp ordered; simpl; [by eexists|].
  destruct (decide (n = "frames")) as [->|Hne]; [apply IH|].
  destruct Hn as [?|(m & g2 & g4 & Hm & Hg2 & Hg4 & [k1 Hk1]%int_digits & [k2 Hk2]%int_digits)];
    [done|].
  rewrite Hm, Hg2. simpl. rewrite Hk1. simpl. rewrite Hg4. simpl. rewrite Hk2. simpl.
  destruct (tmp !! k1) as [inner|]; [destruct (inner !! k2)|]; apply IH.
Qed.

End sort_contacts.

(** ** The contact pattern *)

Lemma pattern_contact_groups s m :
  Re.search pattern_contact s = Some m →
  ∃ g1 g2 g3 g4, m = [g1; g2; g3; g4] ∧ digits g2 ∧ digits g4.
Proof.
  intros (pre & rest & _ & Hm)%ReFacts.search_sound.
  unfold pattern_contact in Hm.
  inversion Hm as [|a1 r1 w1 s1 c1 _ Hm1]; subst; clear Hm.
  inversion Hm1 as [|a2 r2 w2 s2 c2 H2 Hm2]; subst; clear Hm1.
  inversion Hm2 as [|a3 r3 w3 s3 c3 _ Hm3]; subst; clear Hm2.
  inversion Hm3 as [|a4 r4 w4 s4 c4 _ Hm4]; subst; clear Hm3.
  inversion Hm4 as [|a5 r5 w5 s5 c5 _ Hm5]; subst; clear Hm4.
  inversion Hm5 as [|a6 r6 w6 s6 c6 H6 Hm6]; subst; clear Hm5.
  inversion Hm6; subst. simpl.
  eexists _, _, _, _. split; [done|]. split; by apply ReFacts.group_digits.
Qed.

Lemma pattern_contact_frames : Re.search pattern_contact "frames" = None.
Proof. vm_compute. reflexivity. Qed.

Lemma positions_fun pattern key donor acceptor donor' acceptor' :
  positions pattern key donor acceptor → positions pattern key donor' acceptor' →
  donor = donor' ∧ acceptor = acceptor'.
Proof. intros (m & ? & ? & ?) (m' & ? & ? & ?). split; congruence. Qed.

Lemma positions_contact key donor acceptor :
  positions pattern_contact key donor acceptor →
  key ≠ "frames" ∧ digits donor ∧ digits acceptor.
Proof.
  intros (m & Hm & Hd & Ha). split.
  - intros ->. by rewrite pattern_contact_frames in Hm.
  - apply pattern_contact_groups in Hm as (g1 & g2 & g3 & g4 & -> & ? & ?).
    injection Hd as <-. injection Ha as <-. done.
Qed.

(** ** hydrogen_bonds *)

Lemma pd_DataFrame_Ok data df : pd_DataFrame data = Ok df → df = data.
Proof.
  unfold pd_DataFrame. destruct data as [|[k c] rest]; [congruence|].
  case_decide; congruence.
Qed.

Lemma filter_none {A : Type} (P : A → Prop) `{∀ x, Decision (P x)} (l : list A) :
  (∀ x, x ∈ l → ¬ P x) → filter P l = [].
Proof.
  induction l as [|x l IH]; intros Hl; [done|].
  rewrite filter_cons_False by (apply Hl, list_elem_of_here).
  apply IH. intros y ?. by apply Hl, list_elem_of_further.
Qed.

Lemma filter_all {A : Type} (P : A → Prop) `{∀ x, Decision (P x)} (l : list A) :
  (∀ x, x ∈ l → P x) → filter P l = l.
Proof.
  induction l as [|x l IH]; intros Hl; [done|].
  rewrite filter_cons_True by (apply Hl, list_elem_of_here).
  f_equal. apply IH. intros y ?. by apply Hl, list_elem_of_further.
Qed.

(** The columns of the table [hydrogen_bonds] returns. *)
Lemma hydrogen_bonds_columns traj dist_thr occupancy_thr df :
  hydrogen_bonds traj dist_thr occupancy_thr pattern_contact = Ok df →
  ∃ contacts,
    columns df = "frames" :: contacts ∧
    StronglySorted (contact_le pattern_contact) contacts ∧
    NoDup ("frames" :: contacts) ∧
    ∀ key, key ∈ contacts ↔ retained traj dist_thr occupancy_thr pattern_contact key.
Proof.
  unfold hydrogen_bonds. cbv zeta.
  destruct (hydrogen_bonds_loop _ _ _ _ _ _) as [st|] eqn:Hloop; simpl; [|done].
  case_decide; [done|].
  destruct (sort_contacts _ _) as [ordered|] eqn:Hsort; simpl; [|done].
  destruct (pd_DataFrame _) as [df0|] eqn:Hdf; simpl; [|done].
  apply pd_DataFrame_Ok in Hdf as ->.
  intros Hcols%select_columns_columns. rewrite Hcols. clear Hcols df.
  apply hydrogen_bonds_loop_spec in Hloop as (_ & Hkeys & Hnd & Hhd).
  simpl in Hkeys, Hnd, Hhd.
  destruct (Hhd "frames" [] eq_refl) as [rest Hrest].
  specialize (Hnd (NoDup_singleton _)). rewrite Hrest in Hnd.
  apply sort_contacts_spec in Hsort as (contacts & -> & Hperm & Hsorted & _).
  rewrite Hrest in Hperm |- *.
  pose proof Hnd as [Hfr Hnd']%NoDup_cons.
  assert (filter (λ n, n = "frames") ("frames" :: rest) = ["frames"]) as ->.
  { rewrite filter_cons_True by done. f_equal. apply filter_none. by intros ? ? ->. }
  assert (filter (λ n, n ≠ "frames") ("frames" :: rest) = rest) as Hf.
  { rewrite filter_cons_False by naive_solver. apply filter_all. by intros ? ? ->. }
  rewrite Hf in Hperm. simpl.
  exists contacts. split; [done|]. split; [done|]. split.
  { by rewrite Hperm. }
  intros key. rewrite Hperm. unfold retained, candidates.
  specialize (Hkeys key). rewrite Hrest in Hkeys. split.
  - intros Hin.
    destruct (proj1 Hkeys (list_elem_of_further _ _ _ Hin))
      as [->%list_elem_of_singleton|Hj]; done.
  - intros (i & Hi & Hp).
    assert (key ≠ "frames") as Hne.
    { destruct Hp as (_ & donor & acceptor & _ & [? _]%positions_contact & _). done. }
    assert (key ∈ "frames" :: rest) as [?|?]%elem_of_cons; [|done|done].
    apply Hkeys. right. eauto.
Qed.

(** C1.  The extractor does not fail on a candidate whose name the pattern
    does not match: on [unmatched_traj] the pair ["DA5_N1-DT20_N3-H3"] is
    left out without a word and a table is returned, where the
    specification asks for a fatal [PatternMismatch] (exit status 1). *)
Theorem hydrogen_bonds_skips_unmatched :
  Re.search pattern_contact "DA5_N1-DT20_N3-H3" = None ∧
  hydrogen_bonds unmatched_traj 3 20 pattern_contact
  = Ok [("frames", Range 4); ("SER9_O-ALA3_N-H", Floats [1; 1; 1; 1]%float)].
Proof. split; vm_compute; reflexivity. Qed.

Lemma group_Raise m i e : Re.group m i = Raise e → e = IndexError.
Proof.
  unfold Re.group. destruct i as [|i]; [congruence|].
  destruct (m !! i); simpl; congruence.
Qed.

Lemma hydrogen_bonds_loop_Raise dist dist_thr occupancy_thr pattern ks st e :
  hydrogen_bonds_loop dist dist_thr occupancy_thr pattern ks st = Raise e →
  e = IndexError ∨ e = ZeroDivisionError.
Proof.
  revert st. induction ks as [|k ks IH]; intros st; simpl; [done|].
  destruct (hydrogen_bonds_step _ _ _ _ st k) as [st1|e1] eqn:Hstep; simpl; [apply IH|].
  intros [= <-]. revert Hstep. unfold hydrogen_bonds_step.
  case_decide; [|done].
  destruct (Re.search pattern k) as [m|]; simpl; [|done].
  destruct (Re.group m 2) as [g2|] eqn:Hg2; simpl;
    [|apply group_Raise in Hg2; naive_solver].
  destruct (Re.group m 4) as [g4|] eqn:Hg4; simpl;
    [|apply group_Raise in Hg4; naive_solver].
  case_decide; simpl; [done|].
  destruct (dist !! idx st) as [d|]; simpl; [|naive_solver].
  unfold pct_contacts. cbv zeta. case_decide; simpl; [naive_solver|].
  by destruct (PrimFloat.leb _ _).
Qed.

Lemma select_columns_Raise df names e :
  select_columns df names = Raise e → ∃ k, e = KeyError k.
Proof.
  induction names as [|k names IH]; simpl; [done|].
  destruct (dict_get k df); simpl; [|naive_solver].
  destruct (select_columns df names); simpl; [done|]. intros [= <-]. by apply IH.
Qed.

(** Whatever the candidates, [hydrogen_bonds] never ends the run with
    status 1: the names that reach [sort_contacts] all match the pattern. *)
Lemma hydrogen_bonds_no_exit_1 traj dist_thr occupancy_thr :
  hydrogen_bonds traj dist_thr occupancy_thr pattern_contact ≠ Raise (SystemExit 1).
Proof.
  unfold hydrogen_bonds. cbv zeta.
  destruct (hydrogen_bonds_loop _ _ _ _ _ _) as [st|e] eqn:Hloop; simpl.
  2:{ apply hydrogen_bonds_loop_Raise in Hloop as [-> | ->]; done. }
  case_decide; [done|].
  apply hydrogen_bonds_loop_spec in Hloop as (_ & Hkeys & _).
  unfold sort_contacts.
  destruct (sort_contacts_scan_Ok pattern_contact
              (dict_keys (data_hydrogen_bonds st)) ∅ []) as [[tmp ordered] ->].
  { apply Forall_forall. intros key [->%list_elem_of_singleton|(j & _ & Hp)]%Hkeys;
      [by left|right].
    destruct Hp as (_ & donor & acceptor & _ & Hpos & _).
    destruct (positions_contact _ _ _ Hpos) as (_ & ? & ?).
    destruct Hpos as (m & ? & ? & ?). by exists m, donor, acceptor. }
  simpl. destruct (pd_DataFrame _) as [df0|e]  eqn:Hdf; simpl.
  - destruct (select_columns _ _) as [df|e] eqn:Hsel; [done|].
    apply select_columns_Raise in Hsel as [k ->]. done.
  - revert Hdf. unfold pd_DataFrame.
    destruct (data_hydrogen_bonds st) as [|[k c] rest]; [done|].
    case_decide; [done|]. by intros [= <-].
Qed.

(** C3.  The extractor does not keep every pair whose occupancy is exactly
    the occupancy threshold.  On [boundary_traj] the pair ["SER9_O-ALA3_N-H"]
    names two residues and is within the distance threshold in 29 of the 100
    frames with index from [floor(200/2)] on, an occupancy of exactly 29 %;
    with an occupancy threshold of 29 the specification retains it, and the
    program leaves it out of the table it returns.  The program computes
    [29 / 100 * 100] in binary64, which is below 29. *)
Theorem hydrogen_bonds_drops_boundary :
  candidates boundary_traj !! 0 = Some "SER9_O-ALA3_N-H" ∧
  dist boundary_traj !! 0 = Some boundary_distances ∧
  positions pattern_contact "SER9_O-ALA3_N-H" "9" "3" ∧
  (exact_occupancy 3 boundary_distances == 29)%Q ∧
  (∃ q, Q_of_float 29 = Some q ∧ (q == 29)%Q) ∧
  (∃ x, pct_contacts 3 boundary_distances = Ok x ∧ x = occupancy 3 boundary_distances ∧
        PrimFloat.ltb x 29 = true) ∧
  ∃ df, hydrogen_bonds boundary_traj 3 29 pattern_contact = Ok df ∧
        columns df = ["frames"; "GLY1_O-LYS4_N-H"].
Proof.
  split; [reflexivity|]. split; [reflexivity|]. split.
  { exists ["SER"; "9"; "ALA"; "3"]. by vm_compute. }
  split; [by vm_compute|]. split.
  { eexists. split; [by vm_compute|]. by vm_compute. }
  split.
  { eexists. split; [by vm_compute|]. split; by vm_compute. }
  eexists. split; [by vm_compute|]. by vm_compute.
Qed.

(** When the extractor returns a table, its contact columns are exactly the
    candidates between two residues for which the percentage the program
    computes, a binary64 value, is at least the occupancy threshold; for
    candidates with distinct names this is an equivalence pair by pair. *)
Theorem hydrogen_bonds_occupancy traj dist_thr occupancy_thr df :
  hydrogen_bonds traj dist_thr occupancy_thr pattern_contact = Ok df →
  (∀ key, key ∈ drop 1 (columns df) ↔
          retained traj dist_thr occupancy_thr pattern_contact key) ∧
  (NoDup (candidates traj) →
   ∀ i key d donor acceptor,
     candidates traj !! i = Some key → dist traj !! i = Some d →
     positions pattern_contact key donor acceptor → donor ≠ acceptor →
     (key ∈ columns df ↔ PrimFloat.leb occupancy_thr (occupancy dist_thr d) = true)).
Proof.
  intros (contacts & Hcols & _ & _ & Hret)%hydrogen_bonds_columns.
  rewrite Hcols. simpl. rewrite drop_0. split; [done|].
  intros Hnd i key d donor acceptor Hi Hd Hpos Hne.
  rewrite elem_of_cons, Hret. split.
  - intros [->|(i' & Hi' & d' & _ & _ & Hd' & _ & _ & Hleb)].
    + by apply positions_contact in Hpos as [? _].
    + assert (i' = i) as -> by (by eapply NoDup_lookup).
      by assert (d' = d) as -> by congruence.
  - intros Hleb. right. exists i. split; [done|]. by exists d, donor, acceptor.
Qed.

Lemma hydrogen_bonds_occupancy_witness :
  hydrogen_bonds sample_traj 3 20 pattern_contact = Ok sample_contacts ∧
  ("SER9_O-ALA3_N-H" ∈ drop 1 (columns sample_contacts) ↔
   retained sample_traj 3 20 pattern_contact "SER9_O-ALA3_N-H").
Proof.
  assert (hydrogen_bonds sample_traj 3 20 pattern_contact = Ok sample_contacts) as H.
  { vm_compute. reflexivity. }
  split; [exact H|].
  apply (hydrogen_bonds_occupancy sample_traj 3 20 sample_contacts H).
Defined.

(** C4.  A pair whose donor and acceptor residue positions are equal is
    never a column of the table the extractor returns.  The positions are
    compared as the program compares them, as the digits the pattern
    captures; for positions written without leading zeros (the text
    [pretty z] of an integer [z]) that is equality of the integers. *)
Theorem hydrogen_bonds_no_intra_residue traj dist_thr occupancy_thr df :
  hydrogen_bonds traj dist_thr occupancy_thr pattern_contact = Ok df →
  (∀ key position,
     positions pattern_contact key position position → key ∉ columns df) ∧
  (∀ key donor acceptor (z : Z),
     positions pattern_contact key donor acceptor →
     donor = pretty z → acceptor = pretty z → key ∉ columns df).
Proof.
  intros (contacts & Hcols & _ & _ & Hret)%hydrogen_bonds_columns.
  assert (∀ key position,
            positions pattern_contact key position position → key ∉ columns df) as Hmain.
  { intros key position Hpos. rewrite Hcols.
    intros [->|(i & _ & d & donor & acceptor & _ & Hpos' & Hne & _)%Hret]%elem_of_cons.
    - by apply positions_contact in Hpos as [? _].
    - destruct (positions_fun _ _ _ _ _ _ Hpos Hpos') as [<- <-]. done. }
  split; [done|].
  intros key donor acceptor z Hpos -> ->. by eapply Hmain.
Qed.

Lemma hydrogen_bonds_no_intra_residue_witness :
  hydrogen_bonds sample_traj 3 20 pattern_contact = Ok sample_contacts ∧
  positions pattern_contact "ASP2_OD1-ASP2_N-H" "2" "2" ∧
  "ASP2_OD1-ASP2_N-H" ∉ columns sample_contacts.
Proof.
  assert (hydrogen_bonds sample_traj 3 20 pattern_contact = Ok sample_contacts) as H.
  { vm_compute. reflexivity. }
  assert (positions pattern_contact "ASP2_OD1-ASP2_N-H" "2" "2") as Hp.
  { exists ["ASP"; "2"; "ASP"; "2"]. repeat split; vm_compute; reflexivity. }
  split; [exact H|]. split; [exact Hp|].
  exact (proj1 (hydrogen_bonds_no_intra_residue sample_traj 3 20 sample_contacts H)
           "ASP2_OD1-ASP2_N-H" "2" Hp).
Defined.

(** C8.  The columns of the table the extractor returns are the frame-index
    column followed by the retained contacts, in increasing order of donor
    position, then of acceptor position, both read as integers, then of
    name. *)
Theorem hydrogen_bonds_column_order traj dist_thr occupancy_thr df :
  hydrogen_bonds traj dist_thr occupancy_thr pattern_contact = Ok df →
  ∃ contacts,
    columns df = "frames" :: contacts ∧
    StronglySorted (contact_le pattern_contact) contacts ∧
    (∀ key, key ∈ contacts ↔
            retained traj dist_thr occupancy_thr pattern_contact key) ∧
    NoDup contacts.
Proof.
  intros (contacts & Hcols & Hsorted & [_ Hnd]%NoDup_cons & Hret)%hydrogen_bonds_columns.
  by exists contacts.
Qed.

Lemma hydrogen_bonds_column_order_witness :
  hydrogen_bonds sample_traj 3 20 pattern_contact = Ok sample_contacts ∧
  ∃ contacts,
    columns sample_contacts = "frames" :: contacts ∧
    StronglySorted (contact_le pattern_contact) contacts ∧
    (∀ key, key ∈ contacts ↔ retained sample_traj 3 20 pattern_contact key) ∧
    NoDup contacts.
Proof.
  assert (hydrogen_bonds sample_traj 3 20 pattern_contact = Ok sample_contacts) as H.
  { vm_compute. reflexivity. }
  split; [exact H|].
  exact (hydrogen_bonds_column_order sample_traj 3 20 sample_contacts H).
Defined.

(** ** contacts_csv *)

Section contacts_csv.
Context (mean median : list float → result float) (round2 : float → float).
Context (pattern : Re.regex).

Lemma data_append_keys k v data data' :
  data_append k v data = Ok data' → dict_keys data' = dict_keys data.
Proof.
  unfold data_append, dict_append.
  destruct (dict_get k data) as [l|] eqn:Hget; simpl; [|done].
  intros [= <-]. rewrite dict_keys_set, decide_True; [done|].
  clear -Hget. induction data as [|[k' l'] data IH]; simpl in *; [done|].
  case_decide; [subst; apply list_elem_of_here|].
  by apply list_elem_of_further, IH.
Qed.

Lemma data_append_missing k v data :
  k ∉ dict_keys data → data_append k v data = Raise (KeyError k).
Proof.
  intros Hk. unfold data_append, dict_append.
  assert (dict_get k data = None) as ->; [|done].
  induction data as [|[k' l'] data IH]; simpl in *; [done|].
  apply not_elem_of_cons in Hk as [? ?]. rewrite decide_False by done. by apply IH.
Qed.

Lemma contacts_csv_step_keys df df_half data contact_id data' :
  contacts_csv_step mean median round2 df df_half pattern data contact_id = Ok data' →
  dict_keys data' = dict_keys data.
Proof.
  unfold contacts_csv_step.
  repeat first
    [ progress simpl
    | match goal with
      | |- context [data_append ?k ?v ?d] =>
          let H := fresh "Happ" in
          destruct (data_append k v d) eqn:H; [apply data_append_keys in H|]
      | |- context [match Re.search ?p ?c with _ => _ end] => destruct (Re.search p c)
      | |- context [Re.group ?m ?i] => destruct (Re.group m i)
      | |- context [of_option ?e ?o] => destruct o
      | |- context [mean ?l] => destruct (mean l)
      | |- context [median ?l] => destruct (median l)
      end ];
    try done.
  all: intros [= <-]; congruence.
Qed.

(** With a column name the pattern does not match, the step meant to record
    ["not found"] raises on the key ["acceptor_residue"], which the table
    does not have. *)
Lemma contacts_csv_step_unmatched df df_half data contact_id :
  Re.search pattern contact_id = None →
  "acceptor_residue" ∉ dict_keys data →
  ∃ e, contacts_csv_step mean median round2 df df_half pattern data contact_id = Raise e.
Proof.
  intros Hs Hk. unfold contacts_csv_step. rewrite Hs.
  destruct (data_append "contact" _ data) as [d1|] eqn:H1; simpl; [|by eexists].
  destruct (data_append "donor position" _ d1) as [d2|] eqn:H2; simpl; [|by eexists].
  destruct (data_append "donor residue" _ d2) as [d3|] eqn:H3; simpl; [|by eexists].
  destruct (data_append "acceptor position" _ d3) as [d4|] eqn:H4; simpl; [|by eexists].
  apply data_append_keys in H1, H2, H3, H4.
  rewrite data_append_missing by congruence. by eexists.
Qed.

Lemma contacts_csv_loop_unmatched df df_half contact_ids data :
  (∃ c, c ∈ contact_ids ∧ Re.search pattern c = None) →
  "acceptor_residue" ∉ dict_keys data →
  ∃ e, contacts_csv_loop mean median round2 df df_half pattern contact_ids data = Raise e.
Proof.
  intros (c & Hc & Hs). revert data.
  induction contact_ids as [|c' ids IH]; intros data Hk; [by apply elem_of_nil in Hc|].
  simpl. destruct (decide (c' = c)) as [->|Hne].
  - destruct (contacts_csv_step_unmatched df df_half data c Hs Hk) as [e ->]. by eexists.
  - apply elem_of_cons in Hc as [?|Hc]; [done|].
    destruct (contacts_csv_step _ _ _ _ _ _ data c') as [data'|e] eqn:Hstep; simpl;
      [|by eexists].
    apply IH; [done|]. by rewrite (contacts_csv_step_keys _ _ _ _ _ Hstep).
Qed.

(** No statistics table is returned for a contact table with a column the
    pattern does not match. *)
Lemma contacts_csv_unmatched df :
  (∃ c, c ∈ drop 1 (columns df) ∧ Re.search pattern c = None) →
  ∃ e, contacts_csv mean median round2 df pattern = Raise e.
Proof.
  intros Hc. unfold contacts_csv. cbv zeta.
  apply contacts_csv_loop_unmatched; [done|].
  unfold dict_keys. simpl. rewrite !not_elem_of_cons. repeat split; try done.
  apply not_elem_of_nil.
Qed.

End contacts_csv.

(** C2.  The statistics step does not go on after a column name that fails
    the pattern: on [unmatched_contacts] it raises [KeyError] on the key
    ["acceptor_residue"] (the table has ["acceptor residue"]) after filling
    the first three ["not found"] fields, and neither computes nor writes the
    statistics of that row, where the specification asks for four
    ["not found"] fields and a completed row. *)
Theorem contacts_csv_unmatched_column
    (mean median : list float → result float) (round2 : float → float) :
  Re.search pattern_contact "DA5_N1-DT20_N3-H3" = None ∧
  contacts_csv mean median round2 unmatched_contacts pattern_contact
  = Raise (KeyError "acceptor_residue").
Proof. split; vm_compute; reflexivity. Qed.

(** ** reduce_contacts_dataframe *)

(** C6.  The count attached to a row is not always the size of its group:
    on [interleaved_stats] the pair of residues 7 and 12, one row, is returned with
    ["number contacts"] 2, and the pair of residues 5 and 10, two rows, with 1.
    The counts are listed in the order the groups are first met and laid
    over the kept rows in table order, which differ when the least row of a
    group comes after the first row of a later group. *)
Theorem reduce_contacts_dataframe_miscounts :
  reduce_table interleaved_stats Half_mean None
  = Ok [StatsRow 1 "SER7_OG-THR12_N-H" (CInt 7) "SER" (CInt 12) "THR"
          (25 # 10) (25 # 10) (25 # 10) (25 # 10) (Some 2);
        StatsRow 2 "ALA5_N-GLY10_O-H" (CInt 5) "ALA" (CInt 10) "GLY"
          (21 # 10) (21 # 10) (21 # 10) (21 # 10) (Some 1)].
Proof. vm_compute. reflexivity. Qed.

Lemma mapM_Ok {A B : Type} (f : A → result B) (l : list A) (k : list B) :
  mapM f l = Ok k → Forall2 (λ x y, f x = Ok y) l k.
Proof.
  revert k. induction l as [|x l IH]; intros k; simpl.
  - intros [= <-]. constructor.
  - destruct (f x) as [y|] eqn:Hx; simpl; [|done].
    destruct (mapM f l) as [k'|]; simpl; [|done].
    intros [= <-]. constructor; [done|]. by apply IH.
Qed.

Lemma mapM_Ok_2 {A B : Type} (f : A → result B) (l : list A) (k : list B) :
  Forall2 (λ x y, f x = Ok y) l k → mapM f l = Ok k.
Proof.
  induction 1 as [|x y l k Hx _ IH]; simpl; [done|]. by rewrite Hx, IH.
Qed.

Lemma numeric_rows_cell_row (rows : list (stats_row Z)) :
  numeric_rows (cell_row <$> rows) = Ok rows.
Proof.
  apply mapM_Ok_2. apply Forall2_fmap_l, Forall_Forall2_diag, Forall_forall.
  by intros [] _.
Qed.

Lemma numeric_rows_Ok table rows :
  numeric_rows table = Ok rows → table = cell_row <$> rows.
Proof.
  intros H%mapM_Ok. induction H as [|r r' table rows Hr _ IH]; [done|].
  csimpl. f_equal; [|done]. clear IH. revert Hr. unfold numeric_row.
  destruct r as [? ? [?|d] ? [?|a] ? ? ? ? ? ?]; simpl; try done.
  by intros [= <-].
Qed.

Lemma restrict_to_roi_Some df roi (σ : store) table rows :
  σ !! df = Some table → numeric_rows table = Ok rows →
  restrict_to_roi df (Some roi) σ
  = (<[fresh (dom σ) := cell_row <$> select_roi roi rows]> σ, Ok (fresh (dom σ))).
Proof.
  intros Hdf Hrows. unfold restrict_to_roi, mbind, M_bind, read, lift, alloc.
  rewrite Hdf. simpl. by rewrite Hrows.
Qed.

(** C7.  Without ROI limits the filtering step returns the table object it
    was given and leaves the store as it is; with limits it builds a table
    of exactly the rows whose donor position lies between [roi.min] and
    [roi.max], both ends included, in their order. *)
Theorem restrict_to_roi_spec :
  (∀ df σ, restrict_to_roi df None σ = (σ, Ok df)) ∧
  (∀ df roi σ table rows,
     σ !! df = Some table → numeric_rows table = Ok rows →
     ∃ df', restrict_to_roi df (Some roi) σ
            = (<[df' := cell_row <$> select_roi roi rows]> σ, Ok df') ∧
            σ !! df' = None) ∧
  (∀ roi rows r,
     r ∈ select_roi roi rows ↔
     r ∈ rows ∧ (b_min roi ≤ donor_position r ≤ b_max roi)%Z) ∧
  (∀ roi rows, select_roi roi rows `sublist_of` rows).
Proof.
  split; [done|]. split; [|split].
  - intros df roi σ table rows Hdf Hrows. exists (fresh (dom σ)). split.
    + by apply (restrict_to_roi_Some _ _ _ table).
    + apply not_elem_of_dom, is_fresh.
  - intros roi rows r. unfold select_roi. rewrite list_elem_of_filter.
    unfold between. naive_solver.
  - intros roi rows. apply sublist_filter.
Qed.

(** ** The caller's table *)

Lemma coerced_rows table donor acceptor :
  Forall2 (λ r z, to_numeric_cell (donor_position r) = Ok z) table donor →
  Forall2 (λ r z, to_numeric_cell (acceptor_position r) = Ok z)
    (zip_with set_donor_position donor table) acceptor →
  Forall2 coerced table
    (zip_with set_acceptor_position acceptor (zip_with set_donor_position donor table)).
Proof.
  intros Hd. revert acceptor.
  induction Hd as [|r z table donor Hz _ IH]; intros acceptor Ha; simpl in *.
  - inversion Ha; subst. constructor.
  - inversion Ha as [|r' a ? acceptor' Hr' Ha']; subst. simpl.
    constructor; [|by apply IH]. exists z, a. by destruct r.
Qed.

Lemma coerce_positions_Ok df σ σ1 u :
  coerce_positions df σ = (σ1, Ok u) →
  ∃ table table',
    σ !! df = Some table ∧ Forall2 coerced table table' ∧ σ1 = <[df := table']> σ.
Proof.
  unfold coerce_positions, mbind, M_bind, read, lift, write.
  destruct (σ !! df) as [table|] eqn:Hdf; simpl; [|done].
  destruct (to_numeric (donor_position <$> table)) as [donor|] eqn:Hd; simpl; [|done].
  rewrite lookup_insert_eq. simpl.
  destruct (to_numeric (acceptor_position <$> _)) as [acceptor|] eqn:Ha; simpl; [|done].
  intros [= <- _]. exists table. eexists. split; [done|]. split.
  - apply coerced_rows.
    + apply mapM_Ok in Hd. by apply Forall2_fmap_l in Hd.
    + apply mapM_Ok in Ha. by apply Forall2_fmap_l in Ha.
  - by rewrite insert_insert_eq.
Qed.

(** The caller's table after a run of the aggregator that returns. *)
Lemma reduce_contacts_dataframe_store df dist_col limits_roi σ σ' out :
  reduce_contacts_dataframe df dist_col limits_roi σ = (σ', Ok out) →
  ∃ table table',
    σ !! df = Some table ∧ Forall2 coerced table table' ∧
    σ' !! df = Some table' ∧ out ≠ df ∧ σ !! out = None ∧
    ∀ l, is_Some (σ !! l) → l ≠ df → σ' !! l = σ !! l.
Proof.
  unfold reduce_contacts_dataframe. unfold mbind at 1. unfold M_bind at 1.
  destruct (coerce_positions df σ) as [σ1 [[]|]] eqn:Hc; [|done].
  apply coerce_positions_Ok in Hc as (table & table' & Hdf & Hco & ->).
  unfold mbind at 1. unfold M_bind at 1.
  destruct (restrict_to_roi df limits_roi _) as [σ2 [df1|]] eqn:Hr; [|done].
  assert (σ2 !! df = Some table' ∧
          (∀ l, is_Some (σ !! l) → l ≠ df → σ2 !! l = σ !! l) ∧
          dom σ ⊆ dom σ2) as (Hdf2 & Hothers & Hdom).
  { destruct limits_roi as [roi|]; simpl in Hr.
    - revert Hr. unfold mbind, M_bind, read, lift, alloc.
      rewrite lookup_insert_eq. simpl.
      destruct (numeric_rows table'); simpl; [|done].
      intros [= <- _].
      set (l1 := fresh (dom (<[df:=table']> σ))).
      assert (l1 ∉ dom (<[df:=table']> σ)) as Hl1 by apply is_fresh.
      rewrite dom_insert in Hl1.
      split; [|split].
      + rewrite lookup_insert_ne by set_solver. apply lookup_insert_eq.
      + intros l Hl Hne. rewrite lookup_insert_ne.
        * by rewrite lookup_insert_ne.
        * apply elem_of_dom in Hl. set_solver.
      + rewrite !dom_insert. set_solver.
    - injection Hr as <- <-. split; [apply lookup_insert_eq|]. split.
      + intros l _ Hne. by rewrite lookup_insert_ne.
      + rewrite dom_insert. set_solver. }
  unfold mbind, M_bind, read, lift, alloc, write, mret, M_ret.
  destruct (σ2 !! df1) as [rows1|]; simpl; [|done].
  destruct (numeric_rows rows1) as [rows|]; simpl; [|done].
  destruct (reduce_loop rows dist_col rows _) as [st|]; simpl; [|done].
  rewrite lookup_insert_eq. simpl.
  destruct (assign _ _ _) as [rows2|]; simpl; [|done].
  intros [= <- <-].
  assert (fresh (dom σ2) ∉ dom σ2) as Hfresh by apply is_fresh.
  exists table, table'. repeat split; try done.
  - rewrite !lookup_insert_ne; [done| |];
      intros Heq; apply Hfresh; rewrite Heq; apply elem_of_dom; by eexists.
  - intros Heq. apply Hfresh. rewrite Heq. apply elem_of_dom. by eexists.
  - apply not_elem_of_dom. set_solver.
  - intros l Hl Hne. rewrite !lookup_insert_ne; [by apply Hothers| |];
      intros Heq; apply Hfresh; apply Hdom; rewrite Heq; by apply elem_of_dom.
Qed.

(** C10.  A run of the aggregator, and so a run of the heat-map builder,
    leaves the table it was given with its two position columns numeric and
    every other column as it was; the result is another object, and the
    other tables of the store are untouched.  A later run on the same table
    therefore starts from numeric positions. *)
Theorem heat_map_contacts_coerces_in_place df σ table :
  σ !! df = Some table →
  (∀ dist_col limits_roi σ' out,
     reduce_contacts_dataframe df dist_col limits_roi σ = (σ', Ok out) →
     ∃ table',
       σ' !! df = Some table' ∧ Forall2 coerced table table' ∧ out ≠ df ∧
       ∀ l, is_Some (σ !! l) → l ≠ df → σ' !! l = σ !! l) ∧
  (∀ distances_col limits σ' hm,
     heat_map_contacts df distances_col limits σ = (σ', Ok hm) →
     ∃ table',
       σ' !! df = Some table' ∧ Forall2 coerced table table' ∧
       ∀ l, is_Some (σ !! l) → l ≠ df → σ' !! l = σ !! l).
Proof.
  intros Hdf. split.
  - intros dist_col limits_roi σ' out
      (t & table' & Ht & Hco & Hdf' & Hne & _ & Hothers)%reduce_contacts_dataframe_store.
    assert (t = table) as -> by congruence. by exists table'.
  - intros distances_col limits σ' hm. unfold heat_map_contacts.
    unfold mbind at 1. unfold M_bind at 1.
    destruct (reduce_contacts_dataframe _ _ _ _) as [σ1 [out|]] eqn:Hr; [|done].
    apply reduce_contacts_dataframe_store
      in Hr as (t & table' & Ht & Hco & Hdf' & Hne & _ & Hothers).
    assert (t = table) as -> by congruence.
    unfold mbind, M_bind, read, lift, mret, M_ret.
    destruct (σ1 !! out); simpl; [|done].
    destruct (numeric_rows _); simpl; [|done].
    destruct (get_df_distances_nb_contacts _ _ _) as [[sd sn]|]; simpl; [|done].
    intros [= <- _]. by exists table'.
Qed.

Lemma heat_map_contacts_coerces_in_place_witness :
  sample_store !! 1%positive = Some interleaved_stats ∧
  ∃ table',
    (reduce_contacts_dataframe 1%positive Half_mean None sample_store).1 !! 1%positive
    = Some table' ∧
    Forall2 coerced interleaved_stats table'.
Proof.
  assert (sample_store !! 1%positive = Some interleaved_stats) as Hdf.
  { vm_compute. reflexivity. }
  assert (reduce_contacts_dataframe 1%positive Half_mean None sample_store
          = ((reduce_contacts_dataframe 1%positive Half_mean None sample_store).1,
             Ok 2%positive)) as Hrun.
  { vm_compute. reflexivity. }
  split; [exact Hdf|].
  destruct (proj1 (heat_map_contacts_coerces_in_place 1%positive sample_store
                     interleaved_stats Hdf) Half_mean None _ _ Hrun)
    as (table' & H1 & H2 & _).
  exists table'. split; [exact H1|exact H2].
Defined.

(** ** get_df_distances_nb_contacts *)

Lemma append_new_elem x y l : y ∈ append_new x l ↔ y ∈ l ∨ y = x.
Proof.
  unfold append_new. case_decide; [naive_solver|].
  rewrite elem_of_app, list_elem_of_singleton. done.
Qed.

Lemma sorted_unique_elem column z : z ∈ sorted_unique column ↔ z ∈ column.
Proof. unfold sorted_unique. by rewrite merge_sort_Permutation, elem_of_remove_dups. Qed.

Section matrix.
Context (df : list (stats_row Z)) (dist_col : metric) (limits_mask : option bounds).

Lemma matrix_row_labels donor_position' acceptor_positions st st' :
  matrix_row df dist_col limits_mask donor_position' acceptor_positions st = Ok st' →
  donors st' = donors st ∧
  ∀ lbl, lbl ∈ acceptors st' ↔
         lbl ∈ acceptors st ∨
         ∃ p, p ∈ acceptor_positions ∧ acceptor_label limits_mask df p = Ok lbl.
Proof.
  revert st. induction acceptor_positions as [|p ps IH]; intros st; simpl.
  - intros [= <-]. split; [done|]. intros lbl. split; [by left|].
    intros [?|(p & []%elem_of_nil & _)]. done.
  - destruct (matrix_cell _ _ _ _ st p) as [st1|] eqn:Hcell; simpl; [|done].
    intros [Hd Ha]%IH.
    revert Hcell. unfold matrix_cell.
    destruct (acceptor_label limits_mask df p) as [acceptor|] eqn:Hlbl; simpl; [|done].
    destruct (dict_append _ _ _ _) as [ds|]; simpl; [|done].
    case_decide; simpl; [|done].
    destruct (dict_append _ _ _ _) as [ns|]; simpl; [|done].
    intros [= <-]. simpl in *. split; [done|].
    intros lbl. rewrite Ha, append_new_elem. split.
    + intros [[?| ->]|(p' & ? & ?)]; [by left| |].
      * right. exists p. split; [apply list_elem_of_here|done].
      * right. exists p'. split; [by apply list_elem_of_further|done].
    + intros [?|(p' & [->|?]%elem_of_cons & Hp')]; [by left;left| |].
      * left. right. congruence.
      * right. by exists p'.
Qed.

Lemma matrix_rows_labels donor_positions acceptor_positions st st' :
  matrix_rows df dist_col limits_mask donor_positions acceptor_positions st = Ok st' →
  (∀ lbl, lbl ∈ donors st' ↔
          lbl ∈ donors st ∨
          ∃ p, p ∈ donor_positions ∧ donor_label limits_mask df p = Ok lbl) ∧
  (∀ lbl, lbl ∈ acceptors st' ↔
          lbl ∈ acceptors st ∨
          (donor_positions ≠ [] ∧
           ∃ p, p ∈ acceptor_positions ∧ acceptor_label limits_mask df p = Ok lbl)).
Proof.
  revert st. induction donor_positions as [|p ps IH]; intros st; simpl.
  - intros [= <-]. split; intros lbl; (split; [by left|]).
    + intros [?|(p & []%elem_of_nil & _)]. done.
    + by intros [?|[? _]].
  - destruct (donor_label limits_mask df p) as [donor|] eqn:Hlbl; simpl; [|done].
    destruct (matrix_row _ _ _ _ _ _) as [st1|] eqn:Hrow; simpl; [|done].
    apply matrix_row_labels in Hrow as [Hd1 Ha1]. simpl in Hd1, Ha1.
    intros [Hd Ha]%IH. split; intros lbl.
    + rewrite Hd, Hd1, append_new_elem. split.
      * intros [[?| ->]|(p' & ? & ?)]; [by left| |].
        -- right. exists p. split; [apply list_elem_of_here|done].
        -- right. exists p'. split; [by apply list_elem_of_further|done].
      * intros [?|(p' & [->|?]%elem_of_cons & Hp')]; [by left;left| |].
        -- left. right. congruence.
        -- right. by exists p'.
    + rewrite Ha, Ha1. split.
      * intros [[?|?]|[_ ?]]; [by left|by right..].
      * intros [?|[_ ?]]; [by left;left|by left;right].
Qed.

Lemma labelled_matrix_Ok {V : Type} (d : dict Z (list (option V))) ds acs m :
  labelled_matrix d ds acs = Ok m → m_index m = ds ∧ m_columns m = acs.
Proof. unfold labelled_matrix. repeat case_decide; try done. by intros [= <-]. Qed.

Lemma residue_at_Ok position_of residue_of position residue :
  residue_at position_of residue_of df position = Ok residue ↔
  ∃ r, head (filter (λ r, position_of r = position) df) = Some r ∧
       residue = residue_of r.
Proof.
  unfold residue_at. destruct (head _) as [r|]; simpl; [|naive_solver].
  split; [intros [= <-]; eauto|]. by intros (r' & [= <-] & ->).
Qed.

Lemma donor_label_Ok p lbl :
  donor_label limits_mask df p = Ok lbl ↔
  ∃ r, head (filter (λ r, donor_position r = p) df) = Some r ∧
       lbl = label_text limits_mask p (donor_residue r).
Proof.
  unfold donor_label, label_text, label_position.
  destruct (residue_at _ _ _ _) as [residue|] eqn:Hres; simpl.
  - apply residue_at_Ok in Hres as (r & Hr & ->). split.
    + intros [= <-]. exists r. by destruct limits_mask.
    + intros (r' & Hr' & ->). assert (r' = r) as -> by congruence.
      by destruct limits_mask.
  - split; [done|]. intros (r & Hr & _).
    assert (residue_at donor_position donor_residue df p = Ok (donor_residue r)) as H.
    { apply residue_at_Ok. eauto. }
    congruence.
Qed.

Lemma acceptor_label_Ok p lbl :
  acceptor_label limits_mask df p = Ok lbl ↔
  ∃ r, head (filter (λ r, acceptor_position r = p) df) = Some r ∧
       lbl = label_text limits_mask p (acceptor_residue r).
Proof.
  unfold acceptor_label, label_text, label_position.
  destruct (residue_at _ _ _ _) as [residue|] eqn:Hres; simpl.
  - apply residue_at_Ok in Hres as (r & Hr & ->). split.
    + intros [= <-]. exists r. by destruct limits_mask.
    + intros (r' & Hr' & ->). assert (r' = r) as -> by congruence.
      by destruct limits_mask.
  - split; [done|]. intros (r & Hr & _).
    assert (residue_at acceptor_position acceptor_residue df p
            = Ok (acceptor_residue r)) as H.
    { apply residue_at_Ok. eauto. }
    congruence.
Qed.

End matrix.

(** C9.  In the two matrices, which carry the same labels, the row labels
    are exactly the labels of the donor positions of the table and the
    column labels those of its acceptor positions; the label of a position
    is its adjusted position followed by the residue name of the first row
    at that position, and the adjusted position is the raw one plus
    [mask.min - 1] under a mask and the raw one without.  With
    [mask.min = 682] the raw position 1 is labelled [682<residue>]. *)
Theorem heat_map_labels df dist_col limits_mask sd sn :
  get_df_distances_nb_contacts df dist_col limits_mask = Ok (sd, sn) →
  (m_index sn = m_index sd ∧ m_columns sn = m_columns sd) ∧
  (∀ lbl, lbl ∈ m_index sd ↔
     ∃ p r, p ∈ donor_position <$> df ∧
            head (filter (λ r, donor_position r = p) df) = Some r ∧
            lbl = label_text limits_mask p (donor_residue r)) ∧
  (∀ lbl, lbl ∈ m_columns sd ↔
     ∃ p r, p ∈ acceptor_position <$> df ∧
            head (filter (λ r, acceptor_position r = p) df) = Some r ∧
            lbl = label_text limits_mask p (acceptor_residue r)) ∧
  (∀ m p residue,
     label_text (Some m) p residue = pretty (p + (b_min m - 1))%Z +:+ residue ∧
     label_text None p residue = pretty p +:+ residue) ∧
  (∀ m residue, b_min m = 682%Z → label_text (Some m) 1 residue = "682" +:+ residue).
Proof.
  unfold get_df_distances_nb_contacts. cbv zeta.
  destruct (matrix_rows _ _ _ _ _ _) as [st|] eqn:Hrows; simpl; [|done].
  destruct (labelled_matrix (distances st) _ _) as [md|] eqn:Hmd; simpl; [|done].
  destruct (labelled_matrix (nb_contacts st) _ _) as [mn|] eqn:Hmn; simpl; [|done].
  intros [= <- <-].
  apply labelled_matrix_Ok in Hmd as [Hdi Hdc], Hmn as [Hni Hnc].
  apply matrix_rows_labels in Hrows as [Hd Ha]. simpl in Hd, Ha.
  split; [split; congruence|]. split; [|split; [|split]].
  - intros lbl. rewrite Hdi, Hd. split.
    + intros [[]%elem_of_nil|(p & Hp & (r & ? & ?)%donor_label_Ok)].
      apply (proj1 (sorted_unique_elem _ _)) in Hp. by exists p, r.
    + intros (p & r & Hp & Hr & ->). right. exists p.
      split; [by apply sorted_unique_elem|]. apply donor_label_Ok. eauto.
  - intros lbl. rewrite Hdc, Ha. split.
    + intros [[]%elem_of_nil|(_ & p & Hp & (r & ? & ?)%acceptor_label_Ok)].
      apply (proj1 (sorted_unique_elem _ _)) in Hp. by exists p, r.
    + intros (p & r & Hp & Hr & ->). right. split.
      * apply list_elem_of_fmap in Hp as (r' & _ & Hr').
        intros Hnil. assert (donor_position r' ∈ sorted_unique (donor_position <$> df)) as Hin.
        { apply sorted_unique_elem. by apply list_elem_of_fmap_2. }
        rewrite Hnil in Hin. by apply elem_of_nil in Hin.
      * exists p. split; [by apply sorted_unique_elem|]. apply acceptor_label_Ok. eauto.
  - intros m p residue. unfold label_text. split; [|done].
    by replace (p + (b_min m - 1))%Z with (p + b_min m - 1)%Z by lia.
  - intros m residue Hm. unfold label_text. rewrite Hm. done.
Qed.

Lemma heat_map_labels_witness :
  get_df_distances_nb_contacts sample_reduced Half_mean (Some (Bounds 682 850))
  = Ok (sample_distances, sample_counts) ∧
  (m_index sample_counts = m_index sample_distances ∧
   m_columns sample_counts = m_columns sample_distances) ∧
  ("682MET" ∈ m_index sample_distances ↔
   ∃ p r, p ∈ donor_position <$> sample_reduced ∧
          head (filter (λ r, donor_position r = p) sample_reduced) = Some r ∧
          "682MET" = label_text (Some (Bounds 682 850)) p (donor_residue r)).
Proof.
  assert (get_df_distances_nb_contacts sample_reduced Half_mean (Some (Bounds 682 850))
          = Ok (sample_distances, sample_counts)) as H.
  { vm_compute. reflexivity. }
  split; [exact H|].
  destruct (heat_map_labels sample_reduced Half_mean (Some (Bounds 682 850))
              sample_distances sample_counts H) as (Hsame & Hrows & _).
  split; [exact Hsame|]. exact (Hrows "682MET").
Defined.

(** ** When the extractor returns *)

Lemma dict_get_keys {K V : Type} `{EqDecision K} (k : K) (d : dict K V) :
  k ∈ dict_keys d → is_Some (dict_get k d).
Proof.
  unfold dict_keys. induction d as [|[k' v] d IH]; csimpl; [by intros ?%elem_of_nil|].
  intros [->|?]%elem_of_cons.
  - rewrite decide_True by done. by eexists.
  - case_decide; [by eexists|by apply IH].
Qed.

Lemma dict_set_values {K V : Type} `{EqDecision K} (P : V → Prop) (k : K) (v : V)
    (d : dict K V) :
  P v → Forall (λ kv, P kv.2) d → Forall (λ kv, P kv.2) (dict_set k v d).
Proof.
  intros Hv. induction 1 as [|[k' v'] d Hk' Hd IH]; simpl.
  - by repeat constructor.
  - case_decide; constructor; done.
Qed.

Lemma select_columns_Ok df names :
  (∀ k, k ∈ names → k ∈ columns df) → ∃ df', select_columns df names = Ok df'.
Proof.
  induction names as [|k names IH]; intros Hin; simpl; [by eexists|].
  destruct (dict_get_keys k df) as [c ->]; [apply Hin, list_elem_of_here|]. simpl.
  destruct IH as [rest ->]; [|by eexists].
  intros k' ?. by apply Hin, list_elem_of_further.
Qed.

Lemma hydrogen_bonds_loop_Ok dist dist_thr occupancy_thr n ks st :
  (∀ j key, filter (λ key, key ≠ "total_solute_hbonds") ks !! j = Some key →
            ∃ d, dist !! (idx st + j) = Some d ∧ length d = n) →
  0 < n →
  Forall (λ kc, series_len kc.2 = n) (data_hydrogen_bonds st) →
  ∃ st', hydrogen_bonds_loop dist dist_thr occupancy_thr pattern_contact ks st = Ok st' ∧
         Forall (λ kc, series_len kc.2 = n) (data_hydrogen_bonds st').
Proof.
  intros Hdist Hn. revert st Hdist.
  induction ks as [|k ks IH]; intros st Hdist Hlen; simpl; [by eexists|].
  assert (∃ st1, hydrogen_bonds_step dist dist_thr occupancy_thr pattern_contact st k
                 = Ok st1 ∧
                 Forall (λ kc, series_len kc.2 = n) (data_hydrogen_bonds st1) ∧
                 idx st1 = if decide (k ≠ "total_solute_hbonds") then S (idx st)
                           else idx st) as (st1 & -> & Hlen1 & Hidx1).
  { unfold hydrogen_bonds_step. case_decide as Hk; [|by eexists].
    destruct (Re.search pattern_contact k) as [m|] eqn:Hm; simpl; [|by eexists].
    apply pattern_contact_groups in Hm as (g1 & g2 & g3 & g4 & -> & _ & _).
    unfold Re.group. simpl.
    case_decide; simpl; [by eexists|].
    destruct (Hdist 0 k) as (d & Hd & Hdn).
    { by rewrite filter_cons_True. }
    rewrite Nat.add_0_r in Hd. rewrite Hd. simpl.
    rewrite pct_contacts_nonempty by (intros ->; simpl in Hdn; lia). simpl.
    destruct (PrimFloat.leb _ _); (eexists; split; [done|]); simpl; split; try done.
    by apply (dict_set_values (λ c, series_len c = n)). }
  simpl. apply IH; [|done].
  intros j key Hj. rewrite Hidx1. case_decide as Hk.
  - destruct (Hdist (S j) key) as (d & Hd & ?).
    { by rewrite filter_cons_True. }
    exists d. split; [|done]. by replace (S (idx st) + j) with (idx st + S j) by lia.
  - apply (Hdist j key). rewrite filter_cons_False; [exact Hj|naive_solver].
Qed.

(** X9.  With one distance row per candidate, as long as the trajectory and
    with at least one frame, the extractor returns a table or stops with
    status 0 because no contact is left. *)
Lemma hydrogen_bonds_returns traj dist_thr occupancy_thr :
  (∀ i key, candidates traj !! i = Some key →
            ∃ d, dist traj !! i = Some d ∧ length d = n_frames traj) →
  0 < n_frames traj →
  (∃ df, hydrogen_bonds traj dist_thr occupancy_thr pattern_contact = Ok df) ∨
  hydrogen_bonds traj dist_thr occupancy_thr pattern_contact = Raise (SystemExit 0).
Proof.
  intros Hdist Hn. unfold hydrogen_bonds. cbv zeta.
  destruct (hydrogen_bonds_loop_Ok (dist traj) dist_thr occupancy_thr (n_frames traj)
              (h_bonds traj) (HbState [("frames", Range (n_frames traj))] 0 0 0))
    as (st & Hloop & Hlen); [done|done|by repeat constructor|].
  rewrite Hloop. simpl. case_decide; [by right|left].
  apply hydrogen_bonds_loop_spec in Hloop as (_ & Hkeys & _ & Hhd).
  destruct (sort_contacts _ _) as [ordered|e] eqn:Hsort; simpl.
  - assert (pd_DataFrame (data_hydrogen_bonds st) = Ok (data_hydrogen_bonds st)) as ->.
    { unfold pd_DataFrame. destruct (data_hydrogen_bonds st) as [|[k c] rest]; [done|].
      apply Forall_cons in Hlen as [Hc Hrest]. simpl in Hc.
      rewrite decide_True; [done|]. by rewrite Hc. }
    simpl. apply select_columns_Ok. intros k Hk.
    apply sort_contacts_spec in Hsort as (sorted & -> & Hperm & _).
    unfold columns. apply elem_of_app in Hk as [Hk|Hk].
    + by apply list_elem_of_filter in Hk as [_ ?].
    + rewrite Hperm in Hk. by apply list_elem_of_filter in Hk as [_ ?].
  - exfalso. revert Hsort. unfold sort_contacts.
    destruct (sort_contacts_scan_Ok pattern_contact
                (dict_keys (data_hydrogen_bonds st)) ∅ []) as [[tmp ordered] ->]; [|done].
    apply Forall_forall. intros key [->%list_elem_of_singleton|(j & _ & Hp)]%Hkeys;
      [by left|right].
    destruct Hp as (_ & donor & acceptor & _ & Hpos & _).
    destruct (positions_contact _ _ _ Hpos) as (_ & ? & ?).
    destruct Hpos as (m & ? & ? & ?). by exists m, donor, acceptor.
Qed.

(** ** Groups and their least rows *)

Section first_min.
Context (dist_col : metric).

Local Abbreviation dist r := (distance dist_col r).

Lemma idxmin_from_first_min best rows :
  idxmin_from dist_col best rows = label (first_min_from dist_col best rows).
Proof.
  revert best. induction rows as [|r rows IH]; intros best; simpl; [done|].
  destruct (Qlt_le_dec _ _); apply IH.
Qed.

(** [first_min_from] returns a row of least distance, the first such. *)
Lemma first_min_from_split rows l1 l2 best :
  Forall (λ r, dist best < dist r)%Q l1 →
  Forall (λ r, dist best <= dist r)%Q l2 →
  ∃ l1' l2',
    l1 ++ best :: l2 ++ rows = l1' ++ first_min_from dist_col best rows :: l2' ∧
    Forall (λ r, dist (first_min_from dist_col best rows) < dist r)%Q l1' ∧
    Forall (λ r, dist (first_min_from dist_col best rows) <= dist r)%Q l2'.
Proof.
  revert l1 l2 best. induction rows as [|r rows IH]; intros l1 l2 best H1 H2; simpl.
  - exists l1, l2. by rewrite app_nil_r.
  - destruct (Qlt_le_dec (dist r) (dist best)) as [Hlt|Hle].
    + destruct (IH (l1 ++ best :: l2) [] r) as (l1' & l2' & Heq & ? & ?).
      * apply Forall_app. split; [|constructor; [done|]].
        -- eapply Forall_impl; [exact H1|]. intros x Hx. simpl in Hx.
           by eapply Qlt_trans.
        -- eapply Forall_impl; [exact H2|]. intros x Hx. simpl in Hx.
           by eapply Qlt_le_trans.
      * constructor.
      * exists l1', l2'. split; [|done]. rewrite <-Heq.
        by rewrite <-!app_assoc.
    + destruct (IH l1 (l2 ++ [r]) best) as (l1' & l2' & Heq & ? & ?); [done| |].
      * apply Forall_app. split; [done|]. by constructor.
      * exists l1', l2'. split; [|done]. rewrite <-Heq.
        by rewrite <-!app_assoc.
Qed.

Lemma block_min_split (b : block) :
  ∃ l1 l2,
    block_rows b = l1 ++ block_min dist_col b :: l2 ∧
    Forall (λ r, dist (block_min dist_col b) < dist r)%Q l1 ∧
    Forall (λ r, dist (block_min dist_col b) <= dist r)%Q l2.
Proof.
  destruct b as [r rows]. unfold block_rows, block_min. simpl.
  destruct (first_min_from_split rows [] [] r) as (l1 & l2 & Heq & ? & ?);
    [constructor..|]. by exists l1, l2.
Qed.

Lemma block_min_elem (b : block) : block_min dist_col b ∈ block_rows b.
Proof.
  destruct (block_min_split b) as (l1 & l2 & -> & _).
  apply elem_of_app. right. apply list_elem_of_here.
Qed.

Lemma block_min_least (b : block) r :
  r ∈ block_rows b → (dist (block_min dist_col b) <= dist r)%Q.
Proof.
  destruct (block_min_split b) as (l1 & l2 & -> & H1 & H2).
  rewrite Forall_forall in H1, H2.
  intros [?|[->|?]%elem_of_cons]%elem_of_app.
  - by apply Qlt_le_weak, H1.
  - apply Qle_refl.
  - by apply H2.
Qed.

End first_min.

(** ** The aggregator on a table that comes pair by pair *)

Section reduce_grouped.
Context (dist_col : metric).

(** The labels [reduce_step] marks for removal in a group. *)
Local Abbreviation removed b :=
  (filter (λ i, i ≠ label (block_min dist_col b)) (label <$> block_rows b)).
Local Abbreviation key b := (donor_acceptor b.1).

Lemma result_bind_Ok {A B : Type} (a : A) (k : A → result B) :
  (x ← Ok a; k x) = k a.
Proof. done. Qed.

Lemma reduce_loop_app df l1 l2 st :
  reduce_loop df dist_col (l1 ++ l2) st
  = (st1 ← reduce_loop df dist_col l1 st; reduce_loop df dist_col l2 st1).
Proof.
  revert st. induction l1 as [|r l1 IH]; intros st; simpl; [done|].
  destruct (reduce_step df dist_col st r); simpl; [apply IH|done].
Qed.

Lemma reduce_loop_seen df l st :
  (∀ r, r ∈ l → donor_acceptor r ∈ donors_acceptors st) →
  reduce_loop df dist_col l st = Ok st.
Proof.
  induction l as [|r l IH]; intros Hl; simpl; [done|].
  unfold reduce_step. rewrite decide_True by apply Hl, list_elem_of_here.
  simpl. apply IH. intros r' ?. by apply Hl, list_elem_of_further.
Qed.

Lemma reduce_loop_block df (b : block) st :
  filter (same_pair b.1) df = block_rows b →
  (∀ r, r ∈ block_rows b → donor_acceptor r = key b) →
  key b ∉ donors_acceptors st →
  reduce_loop df dist_col (block_rows b) st
  = Ok (ReduceState (donors_acceptors st ++ [key b])
          (idx_to_remove st ++ removed b)
          (donor_acceptor_nb_contacts st ++ [length (block_rows b)])).
Proof.
  intros Hdf Hkey Hnew. unfold block_rows at 1. simpl.
  unfold reduce_step. rewrite decide_False by done. rewrite Hdf.
  unfold block_rows at 1. simpl. rewrite idxmin_from_first_min.
  apply reduce_loop_seen. intros r Hr. simpl.
  apply elem_of_app. right. apply list_elem_of_singleton.
  apply Hkey. by apply list_elem_of_further.
Qed.

Lemma filter_bind_nil {A B : Type} (P : B → Prop) `{∀ y, Decision (P y)}
    (f : A → list B) (l : list A) :
  (∀ x y, x ∈ l → y ∈ f x → ¬ P y) → filter P (l ≫= f) = [].
Proof.
  intros Hl. apply filter_none. intros y (x & Hy & Hx)%list_elem_of_bind. by eapply Hl.
Qed.

Section grouped.
Context (rows : list (stats_row Z)) (blocks : list block).
Context (Hgrouped : grouped rows blocks).

Lemma grouped_filter i b :
  blocks !! i = Some b → filter (same_pair b.1) rows = block_rows b.
Proof using Hgrouped.
  intros Hi. rewrite (grouped_rows _ _ Hgrouped).
  rewrite <-(take_drop_middle _ _ _ Hi) at 1.
  rewrite bind_app, bind_cons, !filter_app.
  assert (b.1 ∈ block_rows b) as Hb1 by apply list_elem_of_here.
  rewrite filter_bind_nil, (filter_all _ (block_rows b)), filter_bind_nil.
  - by rewrite app_nil_r.
  - intros b' r (j & Hj)%list_elem_of_lookup Hr.
    rewrite lookup_drop in Hj.
    destruct (grouped_apart _ _ Hgrouped i (S i + j) b b' b.1 r) as [Hn _];
      [done|done|lia|done|done|]. done.
  - intros r Hr.
    apply (grouped_same _ _ Hgrouped b); [by eapply list_elem_of_lookup_2|done|done].
  - intros b' r (j & Hj)%list_elem_of_lookup Hr.
    apply lookup_take_Some in Hj as [Hj Hlt].
    destruct (grouped_apart _ _ Hgrouped i j b b' b.1 r) as [Hn _];
      [done|done|lia|done|done|]. done.
Qed.

Lemma reduce_loop_blocks bs pre st :
  blocks = pre ++ bs →
  donors_acceptors st = (λ b, key b) <$> pre →
  reduce_loop rows dist_col (bs ≫= block_rows) st
  = Ok (ReduceState (donors_acceptors st ++ ((λ b, key b) <$> bs))
          (idx_to_remove st ++ (bs ≫= λ b, removed b))
          (donor_acceptor_nb_contacts st ++ ((λ b, length (block_rows b)) <$> bs))).
Proof using Hgrouped.
  revert pre st. induction bs as [|b bs IH]; intros pre st Hblocks Hst.
  - simpl. rewrite !app_nil_r. by destruct st.
  - rewrite bind_cons, reduce_loop_app.
    assert (blocks !! length pre = Some b) as Hb.
    { rewrite Hblocks. by rewrite list_lookup_middle. }
    rewrite reduce_loop_block.
    + rewrite result_bind_Ok, (IH (pre ++ [b])).
      * cbn [donors_acceptors idx_to_remove donor_acceptor_nb_contacts].
        rewrite bind_cons, !fmap_cons. by rewrite <-!app_assoc.
      * by rewrite <-app_assoc.
      * cbn [donors_acceptors]. by rewrite Hst, fmap_app.
    + by eapply grouped_filter.
    + intros r Hr.
      apply (grouped_same _ _ Hgrouped b); [by eapply list_elem_of_lookup_2|done|].
      apply list_elem_of_here.
    + rewrite Hst. intros (b' & Hkey & (j & Hj)%list_elem_of_lookup)%list_elem_of_fmap.
      assert (blocks !! j = Some b') as Hj'.
      { rewrite Hblocks. by apply lookup_app_l_Some. }
      apply lookup_lt_Some in Hj.
      destruct (grouped_apart _ _ Hgrouped (length pre) j b b' b.1 b'.1) as [_ Hne];
        [done|done|lia|apply list_elem_of_here..|]. done.
Qed.

End grouped.

Lemma filter_label_unique (l : list (stats_row Z)) m :
  NoDup (label <$> l) → m ∈ l → filter (λ r, label r = label m) l = [m].
Proof.
  induction l as [|r l IH]; [by intros _ ?%elem_of_nil|].
  rewrite fmap_cons. intros [Hr Hnd]%NoDup_cons [->|Hm]%elem_of_cons.
  - rewrite filter_cons_True by done. f_equal. apply filter_none.
    intros r' Hr' Heq. apply Hr. rewrite <-Heq. by apply list_elem_of_fmap_2.
  - rewrite filter_cons_False; [by apply IH|].
    intros Heq. apply Hr. rewrite Heq. by apply list_elem_of_fmap_2.
Qed.

Lemma filter_ext_elem {A : Type} (P Q : A → Prop) `{∀ x, Decision (P x)}
    `{∀ x, Decision (Q x)} (l : list A) :
  (∀ x, x ∈ l → P x ↔ Q x) → filter P l = filter Q l.
Proof.
  induction l as [|x l IH]; intros Hl; [done|].
  rewrite !filter_cons.
  destruct (decide (P x)) as [HP|HP], (decide (Q x)) as [HQ|HQ].
  - f_equal. apply IH. intros y ?. by apply Hl, list_elem_of_further.
  - destruct HQ. by apply (Hl x), HP; apply list_elem_of_here.
  - destruct HP. by apply (Hl x), HQ; apply list_elem_of_here.
  - apply IH. intros y ?. by apply Hl, list_elem_of_further.
Qed.

(** Dropping the marked labels leaves the least row of each group. *)
Lemma drop_labels_blocks R0 (bs : list block) :
  NoDup (label <$> (bs ≫= block_rows)) →
  (∀ r, r ∈ bs ≫= block_rows → label r ∉ R0) →
  drop_labels (R0 ++ (bs ≫= λ b, removed b)) (bs ≫= block_rows)
  = block_min dist_col <$> bs.
Proof.
  revert R0. induction bs as [|b bs IH]; intros R0 Hnd HR0; [done|].
  rewrite !bind_cons in *. rewrite fmap_app in Hnd.
  apply NoDup_app in Hnd as (Hb & Hdisj & Hrest).
  unfold drop_labels in *. rewrite filter_app, fmap_cons.
  change (block_min dist_col b :: (block_min dist_col <$> bs))
    with ([block_min dist_col b] ++ (block_min dist_col <$> bs)).
  f_equal.
  - rewrite <-(filter_label_unique (block_rows b) (block_min dist_col b));
      [|done|apply block_min_elem].
    apply filter_ext_elem. intros r Hr.
    rewrite !not_elem_of_app, list_elem_of_filter. split.
    + intros (_ & Hrm & _). destruct (decide (label r = label (block_min dist_col b)));
        [done|]. destruct Hrm. split; [done|]. by apply list_elem_of_fmap_2.
    + intros Heq. split; [|split].
      * apply HR0, elem_of_app. by left.
      * by intros [? _].
      * intros (b' & (_ & Hin)%list_elem_of_filter & Hb')%list_elem_of_bind.
        apply (Hdisj (label r)); [by apply list_elem_of_fmap_2|].
        apply list_elem_of_fmap in Hin as (r' & -> & Hr').
        apply list_elem_of_fmap_2, list_elem_of_bind. eauto.
  - rewrite app_assoc. apply IH; [done|].
    intros r Hr. rewrite not_elem_of_app. split.
    + apply HR0, elem_of_app. by right.
    + intros (_ & Hin)%list_elem_of_filter.
      apply (Hdisj (label r)); [done|]. by apply list_elem_of_fmap_2.
Qed.

Lemma assign_number_contacts (bs : list block) :
  assign set_number_contacts ((λ b, length (block_rows b)) <$> bs)
    (cell_row <$> (block_min dist_col <$> bs))
  = Ok (cell_row <$> (block_reduced dist_col <$> bs)).
Proof.
  unfold assign. rewrite decide_True by (by rewrite !length_fmap). f_equal.
  induction bs as [|b bs IH]; [done|]. csimpl. f_equal. exact IH.
Qed.

End reduce_grouped.

Lemma numeric_table_columns table rows :
  numeric_table table = Ok rows →
  to_numeric (donor_position <$> table) = Ok (donor_position <$> rows) ∧
  to_numeric
    (acceptor_position <$> zip_with set_donor_position (donor_position <$> rows) table)
  = Ok (acceptor_position <$> rows) ∧
  zip_with set_acceptor_position (acceptor_position <$> rows)
    (zip_with set_donor_position (donor_position <$> rows) table)
  = cell_row <$> rows.
Proof.
  intros H%mapM_Ok.
  assert (Forall2 (λ r r', to_numeric_cell (donor_position r) = Ok (donor_position r') ∧
                          to_numeric_cell (acceptor_position r)
                          = Ok (acceptor_position r') ∧
                          set_acceptor_position (acceptor_position r')
                            (set_donor_position (donor_position r') r) = cell_row r')
            table rows) as H'.
  { eapply Forall2_impl; [exact H|]. intros r r' Hr. simpl in Hr.
    destruct (to_numeric_cell (donor_position r)) as [d|]; simpl in Hr; [|done].
    destruct (to_numeric_cell (acceptor_position r)) as [a|]; simpl in Hr; [|done].
    injection Hr as <-. by destruct r. }
  clear H. unfold to_numeric. split; [|split].
  - apply mapM_Ok_2, Forall2_fmap. eapply Forall2_impl; [exact H'|]. naive_solver.
  - apply mapM_Ok_2, Forall2_fmap_r.
    induction H' as [|r r' table rows (_ & Hr & _) _ IH]; csimpl; [constructor|].
    constructor; [|done]. by destruct r.
  - induction H' as [|r r' table rows (_ & _ & Hr) _ IH]; csimpl; [done|].
    by rewrite Hr, IH.
Qed.

Lemma coerce_positions_numeric df (σ : store) table rows :
  σ !! df = Some table → numeric_table table = Ok rows →
  coerce_positions df σ = (<[df := cell_row <$> rows]> σ, Ok ()).
Proof.
  intros Hdf (H1 & H2 & H3)%numeric_table_columns.
  unfold coerce_positions, mbind, M_bind, read, lift, write.
  rewrite Hdf. simpl. rewrite H1. simpl. rewrite lookup_insert_eq. simpl.
  rewrite H2. simpl. by rewrite H3, insert_insert_eq.
Qed.

Lemma M_bind_Ok {A B : Type} (x : M A) (k : A → M B) (σ σ1 : store) (a : A) :
  x σ = (σ1, Ok a) → (x ≫= k) σ = k a σ1.
Proof. unfold mbind, M_bind. by intros ->. Qed.

Lemma read_Ok (σ : store) l rows : σ !! l = Some rows → read l σ = (σ, Ok rows).
Proof. unfold read. by intros ->. Qed.

(** The run of the aggregator on a table whose rows, once made numeric and
    restricted to the ROI, come pair by pair. *)
Lemma reduce_contacts_dataframe_run df (σ : store) table rows dist_col limits_roi blocks :
  σ !! df = Some table →
  numeric_table table = Ok rows →
  grouped (restricted limits_roi rows) blocks →
  ∃ σ' out,
    reduce_contacts_dataframe df dist_col limits_roi σ = (σ', Ok out) ∧
    σ' !! out = Some (cell_row <$> (block_reduced dist_col <$> blocks)).
Proof.
  intros Hdf Htable Hg. unfold reduce_contacts_dataframe.
  erewrite M_bind_Ok; [|by eapply coerce_positions_numeric].
  set (σ1 := <[df := cell_row <$> rows]> σ).
  assert (∃ σ2 df1,
            restrict_to_roi df limits_roi σ1 = (σ2, Ok df1) ∧
            σ2 !! df1 = Some (cell_row <$> restricted limits_roi rows))
    as (σ2 & df1 & Hr & Hdf1).
  { destruct limits_roi as [roi|]; simpl.
    - eexists _, _. split.
      + apply (restrict_to_roi_Some _ _ _ (cell_row <$> rows)); [apply lookup_insert_eq|].
        apply numeric_rows_cell_row.
      + apply lookup_insert_eq.
    - exists σ1, df. split; [done|]. apply lookup_insert_eq. }
  pose proof (grouped_rows _ _ Hg) as Hrows.
  pose proof (grouped_labels _ _ Hg) as Hlabels.
  pose proof (reduce_loop_blocks dist_col _ _ Hg blocks [] (ReduceState [] [] [])
                eq_refl eq_refl) as Hloop.
  cbn [donors_acceptors idx_to_remove donor_acceptor_nb_contacts app] in Hloop.
  pose proof (drop_labels_blocks dist_col [] blocks) as Hdrop.
  rewrite app_nil_l in Hdrop.
  generalize dependent (restricted limits_roi rows). intros rs Hg Hdf1 -> Hlabels Hloop.
  erewrite M_bind_Ok; [|exact Hr].
  erewrite M_bind_Ok; [|by apply read_Ok].
  erewrite M_bind_Ok; [|unfold lift; by rewrite numeric_rows_cell_row].
  erewrite M_bind_Ok; [|unfold lift; by rewrite Hloop].
  cbn [donors_acceptors idx_to_remove donor_acceptor_nb_contacts].
  erewrite M_bind_Ok; [|reflexivity].
  erewrite M_bind_Ok; [|apply read_Ok, lookup_insert_eq].
  erewrite M_bind_Ok.
  2:{ unfold lift. rewrite Hdrop; [|done|intros r _; apply not_elem_of_nil].
      by rewrite assign_number_contacts. }
  erewrite M_bind_Ok; [|reflexivity].
  eexists _, _. split; [reflexivity|]. apply lookup_insert_eq.
Qed.

(** On such a table the aggregator returns one row per pair, in order: the
    first row of least distance of the pair, with the number of rows of the
    pair as its ["number contacts"]. *)
Lemma reduce_contacts_dataframe_grouped table rows dist_col limits_roi blocks :
  numeric_table table = Ok rows →
  grouped (restricted limits_roi rows) blocks →
  reduce_table table dist_col limits_roi
  = Ok (cell_row <$> (block_reduced dist_col <$> blocks)).
Proof.
  intros Htable Hg. unfold reduce_table.
  destruct (reduce_contacts_dataframe_run 1%positive {[1%positive := table]}
              table rows dist_col limits_roi blocks) as (σ' & out & Hrun & Hout);
    [apply lookup_singleton_eq|done|done|].
  erewrite M_bind_Ok; [|exact Hrun]. unfold read. by rewrite Hout.
Qed.

Example adjacent_grouped : grouped adjacent_rows adjacent_blocks.
Proof.
  split.
  - reflexivity.
  - intros b r r' Hb Hr Hr'.
    repeat (apply elem_of_cons in Hb as [->|Hb]); [| |by apply elem_of_nil in Hb];
      repeat (apply elem_of_cons in Hr as [->|Hr]); try (by apply elem_of_nil in Hr);
      repeat (apply elem_of_cons in Hr' as [->|Hr']); try (by apply elem_of_nil in Hr');
      by vm_compute.
  - intros [|[|i]] [|[|j]] b b' r r' Hi Hj Hne Hr Hr'; try done;
      injection Hi as <-; injection Hj as <-;
      repeat (apply elem_of_cons in Hr as [->|Hr]); try (by apply elem_of_nil in Hr);
      repeat (apply elem_of_cons in Hr' as [->|Hr']); try (by apply elem_of_nil in Hr');
      (split; [by intros [[=] _]|by vm_compute]).
  - apply (bool_decide_unpack _). by vm_compute.
Qed.

(** With the two contacts of residues 5 and 10 adjacent, each pair gets its
    own count. *)
Example reduce_contacts_dataframe_adjacent :
  reduce_table adjacent_stats Half_mean None
  = Ok [StatsRow 0 "ALA5_N-GLY10_O-H" (CInt 5) "ALA" (CInt 10) "GLY"
          (21 # 10) (21 # 10) (21 # 10) (21 # 10) (Some 2);
        StatsRow 2 "SER7_OG-THR12_N-H" (CInt 7) "SER" (CInt 12) "THR"
          (25 # 10) (25 # 10) (25 # 10) (25 # 10) (Some 1)].
Proof.
  rewrite (reduce_contacts_dataframe_grouped adjacent_stats adjacent_rows Half_mean None
             adjacent_blocks); [done| |apply adjacent_grouped].
  by vm_compute.
Qed.

(** ** Decimal numerals *)

Lemma list_ascii_of_string_app s t :
  String.list_ascii_of_string (s +:+ t)
  = String.list_ascii_of_string s ++ String.list_ascii_of_string t.
Proof. induction s as [|c s IH]; simpl; [done|]. by rewrite <-IH. Qed.

Lemma pretty_N_char_digit m :
  (m < 10)%N →
  Re.is_digit (pretty_N_char m) = true ∧ digit_value (pretty_N_char m) = Z.of_N m.
Proof.
  intros Hm.
  assert (m = 0 ∨ m = 1 ∨ m = 2 ∨ m = 3 ∨ m = 4 ∨ m = 5 ∨ m = 6 ∨ m = 7 ∨ m = 8 ∨ m = 9)%N
    as Hc by lia.
  repeat (destruct Hc as [->|Hc]; [by vm_compute|]). subst. by vm_compute.
Qed.

Local Abbreviation decimal := (foldl (λ acc c, 10 * acc + digit_value c)%Z).

Lemma decimal_nonneg a ds :
  (0 ≤ a)%Z → Forall (λ c, Re.is_digit c = true) ds → (0 ≤ decimal a ds)%Z.
Proof.
  intros Ha Hds. revert a Ha. induction Hds as [|c ds Hc _ IH]; intros a Ha; simpl; [done|].
  apply IH. unfold Re.is_digit, digit_value in *. cbv zeta in Hc.
  apply andb_true_iff in Hc as [?%N.leb_le ?]. lia.
Qed.

Lemma pretty_N_go_digits x s :
  ∃ ds, String.list_ascii_of_string (pretty_N_go x s)
        = ds ++ String.list_ascii_of_string s ∧
        Forall (λ c, Re.is_digit c = true) ds ∧
        ((0 < x)%N → ds ≠ []) ∧
        ∀ a, decimal a ds = (a * 10 ^ Z.of_nat (length ds) + Z.of_N x)%Z.
Proof.
  revert s. induction (N.lt_wf_0 x) as [x _ IH]; intros s.
  destruct (decide (x = 0)%N) as [->|Hx].
  { exists []. rewrite pretty_N_go_0. repeat split; [done|lia|]. intros a. simpl. lia. }
  rewrite pretty_N_go_step by lia.
  destruct (IH (x `div` 10)%N) with (s := String (pretty_N_char (x `mod` 10)) s)
    as (ds & Hds & Hall & _ & Hval).
  { apply N.div_lt; lia. }
  destruct (pretty_N_char_digit (x `mod` 10)%N) as [Hd Hv].
  { apply N.mod_lt. lia. }
  exists (ds ++ [pretty_N_char (x `mod` 10)]). split; [|split; [|split]].
  - rewrite Hds. simpl. by rewrite <-app_assoc.
  - apply Forall_app. split; [done|]. by constructor.
  - intros _. by intros [_ ?]%app_eq_nil.
  - intros a. rewrite foldl_app. simpl. rewrite Hval, Hv, length_app. simpl.
    rewrite Nat2Z.inj_add, Z.pow_add_r by lia.
    pose proof (N.div_mod x 10). lia.
Qed.

Lemma pretty_N_digits (n : N) :
  digits (pretty n) ∧ int (pretty n) = Ok (Z.of_N n).
Proof.
  assert (∃ ds, String.list_ascii_of_string (pretty n) = ds ∧ ds ≠ [] ∧
                Forall (λ c, Re.is_digit c = true) ds ∧ decimal 0%Z ds = Z.of_N n)
    as (ds & Hds & Hne & Hall & Hval).
  { unfold pretty, pretty_N. case_decide as Hn.
    - subst n. exists ["0"%char].
      split; [done|]. split; [done|]. split; [by repeat constructor|done].
    - destruct (pretty_N_go_digits n "") as (ds & Hds & Hall & Hne & Hval).
      exists ds. simpl in Hds. rewrite app_nil_r in Hds.
      repeat split; [done|apply Hne; lia|done|]. rewrite Hval. lia. }
  assert (forallb Re.is_digit ds = true) as Hfb.
  { apply forallb_forall. intros c Hc. rewrite Forall_forall in Hall.
    by apply Hall, list_elem_of_In. }
  split.
  - unfold digits. by rewrite Hds.
  - unfold int. cbv zeta. rewrite Hds. rewrite decide_True by done. by rewrite Hval.
Qed.

Lemma int_nonneg s z : int s = Ok z → (0 ≤ z)%Z.
Proof.
  unfold int. cbv zeta. case_decide as Hd; [|done]. intros [= <-].
  apply decimal_nonneg; [done|]. destruct Hd as [_ Hd].
  apply Forall_forall. intros c Hc%list_elem_of_In.
  rewrite forallb_forall in Hd. by apply Hd.
Qed.

(** ** Matching a text of a known shape *)

Lemma run_digits ds rest :
  Forall (λ c, Re.is_digit c = true) ds →
  (∀ c rest', rest = c :: rest' → Re.is_digit c = false) →
  Re.run Re.Digit (ds ++ rest) = length ds.
Proof.
  intros Hds Hrest. induction Hds as [|c ds Hc _ IH]; simpl.
  - destruct rest as [|c rest']; simpl; [done|]. by rewrite (Hrest c rest').
  - by rewrite Hc, IH.
Qed.

Lemma match_here_lit c r s caps :
  Re.match_here r s = Some caps →
  Re.match_here (Re.lit c :: r) (c :: s) = Some caps.
Proof.
  intros Hr. simpl. rewrite bool_decide_eq_true_2 by done.
  rewrite decide_True by lia. rewrite drop_0, Hr. done.
Qed.

Lemma match_here_digits ds rest r caps :
  ds ≠ [] → Forall (λ c, Re.is_digit c = true) ds →
  (∀ c rest', rest = c :: rest' → Re.is_digit c = false) →
  Re.match_here r rest = Some caps →
  Re.match_here (Re.grp Re.Digit Re.Plus :: r) (ds ++ rest)
  = Some (String.string_of_list_ascii ds :: caps).
Proof.
  intros Hne Hds Hrest Hr. simpl. rewrite run_digits by done.
  destruct (length ds) as [|j] eqn:Hlen; [by destruct ds|].
  simpl. rewrite <-Hlen, take_app_length, drop_app_length, Hr. done.
Qed.

Lemma search_here r s caps :
  Re.match_here r (String.list_ascii_of_string s) = Some caps →
  Re.search r s = Some caps.
Proof.
  unfold Re.search. intros Hr.
  destruct (String.list_ascii_of_string s); simpl in *; by rewrite Hr.
Qed.

Lemma digits_Forall s :
  digits s →
  String.list_ascii_of_string s ≠ [] ∧
  Forall (λ c, Re.is_digit c = true) (String.list_ascii_of_string s).
Proof.
  intros [Hne Hd]. split; [done|]. apply Forall_forall. intros c Hc%list_elem_of_In.
  rewrite forallb_forall in Hd. by apply Hd.
Qed.

Lemma rest_not_digit (rest : string) :
  (∀ c rest', rest = String c rest' → Re.is_digit c = false) →
  ∀ c l, String.list_ascii_of_string rest = c :: l → Re.is_digit c = false.
Proof.
  intros Hrest c l Hl. destruct rest as [|c' rest']; [done|].
  injection Hl as -> _. by eapply Hrest.
Qed.

(** The leftmost match of the ROI pattern in [g1-g2] followed by something
    that is not a digit, and of the mask pattern in [:g1-g2]. *)
Lemma pattern_roi_match ds1 ds2 rest :
  ds1 ≠ [] → Forall (λ c, Re.is_digit c = true) ds1 →
  ds2 ≠ [] → Forall (λ c, Re.is_digit c = true) ds2 →
  (∀ c rest', rest = c :: rest' → Re.is_digit c = false) →
  Re.match_here pattern_roi (ds1 ++ "-"%char :: ds2 ++ rest)
  = Some [String.string_of_list_ascii ds1; String.string_of_list_ascii ds2].
Proof.
  intros Hn1 H1 Hn2 H2 Hrest. unfold pattern_roi.
  apply match_here_digits; [done|done|by intros ? ? [= <- _]|].
  apply match_here_lit. by apply match_here_digits.
Qed.

Lemma pattern_roi_search g1 g2 rest :
  digits g1 → digits g2 →
  (∀ c rest', rest = String c rest' → Re.is_digit c = false) →
  Re.search pattern_roi (g1 +:+ "-" +:+ g2 +:+ rest) = Some [g1; g2].
Proof.
  intros [Hn1 H1]%digits_Forall [Hn2 H2]%digits_Forall Hrest.
  apply search_here. rewrite !list_ascii_of_string_app.
  change (String.list_ascii_of_string "-" ++ ?l) with ("-"%char :: l).
  rewrite pattern_roi_match by eauto using rest_not_digit.
  by rewrite !String.string_of_list_ascii_of_string.
Qed.

Lemma pattern_mask_search g1 g2 rest :
  digits g1 → digits g2 →
  (∀ c rest', rest = String c rest' → Re.is_digit c = false) →
  Re.search pattern_mask (":" +:+ g1 +:+ "-" +:+ g2 +:+ rest) = Some [g1; g2].
Proof.
  intros [Hn1 H1]%digits_Forall [Hn2 H2]%digits_Forall Hrest.
  apply search_here. rewrite !list_ascii_of_string_app.
  change (String.list_ascii_of_string "-" ++ ?l) with ("-"%char :: l).
  change (String.list_ascii_of_string ":" ++ ?l) with (":"%char :: l).
  unfold pattern_mask. apply match_here_lit.
  rewrite (pattern_roi_match _ _ _ Hn1 H1 Hn2 H2) by eauto using rest_not_digit.
  by rewrite !String.string_of_list_ascii_of_string.
Qed.

Lemma min_max_pretty (lo hi : N) :
  min_max [pretty lo; pretty hi] = Ok (Bounds (Z.of_N lo) (Z.of_N hi)).
Proof.
  unfold min_max, Re.group. simpl.
  rewrite (proj2 (pretty_N_digits lo)). simpl.
  by rewrite (proj2 (pretty_N_digits hi)).
Qed.

Lemma truthy_Some s : s ≠ "" → truthy (Some s) = Some s.
Proof. intros Hs. unfold truthy. by rewrite decide_False. Qed.

Lemma app_assoc_string (s t u : string) : (s +:+ t) +:+ u = s +:+ (t +:+ u).
Proof. induction s as [|c s IH]; simpl; [done|]. unfold String.app in *. simpl. by rewrite IH. Qed.

(** X1.  A mask written [:<lo>-<hi>], followed by anything that does not
    start with a digit (an atom selection such as [@CA], or nothing), is
    accepted by [check_limits] whatever the order of the two numbers, and
    gives back [lo] and [hi] as the mask limits, with no ROI limits. *)
Theorem check_limits_mask_text (lo hi : N) (rest : string) :
  (∀ c rest', rest = String c rest' → Re.is_digit c = false) →
  check_limits (Some (mask_text lo hi +:+ rest)) None
  = Ok (Limits (Some (Bounds (Z.of_N lo) (Z.of_N hi))) None).
Proof.
  intros Hrest. unfold check_limits, mask_text.
  rewrite truthy_Some by done.
  rewrite !app_assoc_string.
  rewrite pattern_mask_search; [|apply pretty_N_digits..|done].
  by rewrite min_max_pretty.
Qed.

Lemma check_limits_mask_text_witness :
  check_limits (Some ":682-850@CA") None = Ok (Limits (Some (Bounds 682 850)) None).
Proof.
  apply (check_limits_mask_text 682 850 "@CA").
  intros c rest' [= <- _]. reflexivity.
Defined.

(** X2.  On a mask [:<mask_min>-<mask_max>] and a ROI [<roi_min>-<roi_max>]
    the outcome of [check_limits] depends on the numbers alone: it raises
    for the ROI minimum when [mask_min + roi_min >= mask_max], else for the
    ROI maximum when [mask_min + roi_max >= mask_max], and else returns the
    four numbers; neither the order of the mask limits nor that of the ROI
    limits is checked. *)
Theorem check_limits_texts (mask_min mask_max roi_min roi_max : N) :
  check_limits (Some (mask_text mask_min mask_max)) (Some (roi_text roi_min roi_max))
  = if decide (mask_max ≤ mask_min + roi_min)%N
    then Raise (ArgumentTypeError (RoiMinOutside (Z.of_N mask_min) (Z.of_N roi_min)))
    else if decide (mask_max ≤ mask_min + roi_max)%N
    then Raise (ArgumentTypeError (RoiMaxOutside (Z.of_N mask_min) (Z.of_N roi_max)))
    else Ok (Limits (Some (Bounds (Z.of_N mask_min) (Z.of_N mask_max)))
               (Some (Bounds (Z.of_N roi_min) (Z.of_N roi_max)))).
Proof.
  unfold check_limits.
  assert (roi_text roi_min roi_max ≠ "") as Hroi.
  { unfold roi_text. destruct (pretty_N_digits roi_min) as [[Hne _] _].
    destruct (pretty roi_min); done. }
  rewrite !truthy_Some by done.
  assert (mask_text mask_min mask_max
          = ":" +:+ pretty mask_min +:+ "-" +:+ pretty mask_max +:+ "") as ->.
  { unfold mask_text. f_equal. f_equal. f_equal.
    induction (pretty mask_max) as [|c s IH]; simpl; [done|]. unfold String.app in *. simpl. by rewrite <-IH. }
  assert (roi_text roi_min roi_max
          = pretty roi_min +:+ "-" +:+ pretty roi_max +:+ "") as ->.
  { unfold roi_text. f_equal. f_equal.
    induction (pretty roi_max) as [|c s IH]; simpl; [done|]. unfold String.app in *. simpl. by rewrite <-IH. }
  rewrite pattern_mask_search; [|apply pretty_N_digits..|done].
  rewrite pattern_roi_search; [|apply pretty_N_digits..|done].
  rewrite !min_max_pretty. simpl.
  repeat case_decide; try done; lia.
Qed.

Lemma min_max_nonneg m b : min_max m = Ok b → (0 ≤ b_min b ∧ 0 ≤ b_max b)%Z.
Proof.
  unfold min_max.
  destruct (Re.group m 1) as [g1|]; simpl; [|done].
  destruct (int g1) as [lo|] eqn:Hlo; simpl; [|done].
  destruct (Re.group m 2) as [g2|]; simpl; [|done].
  destruct (int g2) as [hi|] eqn:Hhi; simpl; [|done].
  intros [= <-]. simpl. eauto using int_nonneg.
Qed.

(** X3.  When [check_limits] accepts a mask together with a ROI, the mask
    has [min < max], the ROI limits are not negative, and both ROI limits,
    shifted to the numbering of the heat-map labels
    ([position + mask.min - 1]), are at most [mask.max - 2]: the last two
    residues of the mask cannot be part of an accepted ROI. *)
Theorem check_limits_roi_inside_mask mask roi m r :
  check_limits mask roi = Ok (Limits (Some m) (Some r)) →
  (b_min m < b_max m)%Z ∧
  (0 ≤ b_min r)%Z ∧ (0 ≤ b_max r)%Z ∧
  (label_position (Some m) (b_min r) ≤ b_max m - 2)%Z ∧
  (label_position (Some m) (b_max r) ≤ b_max m - 2)%Z.
Proof.
  unfold check_limits.
  destruct (truthy mask) as [sm|]; [|destruct (truthy roi) as [sr|]].
  - destruct (Re.search pattern_mask sm) as [cm|]; simpl; [|done].
    destruct (min_max cm) as [bm|] eqn:Hm; simpl; [|done].
    destruct (truthy roi) as [sr|]; simpl; [|done].
    destruct (Re.search pattern_roi sr) as [cr|]; simpl; [|done].
    destruct (min_max cr) as [br|] eqn:Hr; simpl; [|done].
    repeat case_decide; try done. intros [= <- <-].
    apply min_max_nonneg in Hm, Hr. unfold label_position. lia.
  - simpl. destruct (Re.search pattern_roi sr) as [cr|]; simpl; [|done].
    by destruct (min_max cr).
  - done.
Qed.

Lemma check_limits_roi_inside_mask_witness :
  (682 < 850)%Z ∧ (0 ≤ 35)%Z ∧ (0 ≤ 39)%Z ∧
  (label_position (Some (Bounds 682 850)) 35 ≤ 850 - 2)%Z ∧
  (label_position (Some (Bounds 682 850)) 39 ≤ 850 - 2)%Z.
Proof.
  apply (check_limits_roi_inside_mask (Some ":682-850") (Some "35-39")
           (Bounds 682 850) (Bounds 35 39)).
  vm_compute. reflexivity.
Defined.

(** ** sort_contacts *)

Lemma contact_le_antisym pattern a b :
  contact_le pattern a b → contact_le pattern b a → a = b.
Proof.
  unfold contact_le. intros [?|[? [?|[? H1]]]] [?|[? [?|[? H2]]]]; try lia.
  by apply (anti_symm String.le).
Qed.

Lemma Forall_eq_length {A : Type} (x : A) (l k : list A) :
  Forall (λ y, y = x) l → Forall (λ y, y = x) k → length l = length k → l = k.
Proof.
  intros Hl. revert k. induction Hl as [|y l -> _ IH]; intros k Hk Hlen.
  - by destruct k.
  - destruct Hk as [|z k -> Hk]; [done|]. f_equal. apply IH; [done|]. simpl in Hlen. lia.
Qed.

Lemma sort_contacts_scan_contact_Raise names tmp ordered e :
  sort_contacts_scan pattern_contact names tmp ordered = Raise e →
  e = SystemExit 1 ∧
  ∃ n, n ∈ names ∧ n ≠ "frames" ∧ Re.search pattern_contact n = None.
Proof.
  revert tmp ordered. induction names as [|n names IH]; intros tmp ordered; simpl; [done|].
  assert (∀ tmp ordered,
            sort_contacts_scan pattern_contact names tmp ordered = Raise e →
            e = SystemExit 1 ∧
            ∃ n0, n0 ∈ n :: names ∧ n0 ≠ "frames" ∧ Re.search pattern_contact n0 = None)
    as IH'.
  { intros tmp' ordered' (-> & n0 & ? & ? & ?)%IH. split; [done|].
    exists n0. split; [by apply list_elem_of_further|done]. }
  case_decide as Hn; [apply IH'|].
  destruct (Re.search pattern_contact n) as [m|] eqn:Hm.
  - destruct (pattern_contact_groups _ _ Hm) as (g1 & g2 & g3 & g4 & -> & Hd2 & Hd4).
    apply int_digits in Hd2 as [k1 Hk1]. apply int_digits in Hd4 as [k2 Hk2].
    unfold Re.group. simpl. rewrite Hk1. simpl. rewrite Hk2. simpl.
    destruct (tmp !! k1) as [inner|]; [destruct (inner !! k2)|]; apply IH'.
  - intros [= <-]. split; [done|]. exists n. split; [apply list_elem_of_here|done].
Qed.

Lemma sort_contacts_contact_Ok names :
  Forall (λ n, n = "frames" ∨ is_Some (Re.search pattern_contact n)) names →
  ∃ ordered, sort_contacts names pattern_contact = Ok ordered.
Proof.
  intros Hall. unfold sort_contacts.
  destruct (sort_contacts_scan_Ok pattern_contact names ∅ []) as [[tmp ordered] ->].
  - eapply Forall_impl; [exact Hall|]. intros n [?|[m Hm]]; [by left|right].
    destruct (pattern_contact_groups _ _ Hm) as (g1 & g2 & g3 & g4 & -> & ? & ?).
    by exists [g1; g2; g3; g4], g2, g4.
  - by eexists.
Qed.

Lemma sort_contacts_Ok_matched pattern names ordered :
  sort_contacts names pattern = Ok ordered →
  Forall (λ n, n = "frames" ∨ is_Some (Re.search pattern n)) names.
Proof.
  intros (sorted & _ & Hperm & _ & Hall)%sort_contacts_spec.
  apply Forall_forall. intros n Hn.
  destruct (decide (n = "frames")) as [?|Hne]; [by left|right].
  rewrite Forall_forall in Hall. apply Hall. rewrite Hperm.
  by apply list_elem_of_filter.
Qed.

Lemma sort_contacts_rearranges pattern names ordered :
  sort_contacts names pattern = Ok ordered → ordered ≡ₚ names.
Proof.
  intros (sorted & -> & Hperm & _)%sort_contacts_spec.
  rewrite Hperm. apply filter_app_complement.
Qed.

(** X4.  When [sort_contacts] returns, its result is a rearrangement of the
    names it was given: no name is lost, none is added, and a name given
    twice is returned twice. *)
Theorem sort_contacts_Permutation pattern names ordered :
  sort_contacts names pattern = Ok ordered → ordered ≡ₚ names.
Proof.
  intros (sorted & -> & Hperm & _)%sort_contacts_spec.
  rewrite Hperm. apply filter_app_complement.
Qed.

Lemma sort_contacts_Permutation_witness :
  ["frames"; "ASP2_OD1-ARG7_NH1-HH11"; "SER9_O-ALA3_N-H"]
  ≡ₚ ["frames"; "SER9_O-ALA3_N-H"; "ASP2_OD1-ARG7_NH1-HH11"].
Proof.
  apply (sort_contacts_Permutation pattern_contact).
  vm_compute. reflexivity.
Defined.

(** X5.  With the contact pattern, the outcome of [sort_contacts] does not
    depend on the order in which the names are given. *)
Theorem sort_contacts_order_independent names names' :
  names ≡ₚ names' →
  sort_contacts names pattern_contact = sort_contacts names' pattern_contact.
Proof.
  intros Hperm.
  destruct (sort_contacts names pattern_contact) as [ordered|e] eqn:Hs;
    destruct (sort_contacts names' pattern_contact) as [ordered'|e'] eqn:Hs'.
  - f_equal.
    apply sort_contacts_spec in Hs as (sorted & -> & Hp & Hsorted & _).
    apply sort_contacts_spec in Hs' as (sorted' & -> & Hp' & Hsorted' & _).
    f_equal.
    + apply (Forall_eq_length "frames").
      * apply Forall_forall. by intros n [? _]%list_elem_of_filter.
      * apply Forall_forall. by intros n [? _]%list_elem_of_filter.
      * by rewrite Hperm.
    + apply (StronglySorted_unique_strong (contact_le pattern_contact));
        [eauto using contact_le_antisym|done|done|].
      by rewrite Hp, Hp', Hperm.
  - apply sort_contacts_Ok_matched in Hs. rewrite Hperm in Hs.
    apply sort_contacts_contact_Ok in Hs as [? Hs]. congruence.
  - apply sort_contacts_Ok_matched in Hs'. rewrite <-Hperm in Hs'.
    apply sort_contacts_contact_Ok in Hs' as [? Hs']. congruence.
  - revert Hs Hs'. unfold sort_contacts.
    destruct (sort_contacts_scan _ names _ _) as [[]|] eqn:H1; simpl; [done|].
    destruct (sort_contacts_scan _ names' _ _) as [[]|] eqn:H2; simpl; [done|].
    apply sort_contacts_scan_contact_Raise in H1 as [-> _].
    apply sort_contacts_scan_contact_Raise in H2 as [-> _]. congruence.
Qed.

Lemma sort_contacts_order_independent_witness :
  sort_contacts ["SER9_O-ALA3_N-H"; "frames"; "ASP2_OD1-ARG7_NH1-HH11"] pattern_contact
  = sort_contacts ["ASP2_OD1-ARG7_NH1-HH11"; "SER9_O-ALA3_N-H"; "frames"] pattern_contact.
Proof.
  apply sort_contacts_order_independent.
  apply Permutation_sym, (Permutation_cons_append [_; _]).
Defined.

(** X6.  With the contact pattern, sorting the result of [sort_contacts]
    again gives the same list. *)
Theorem sort_contacts_idempotent names ordered :
  sort_contacts names pattern_contact = Ok ordered →
  sort_contacts ordered pattern_contact = Ok ordered.
Proof.
  intros Hs.
  pose proof (sort_contacts_Ok_matched _ _ _ Hs) as Hall.
  pose proof (sort_contacts_rearranges _ _ _ Hs) as Hperm.
  rewrite <-Hperm in Hall.
  apply sort_contacts_contact_Ok in Hall as [ordered' Hs'].
  rewrite Hs'. f_equal.
  apply sort_contacts_spec in Hs as (sorted & -> & Hp & Hsorted & Hm).
  apply sort_contacts_spec in Hs' as (sorted' & -> & Hp' & Hsorted' & _).
  assert (Forall (λ n, n ≠ "frames") sorted) as Hnf.
  { rewrite Hp. apply Forall_forall. by intros n [? _]%list_elem_of_filter. }
  rewrite !filter_app in *.
  rewrite (filter_none (λ n, n = "frames") sorted) in *
    by (rewrite Forall_forall in Hnf; naive_solver).
  rewrite (filter_all (λ n, n ≠ "frames") sorted) in Hp'
    by (rewrite Forall_forall in Hnf; naive_solver).
  rewrite (filter_none (λ n, n ≠ "frames") (filter _ names)) in Hp'
    by (intros n [? _]%list_elem_of_filter; naive_solver).
  rewrite (filter_all (λ n, n = "frames") (filter _ names))
    by (by intros n [? _]%list_elem_of_filter).
  rewrite app_nil_r. f_equal.
  apply (StronglySorted_unique_strong (contact_le pattern_contact));
    [eauto using contact_le_antisym|done|done|done].
Qed.

Lemma sort_contacts_idempotent_witness :
  sort_contacts ["frames"; "ASP2_OD1-ARG7_NH1-HH11"; "SER9_O-ALA3_N-H"] pattern_contact
  = Ok ["frames"; "ASP2_OD1-ARG7_NH1-HH11"; "SER9_O-ALA3_N-H"].
Proof.
  apply (sort_contacts_idempotent
           ["SER9_O-ALA3_N-H"; "frames"; "ASP2_OD1-ARG7_NH1-HH11"]).
  vm_compute. reflexivity.
Defined.

(** X7.  With the contact pattern, [sort_contacts] raises nothing but
    [SystemExit(1)], and does so exactly when one of the names, other than
    ["frames"], does not contain a match of the pattern. *)
Theorem sort_contacts_exit names :
  (∀ e, sort_contacts names pattern_contact = Raise e → e = SystemExit 1) ∧
  (sort_contacts names pattern_contact = Raise (SystemExit 1) ↔
   ∃ n, n ∈ names ∧ n ≠ "frames" ∧ ¬ Re.well_formed pattern_contact n).
Proof.
  assert (∀ e, sort_contacts names pattern_contact = Raise e →
               e = SystemExit 1 ∧
               ∃ n, n ∈ names ∧ n ≠ "frames" ∧ Re.search pattern_contact n = None) as Hr.
  { intros e. unfold sort_contacts.
    destruct (sort_contacts_scan _ names _ _) as [[]|e'] eqn:H1; simpl; [done|].
    intros [= <-]. by apply sort_contacts_scan_contact_Raise in H1. }
  split; [intros e He; by apply Hr|]. split.
  - intros (_ & n & ? & ? & ?%ReFacts.search_None)%Hr. by exists n.
  - intros (n & Hn & Hne & Hwf%ReFacts.search_None).
    destruct (sort_contacts names pattern_contact) as [ordered|e] eqn:Hs.
    + apply sort_contacts_Ok_matched in Hs. rewrite Forall_forall in Hs.
      destruct (Hs n Hn) as [?|[m Hm]]; congruence.
    + by destruct (Hr e eq_refl) as [-> _].
Qed.

(** ** hydrogen_bonds: the counters and the columns *)

Section hydrogen_bonds_cases.
Context (dist : list (list float)) (dist_thr occupancy_thr : float) (pattern : Re.regex).

Local Abbreviation step := (hydrogen_bonds_step dist dist_thr occupancy_thr pattern).
Local Abbreviation loop := (hydrogen_bonds_loop dist dist_thr occupancy_thr pattern).
Local Abbreviation passes := (passes dist dist_thr occupancy_thr pattern).
Local Abbreviation candidate := (λ key : string, key ≠ "total_solute_hbonds").
Local Abbreviation discarded st :=
  (nb_intra_residue_contacts st + nb_frames_contacts_2nd_half_thr st)%Z.

(** The four ways a turn of the loop on a candidate ends well: the name does
    not match, the pair is inside one residue, the pair is kept, the pair is
    below the occupancy threshold. *)
Lemma hydrogen_bonds_step_cases st key st' :
  key ≠ "total_solute_hbonds" →
  step st key = Ok st' →
  idx st' = S (idx st) ∧
  ((Re.search pattern key = None ∧ ¬ passes (idx st) key ∧
    data_hydrogen_bonds st' = data_hydrogen_bonds st ∧ discarded st' = discarded st) ∨
   (is_Some (Re.search pattern key) ∧ ¬ passes (idx st) key ∧
    data_hydrogen_bonds st' = data_hydrogen_bonds st ∧
    discarded st' = (discarded st + 1)%Z) ∨
   (is_Some (Re.search pattern key) ∧ passes (idx st) key ∧
    discarded st' = discarded st ∧
    ∃ d, dist !! idx st = Some d ∧ d ≠ [] ∧
         data_hydrogen_bonds st' = dict_set key (Floats d) (data_hydrogen_bonds st))).
Proof.
  intros Hkey. unfold hydrogen_bonds_step. rewrite decide_True by done.
  destruct (Re.search pattern key) as [m|] eqn:Hm; simpl.
  - destruct (Re.group m 2) as [g2|] eqn:Hg2; simpl; [|done].
    destruct (Re.group m 4) as [g4|] eqn:Hg4; simpl; [|done].
    assert (∀ donor acceptor, positions pattern key donor acceptor →
              donor = g2 ∧ acceptor = g4) as Hpos.
    { intros donor acceptor (m' & ? & ? & ?). split; congruence. }
    destruct (decide (g2 = g4)) as [->|Hne]; simpl.
    { intros [= <-]. simpl. split; [done|]. right. left.
      split; [done|]. split; [|split; [done|lia]].
      intros (d & donor & acceptor & _ & [-> ->]%Hpos & ? & _). done. }
    destruct (dist !! idx st) as [d|] eqn:Hd; simpl; [|done].
    destruct (pct_contacts dist_thr d) as [pct|] eqn:Hpct; simpl; [|done].
    assert (d ≠ []) as Hdne.
    { intros ->. by vm_compute in Hpct. }
    apply pct_contacts_Ok in Hpct as ->.
    destruct (PrimFloat.leb occupancy_thr (occupancy dist_thr d)) eqn:Hleb; simpl.
    + intros [= <-]. simpl. split; [done|]. right. right.
      split; [done|]. split; [|split; [done|by exists d]].
      exists d, g2, g4. repeat split; try done. by exists m.
    + intros [= <-]. simpl. split; [done|]. right. left.
      split; [done|]. split; [|split; [done|lia]].
      intros (d' & donor & acceptor & Hd' & _ & _ & Hleb').
      assert (d' = d) as -> by congruence. congruence.
  - intros [= <-]. simpl. split; [done|]. left. repeat split; try done.
    intros (d & donor & acceptor & _ & (m & ? & _) & _). congruence.
Qed.

(** The contacts counted as used: those the loop neither counts as inside a
    residue nor as below the threshold. *)
Lemma hydrogen_bonds_loop_used ks st st' :
  loop ks st = Ok st' →
  ∃ used : Z,
    (0 ≤ used)%Z ∧
    (discarded st' + used = discarded st + Z.of_nat (length (filter candidate ks)))%Z ∧
    (used = 0%Z ↔
     ∀ j key, filter candidate ks !! j = Some key →
              is_Some (Re.search pattern key) ∧ ¬ passes (idx st + j) key).
Proof.
  revert st. induction ks as [|k ks IH]; intros st; simpl.
  - intros [= <-]. exists 0%Z. rewrite filter_nil. simpl.
    split; [done|]. split; [lia|]. split; [|done]. intros _ j key. by rewrite lookup_nil.
  - destruct (step st k) as [st1|] eqn:Hstep; simpl; [|done].
    intros (used & Hpos & Hsum & Hzero)%IH.
    destruct (decide (k = "total_solute_hbonds")) as [->|Hk].
    { apply hydrogen_bonds_step_total in Hstep as ->.
      rewrite filter_cons_False by naive_solver. by exists used. }
    apply hydrogen_bonds_step_cases in Hstep as [Hi Hstep]; [|done].
    rewrite filter_cons_True by done. rewrite Hi in Hzero.
    assert (∀ P : nat → string → Prop,
              (∀ j key, (k :: filter candidate ks) !! j = Some key → P j key) ↔
              P 0 k ∧ ∀ j key, filter candidate ks !! j = Some key → P (S j) key) as Hall.
    { intros P. split.
      - intros H. split; [by apply (H 0)|]. intros j key Hj. by apply (H (S j)).
      - intros [H0 HS] [|j] key Hj; simpl in Hj; [by injection Hj as <-|by apply HS]. }
    assert (∀ j, S (idx st) + j = idx st + S j) as Hshift by lia.
    setoid_rewrite Hshift in Hzero.
    destruct Hstep as [(Hm & Hnp & _ & Hd)|[(Hm & Hnp & _ & Hd)|(Hm & Hp & Hd & _)]].
    + exists (used + 1)%Z. split; [lia|]. split; [simpl length; lia|].
      split; [lia|]. rewrite Hall. intros [[[m Hm'] _] _]. congruence.
    + exists used. split; [done|]. split; [simpl length; lia|].
      rewrite Hzero, Hall. rewrite Nat.add_0_r. naive_solver.
    + exists (used + 1)%Z. split; [lia|]. split; [simpl length; lia|].
      split; [lia|]. rewrite Hall. rewrite Nat.add_0_r. naive_solver.
Qed.

(** What the columns of [data_hydrogen_bonds] hold. *)
Lemma hydrogen_bonds_loop_data ks st st' key c :
  loop ks st = Ok st' →
  dict_get key (data_hydrogen_bonds st') = Some c →
  dict_get key (data_hydrogen_bonds st) = Some c ∨
  ∃ j d, filter candidate ks !! j = Some key ∧ passes (idx st + j) key ∧
         dist !! (idx st + j) = Some d ∧ d ≠ [] ∧ c = Floats d.
Proof.
  revert st. induction ks as [|k ks IH]; intros st; simpl.
  - intros [= <-]. by left.
  - destruct (step st k) as [st1|] eqn:Hstep; simpl; [|done].
    intros Hloop Hget. destruct (IH _ Hloop Hget) as [Hst1|(j & d & Hj & Hp & Hd & Hne & ->)].
    + destruct (decide (k = "total_solute_hbonds")) as [->|Hk].
      { apply hydrogen_bonds_step_total in Hstep as ->. by left. }
      apply hydrogen_bonds_step_cases in Hstep as [Hi Hstep]; [|done].
      destruct Hstep as [(_ & _ & Hdata & _)|[(_ & _ & Hdata & _)|(_ & Hp & _ & d & Hd & Hne & Hdata)]];
        rewrite Hdata in Hst1; [by left..|].
      destruct (decide (k = key)) as [->|Hkk].
      * right. exists 0, d. rewrite filter_cons_True by done. rewrite Nat.add_0_r.
        repeat split; try done.
        assert (dict_get key (dict_set key (Floats d) (data_hydrogen_bonds st))
                = Some (Floats d)) as Hset.
        { clear. induction (data_hydrogen_bonds st) as [|[k' v'] l IHl]; simpl.
          - by rewrite decide_True.
          - destruct (decide (k' = key)) as [->|?]; simpl.
            + by rewrite decide_True.
            + by rewrite decide_False. }
        congruence.
      * left. rewrite <-Hst1. clear -Hkk.
        induction (data_hydrogen_bonds st) as [|[k' v'] l IHl]; simpl.
        -- by rewrite decide_False.
        -- destruct (decide (k' = k)) as [->|?]; simpl.
           ++ by rewrite !decide_False.
           ++ destruct (decide (k' = key)); [done|]. done.
    + right. destruct (decide (k = "total_solute_hbonds")) as [->|Hk].
      { apply hydrogen_bonds_step_total in Hstep as ->.
        rewrite filter_cons_False by naive_solver. by exists j, d. }
      apply hydrogen_bonds_step_cases in Hstep as [Hi _]; [|done].
      rewrite filter_cons_True by done. rewrite Hi in *.
      exists (S j), d. replace (idx st + S j) with (S (idx st) + j) by lia. done.
Qed.

End hydrogen_bonds_cases.

(** Without frames, the first pair of two residues stops the loop. *)
Lemma hydrogen_bonds_loop_no_frames dist dist_thr occupancy_thr ks st key donor acceptor :
  (∀ j k, filter (λ key, key ≠ "total_solute_hbonds") ks !! j = Some k →
          dist !! (idx st + j) = Some []) →
  key ∈ filter (λ key, key ≠ "total_solute_hbonds") ks →
  positions pattern_contact key donor acceptor → donor ≠ acceptor →
  hydrogen_bonds_loop dist dist_thr occupancy_thr pattern_contact ks st
  = Raise ZeroDivisionError.
Proof.
  intros Hdist Hkey Hpos Hne. revert st Hdist Hkey.
  induction ks as [|k ks IH]; intros st Hdist Hkey; simpl.
  - rewrite filter_nil in Hkey. by apply not_elem_of_nil in Hkey.
  - unfold hydrogen_bonds_step at 1.
    destruct (decide (k ≠ "total_solute_hbonds")) as [Hk|Hk]; simpl.
    2:{ rewrite filter_cons_False in Hdist, Hkey by done. by apply IH. }
    rewrite filter_cons_True in Hdist, Hkey by done.
    assert (∀ st1, idx st1 = S (idx st) → (key = k → False) →
              hydrogen_bonds_loop dist dist_thr occupancy_thr pattern_contact ks st1
              = Raise ZeroDivisionError) as Hnext.
    { intros st1 Hi Hkk. apply IH.
      - intros j k' Hj. rewrite Hi.
        replace (S (idx st) + j) with (idx st + S j) by lia. by apply (Hdist (S j) k').
      - apply elem_of_cons in Hkey as [->|?]; done. }
    destruct (Re.search pattern_contact k) as [m|] eqn:Hm; simpl.
    + destruct (pattern_contact_groups _ _ Hm) as (g1 & g2 & g3 & g4 & -> & _).
      unfold Re.group. simpl.
      destruct (decide (g2 = g4)) as [->|Hg]; simpl.
      * apply Hnext; [done|]. intros ->.
        destruct Hpos as (m' & Hm' & Hd & Ha).
        assert (m' = [g1; g4; g3; g4]) as -> by congruence.
        unfold Re.group in Hd, Ha. simpl in Hd, Ha. congruence.
      * specialize (Hdist 0 k eq_refl). rewrite Nat.add_0_r in Hdist.
        rewrite Hdist. done.
    + apply Hnext; [done|]. intros ->. destruct Hpos as (m' & ? & _). congruence.
Qed.

Lemma select_columns_get df names df' k :
  select_columns df names = Ok df' → k ∈ names → dict_get k df' = dict_get k df.
Proof.
  revert df'. induction names as [|k0 names IH]; intros df'; simpl.
  - intros _ []%not_elem_of_nil.
  - destruct (dict_get k0 df) as [c0|] eqn:Hk0; simpl; [|done].
    destruct (select_columns df names) as [rest|]; simpl; [|done].
    intros [= <-] Hk. simpl. case_decide as Hkk; [by subst|].
    apply elem_of_cons in Hk as [->|Hk]; [done|]. by apply IH.
Qed.

Lemma dict_get_elem {K V : Type} `{EqDecision K} (k : K) (v : V) (d : dict K V) :
  dict_get k d = Some v → (k, v) ∈ d.
Proof.
  induction d as [|[k' v'] d IH]; simpl; [done|].
  case_decide as Hk.
  - intros [= ->]. subst. apply list_elem_of_here.
  - intros ?. by apply list_elem_of_further, IH.
Qed.

Lemma pd_DataFrame_lengths k c rest :
  pd_DataFrame ((k, c) :: rest) = Ok ((k, c) :: rest) →
  Forall (λ kc, series_len kc.2 = series_len c) ((k, c) :: rest).
Proof. unfold pd_DataFrame. case_decide; [|done]. intros _. by constructor. Qed.

(** X8.  Whatever the trajectory and the thresholds, [hydrogen_bonds] with
    the contact pattern ends in one of five ways: it returns a table, it
    exits with status 0, or it raises [IndexError] (no row of [dist] for a
    pair), [ZeroDivisionError] (an empty row of [dist]) or the [ValueError]
    of [pd.DataFrame] on columns of different lengths.  It never exits with
    status 1 and never raises [KeyError]. *)
Theorem hydrogen_bonds_outcomes traj dist_thr occupancy_thr :
  (∃ df, hydrogen_bonds traj dist_thr occupancy_thr pattern_contact = Ok df) ∨
  hydrogen_bonds traj dist_thr occupancy_thr pattern_contact = Raise (SystemExit 0) ∨
  hydrogen_bonds traj dist_thr occupancy_thr pattern_contact = Raise IndexError ∨
  hydrogen_bonds traj dist_thr occupancy_thr pattern_contact = Raise ZeroDivisionError ∨
  hydrogen_bonds traj dist_thr occupancy_thr pattern_contact
  = Raise (ValueError "All arrays must be of the same length").
Proof.
  unfold hydrogen_bonds. cbv zeta.
  destruct (hydrogen_bonds_loop _ _ _ _ _ _) as [st|e] eqn:Hloop; simpl.
  2:{ apply hydrogen_bonds_loop_Raise in Hloop as [-> | ->]; auto. }
  case_decide; [auto|].
  apply hydrogen_bonds_loop_spec in Hloop as (_ & Hkeys & _).
  destruct (sort_contacts_contact_Ok (dict_keys (data_hydrogen_bonds st)))
    as [ordered Hsort].
  { apply Forall_forall. intros key [->%list_elem_of_singleton|(j & _ & Hp)]%Hkeys;
      [by left|right].
    destruct Hp as (_ & donor & acceptor & _ & (m & ? & _) & _). by exists m. }
  rewrite Hsort. simpl.
  destruct (pd_DataFrame _) as [df0|e] eqn:Hdf; simpl.
  - left. apply pd_DataFrame_Ok in Hdf as ->.
    apply select_columns_Ok. intros k Hk.
    apply sort_contacts_rearranges in Hsort. by rewrite Hsort in Hk.
  - right. right. right. right. revert Hdf. unfold pd_DataFrame.
    destruct (data_hydrogen_bonds st) as [|[k c] rest]; [done|].
    case_decide; [done|]. by intros [= <-].
Qed.

(** X10.  On a trajectory with at least one frame, one distance row of
    that length for each candidate, and exactly one aggregate entry,
    [hydrogen_bonds] exits with status 0 exactly when every candidate name
    contains a match of the pattern and no candidate is retained; a name
    without a match counts as a used contact and keeps the run going. *)
Theorem hydrogen_bonds_exit_0 traj dist_thr occupancy_thr :
  (∀ i key, candidates traj !! i = Some key →
            ∃ d, dist traj !! i = Some d ∧ length d = n_frames traj) →
  0 < n_frames traj →
  length (h_bonds traj) = S (length (candidates traj)) →
  (hydrogen_bonds traj dist_thr occupancy_thr pattern_contact = Raise (SystemExit 0) ↔
   ∀ key, key ∈ candidates traj →
          Re.well_formed pattern_contact key ∧
          ¬ retained traj dist_thr occupancy_thr pattern_contact key).
Proof.
  intros Hdist Hn Htotal. unfold hydrogen_bonds. cbv zeta.
  destruct (hydrogen_bonds_loop_Ok (dist traj) dist_thr occupancy_thr (n_frames traj)
              (h_bonds traj) (HbState [("frames", Range (n_frames traj))] 0 0 0))
    as (st & Hloop & _); [done|done|by repeat constructor|].
  rewrite Hloop. simpl.
  destruct (hydrogen_bonds_loop_used _ _ _ _ _ _ _ Hloop) as (used & _ & Hsum & Hzero).
  simpl in Hsum, Hzero. fold (candidates traj) in Hsum, Hzero.
  assert (used = 0%Z ↔
          ∀ key, key ∈ candidates traj →
                 Re.well_formed pattern_contact key ∧
                 ¬ retained traj dist_thr occupancy_thr pattern_contact key) as Hiff.
  { rewrite Hzero. split.
    - intros H key Hkey. split.
      + apply list_elem_of_lookup in Hkey as [j Hj].
        apply ReFacts.search_Some. by apply (H j).
      + intros (i & Hi & Hp). by apply (H i key).
    - intros H j key Hj.
      assert (key ∈ candidates traj) as Hkey by (by eapply list_elem_of_lookup_2).
      destruct (H key Hkey) as [Hwf Hnr]. split; [by apply ReFacts.search_Some|].
      intros Hp. apply Hnr. by exists j. }
  rewrite <-Hiff. case_decide as Hused; [split; [lia|done]|].
  split; [|lia]. intros Hexit. exfalso. revert Hexit.
  destruct (sort_contacts _ _) as [ordered|e] eqn:Hsort; simpl.
  - destruct (pd_DataFrame _) as [df0|e] eqn:Hdf; simpl.
    + destruct (select_columns _ _) as [df|e] eqn:Hsel; [done|].
      apply select_columns_Raise in Hsel as [k ->]. done.
    + revert Hdf. unfold pd_DataFrame.
      destruct (data_hydrogen_bonds st) as [|[k c] rest]; [done|].
      case_decide; [done|]. by intros [= <-].
  - revert Hsort. unfold sort_contacts.
    destruct (sort_contacts_scan _ _ _ _) as [[]|e'] eqn:Hscan; simpl; [done|].
    apply sort_contacts_scan_contact_Raise in Hscan as [-> _]. by intros [= <-].
Qed.

Lemma hydrogen_bonds_exit_0_witness :
  hydrogen_bonds
    (HbondAnalysis 2 ["total_solute_hbonds"; "ASP2_OD1-ASP2_N-H"; "GLY1_O-LYS4_N-H"]
       [[1; 1]; [9; 9]]%float) 3 20 pattern_contact
  = Raise (SystemExit 0).
Proof.
  apply hydrogen_bonds_exit_0.
  - intros [|[|[|i]]] key [= <-]; by eexists.
  - simpl. lia.
  - reflexivity.
  - intros key Hkey. split.
    + apply ReFacts.search_Some.
      apply elem_of_cons in Hkey as [->|Hkey]; [by vm_compute; eexists|].
      apply list_elem_of_singleton in Hkey as ->. by vm_compute; eexists.
    + intros (i & Hi & d & donor & acceptor & Hd & (m & Hm & Hg2 & Hg4) & Hne & Hleb).
      destruct i as [|[|i]]; simpl in Hi; [| |done]; injection Hi as <-;
        simpl in Hd; injection Hd as <-.
      * vm_compute in Hm. injection Hm as <-. vm_compute in Hg2, Hg4. congruence.
      * vm_compute in Hleb. done.
Defined.

(** The table [hydrogen_bonds] returns, column by column. *)
Lemma hydrogen_bonds_frame traj dist_thr occupancy_thr df :
  hydrogen_bonds traj dist_thr occupancy_thr pattern_contact = Ok df →
  dict_get "frames" df = Some (Range (n_frames traj)) ∧
  (∀ key c, dict_get key df = Some c → series_len c = n_frames traj) ∧
  (∀ key, key ∈ drop 1 (columns df) →
     ∃ i d, candidates traj !! i = Some key ∧ dist traj !! i = Some d ∧
            passes (dist traj) dist_thr occupancy_thr pattern_contact i key ∧
            d ≠ [] ∧ dict_get key df = Some (Floats d)).
Proof.
  intros Hhb.
  destruct (hydrogen_bonds_columns _ _ _ _ Hhb) as (contacts & Hcols & _ & Hnd & _).
  revert Hhb. unfold hydrogen_bonds. cbv zeta.
  destruct (hydrogen_bonds_loop _ _ _ _ _ _) as [st|] eqn:Hloop; simpl; [|done].
  case_decide; [done|].
  destruct (sort_contacts _ _) as [ordered|] eqn:Hsort; simpl; [|done].
  destruct (pd_DataFrame _) as [df0|] eqn:Hdf; simpl; [|done].
  pose proof (pd_DataFrame_Ok _ _ Hdf) as ->.
  intros Hsel.
  pose proof (select_columns_columns _ _ _ Hsel) as Hnames. rewrite Hcols in Hnames.
  assert (∀ key, key ∈ columns df →
            dict_get key df = dict_get key (data_hydrogen_bonds st)) as Hget.
  { intros key Hkey. apply (select_columns_get _ _ _ _ Hsel). rewrite <-Hnames.
    by rewrite <-Hcols. }
  assert (∀ key c, dict_get key df = Some c → key ∈ columns df) as Hin.
  { intros key c Hc%dict_get_elem. unfold columns, dict_keys.
    apply list_elem_of_fmap. by exists (key, c). }
  assert (∀ key c, dict_get key (data_hydrogen_bonds st) = Some c →
            c = Range (n_frames traj) ∧ key = "frames" ∨
            ∃ j d, candidates traj !! j = Some key ∧
                   passes (dist traj) dist_thr occupancy_thr pattern_contact j key ∧
                   dist traj !! j = Some d ∧ d ≠ [] ∧ c = Floats d) as Hdata.
  { intros key c Hc.
    destruct (hydrogen_bonds_loop_data _ _ _ _ _ _ _ _ _ Hloop Hc)
      as [Hinit|(j & d & Hj & Hp & Hd & Hne & ->)].
    - left. simpl in Hinit. case_decide; [|done]. by injection Hinit as <-.
    - right. by exists j, d. }
  assert (∃ l, data_hydrogen_bonds st = ("frames", Range (n_frames traj)) :: l)
    as [l Hst].
  { apply hydrogen_bonds_loop_spec in Hloop as (_ & _ & _ & Hhd).
    destruct (Hhd "frames" [] eq_refl) as [rest Hrest].
    destruct (data_hydrogen_bonds st) as [|[k0 c0] l]; [done|].
    simpl in Hrest. injection Hrest as -> _. exists l. f_equal. f_equal.
    assert (dict_get "frames" (("frames", c0) :: l) = Some c0) as Hc0 by done.
    destruct (Hdata "frames" c0 Hc0) as [[-> _]|(j & d & _ & Hp & _)]; [done|].
    destruct Hp as (_ & donor & acceptor & _ & [? _]%positions_contact & _). done. }
  rewrite Hst in *.
  split; [|split].
  - rewrite Hget by (rewrite Hcols; apply list_elem_of_here). done.
  - intros key c Hc. rewrite Hget in Hc by eauto.
    pose proof (pd_DataFrame_lengths _ _ _ Hdf) as Hlen.
    rewrite Forall_forall in Hlen. apply dict_get_elem in Hc.
    by apply (Hlen (key, c)).
  - intros key Hkey. rewrite Hcols in Hkey. simpl in Hkey. rewrite drop_0 in Hkey.
    assert (key ∈ columns df) as Hk by (rewrite Hcols; by apply list_elem_of_further).
    destruct (dict_get_keys key df Hk) as [c Hc].
    pose proof Hc as Hc'. rewrite Hget in Hc' by done.
    destruct (Hdata _ _ Hc') as [[_ ->]|(j & d & Hj & Hp & Hd & Hne & ->)].
    + by apply NoDup_cons in Hnd as [? _].
    + by exists j, d.
Qed.

(** X11.  In the table [hydrogen_bonds] returns, the column ["frames"] is
    [range(n_frames)], every column has [n_frames] entries, and each contact
    column holds the row of [dist] of a candidate of that name that passes
    the two filters. *)
Theorem hydrogen_bonds_table traj dist_thr occupancy_thr df :
  hydrogen_bonds traj dist_thr occupancy_thr pattern_contact = Ok df →
  dict_get "frames" df = Some (Range (n_frames traj)) ∧
  (∀ key c, dict_get key df = Some c → series_len c = n_frames traj) ∧
  (∀ key, key ∈ drop 1 (columns df) →
     ∃ i d, candidates traj !! i = Some key ∧ dist traj !! i = Some d ∧
            passes (dist traj) dist_thr occupancy_thr pattern_contact i key ∧
            dict_get key df = Some (Floats d)).
Proof.
  intros (Hf & Hlen & Hcols)%hydrogen_bonds_frame. split; [done|]. split; [done|].
  intros key (i & d & ? & ? & ? & _ & ?)%Hcols. by exists i, d.
Qed.

Lemma hydrogen_bonds_table_witness :
  hydrogen_bonds sample_traj 3 20 pattern_contact = Ok sample_contacts ∧
  dict_get "frames" sample_contacts = Some (Range 4) ∧
  ∀ key c, dict_get key sample_contacts = Some c → series_len c = 4.
Proof.
  assert (hydrogen_bonds sample_traj 3 20 pattern_contact = Ok sample_contacts) as H.
  { vm_compute. reflexivity. }
  split; [exact H|].
  destruct (hydrogen_bonds_table sample_traj 3 20 sample_contacts H) as (Hf & Hlen & _).
  split; [exact Hf|exact Hlen].
Defined.


(** X12.  When the rows of [dist] are empty (a trajectory without frames)
    and some candidate names two different residue positions,
    [hydrogen_bonds] raises [ZeroDivisionError]. *)
Theorem hydrogen_bonds_no_frames traj dist_thr occupancy_thr key donor acceptor :
  (∀ i k, candidates traj !! i = Some k → dist traj !! i = Some []) →
  key ∈ candidates traj →
  positions pattern_contact key donor acceptor → donor ≠ acceptor →
  hydrogen_bonds traj dist_thr occupancy_thr pattern_contact = Raise ZeroDivisionError.
Proof.
  intros Hdist Hkey Hpos Hne. unfold hydrogen_bonds. cbv zeta.
  by rewrite (hydrogen_bonds_loop_no_frames _ _ _ _ _ key donor acceptor).
Qed.

Lemma hydrogen_bonds_no_frames_witness :
  hydrogen_bonds empty_traj 3 20 pattern_contact = Raise ZeroDivisionError.
Proof.
  apply (hydrogen_bonds_no_frames empty_traj 3 20 "SER9_O-ALA3_N-H" "9" "3").
  - intros [|[|i]] k [= <-]; reflexivity.
  - apply list_elem_of_further, list_elem_of_here.
  - exists ["SER"; "9"; "ALA"; "3"]. repeat split; vm_compute; reflexivity.
  - discriminate.
Defined.

Lemma hydrogen_bonds_returns_witness :
  (∃ df, hydrogen_bonds sample_traj 3 20 pattern_contact = Ok df) ∨
  hydrogen_bonds sample_traj 3 20 pattern_contact = Raise (SystemExit 0).
Proof.
  apply hydrogen_bonds_returns.
  - intros [|[|[|[|i]]]] key [= <-]; by eexists.
  - simpl. lia.
Defined.

(** ** contacts_csv *)

Section contacts_csv_table.
Context (mean median : list float → result float) (round2 : float → float).
Context (pattern : Re.regex).

Local Abbreviation shape c0 c1 c2 c3 c4 c5 c6 c7 c8 :=
  ([("contact", c0); ("donor position", c1); ("donor residue", c2);
    ("acceptor position", c3); ("acceptor residue", c4);
    ("2nd_half_MD_mean_distance", c5); ("2nd_half_MD_median_distance", c6);
    ("whole_MD_mean_distance", c7); ("whole_MD_median_distance", c8)]
   : dict string (list value)).

Lemma iloc_from_get k df key :
  dict_get key (iloc_from k df)
  = (λ c, Floats (drop k (series_values c))) <$> dict_get key df.
Proof.
  unfold iloc_from. induction df as [|[k' c'] df IH]; csimpl; [done|].
  case_decide; [done|]. exact IH.
Qed.

Lemma stats_columns_snoc rows row :
  stats_columns (rows ++ [row])
  = shape ((Str ∘ cs_contact <$> rows) ++ [Str (cs_contact row)])
      ((Str ∘ cs_donor_position <$> rows) ++ [Str (cs_donor_position row)])
      ((Str ∘ cs_donor_residue <$> rows) ++ [Str (cs_donor_residue row)])
      ((Str ∘ cs_acceptor_position <$> rows) ++ [Str (cs_acceptor_position row)])
      ((Str ∘ cs_acceptor_residue <$> rows) ++ [Str (cs_acceptor_residue row)])
      ((Num ∘ cs_half_mean <$> rows) ++ [Num (cs_half_mean row)])
      ((Num ∘ cs_half_median <$> rows) ++ [Num (cs_half_median row)])
      ((Num ∘ cs_whole_mean <$> rows) ++ [Num (cs_whole_mean row)])
      ((Num ∘ cs_whole_median <$> rows) ++ [Num (cs_whole_median row)]).
Proof. unfold stats_columns. by rewrite !fmap_app. Qed.

(** One turn of the loop on a table of the nine columns. *)
Lemma contacts_csv_step_shape df c0 c1 c2 c3 c4 c5 c6 c7 c8 contact_id :
  contacts_csv_step mean median round2 df (iloc_from (frame_len df / 2) df) pattern
    (shape c0 c1 c2 c3 c4 c5 c6 c7 c8) contact_id
  = match Re.search pattern contact_id with
    | Some m =>
        g2 ← Re.group m 2; g1 ← Re.group m 1; g4 ← Re.group m 4; g3 ← Re.group m 3;
        c ← of_option (KeyError contact_id) (dict_get contact_id df);
        hm ← mean (drop (frame_len df / 2) (series_values c));
        hd ← median (drop (frame_len df / 2) (series_values c));
        wm ← mean (series_values c);
        wd ← median (series_values c);
        Ok (shape (c0 ++ [Str contact_id]) (c1 ++ [Str g2]) (c2 ++ [Str g1])
              (c3 ++ [Str g4]) (c4 ++ [Str g3]) (c5 ++ [Num (round2 hm)])
              (c6 ++ [Num (round2 hd)]) (c7 ++ [Num (round2 wm)])
              (c8 ++ [Num (round2 wd)]))
    | None => Raise (KeyError "acceptor_residue")
    end.
Proof.
  unfold contacts_csv_step.
  change (data_append "contact" (Str contact_id) (shape c0 c1 c2 c3 c4 c5 c6 c7 c8))
    with (Ok (shape (c0 ++ [Str contact_id]) c1 c2 c3 c4 c5 c6 c7 c8)).
  destruct (Re.search pattern contact_id) as [m|]; [|reflexivity].
  cbn [mbind result_bind Py.bind].
  destruct (Re.group m 2) as [g2|]; [|reflexivity].
  destruct (Re.group m 1) as [g1|]; [|reflexivity].
  destruct (Re.group m 4) as [g4|]; [|reflexivity].
  destruct (Re.group m 3) as [g3|]; [|reflexivity].
  rewrite iloc_from_get.
  destruct (dict_get contact_id df) as [c|]; [|reflexivity].
  change (series_values (Floats ?l)) with l.
  unfold mbind, result_bind, Py.bind, of_option, fmap, option_fmap, option_map.
  change (series_values (Floats ?l)) with l.
  destruct (mean (drop _ _)) as [hm|]; [|reflexivity].
  destruct (median (drop _ _)) as [hd|]; [|reflexivity].
  destruct (mean (series_values c)) as [wm|]; [|reflexivity].
  destruct (median (series_values c)) as [wd|]; reflexivity.
Qed.

Local Abbreviation step df :=
  (contacts_csv_step mean median round2 df (iloc_from (frame_len df / 2) df) pattern).
Local Abbreviation loop df :=
  (contacts_csv_loop mean median round2 df (iloc_from (frame_len df / 2) df) pattern).
Local Abbreviation describes_row := (describes mean median round2).

Lemma contacts_csv_step_rows df rows0 contact_id :
  (∃ row, describes_row df pattern contact_id row ∧
          step df (stats_columns rows0) contact_id = Ok (stats_columns (rows0 ++ [row]))) ∨
  ((∃ e, step df (stats_columns rows0) contact_id = Raise e) ∧
   ∀ row, ¬ describes_row df pattern contact_id row).
Proof.
  unfold stats_columns at 1 3. rewrite contacts_csv_step_shape.
  assert (∀ (P : Prop) e, P →
            (∃ row, describes_row df pattern contact_id row ∧
                    @Raise (dict string (list value)) e
                    = Ok (stats_columns (rows0 ++ [row]))) ∨
            ((∃ e', @Raise (dict string (list value)) e = Raise e') ∧ P)) as Hfail.
  { intros P e HP. right. split; [by eexists|done]. }
  destruct (Re.search pattern contact_id) as [m|] eqn:Hm.
  2:{ apply Hfail. intros row (m' & c' & x1 & x2 & x3 & x4 & H); destruct_and!; congruence. }
  destruct (Re.group m 2) as [g2|] eqn:Hg2; cbn [mbind result_bind Py.bind of_option].
  2:{ apply Hfail. intros row (m' & c' & x1 & x2 & x3 & x4 & H); destruct_and!; congruence. }
  destruct (Re.group m 1) as [g1|] eqn:Hg1; cbn [mbind result_bind Py.bind of_option].
  2:{ apply Hfail. intros row (m' & c' & x1 & x2 & x3 & x4 & H); destruct_and!; congruence. }
  destruct (Re.group m 4) as [g4|] eqn:Hg4; cbn [mbind result_bind Py.bind of_option].
  2:{ apply Hfail. intros row (m' & c' & x1 & x2 & x3 & x4 & H); destruct_and!; congruence. }
  destruct (Re.group m 3) as [g3|] eqn:Hg3; cbn [mbind result_bind Py.bind of_option].
  2:{ apply Hfail. intros row (m' & c' & x1 & x2 & x3 & x4 & H); destruct_and!; congruence. }
  destruct (dict_get contact_id df) as [c|] eqn:Hc; cbn [mbind result_bind Py.bind of_option].
  2:{ apply Hfail. intros row (m' & c' & x1 & x2 & x3 & x4 & H); destruct_and!; congruence. }
  destruct (mean (drop _ _)) as [hm|] eqn:Hhm; cbn [mbind result_bind Py.bind of_option].
  2:{ apply Hfail. intros row (m' & c' & x1 & x2 & x3 & x4 & H); destruct_and!; congruence. }
  destruct (median (drop _ _)) as [hd|] eqn:Hhd; cbn [mbind result_bind Py.bind of_option].
  2:{ apply Hfail. intros row (m' & c' & x1 & x2 & x3 & x4 & H); destruct_and!; congruence. }
  destruct (mean (series_values c)) as [wm|] eqn:Hwm; cbn [mbind result_bind Py.bind of_option].
  2:{ apply Hfail. intros row (m' & c' & x1 & x2 & x3 & x4 & H); destruct_and!; congruence. }
  destruct (median (series_values c)) as [wd|] eqn:Hwd; cbn [mbind result_bind Py.bind of_option].
  2:{ apply Hfail. intros row (m' & c' & x1 & x2 & x3 & x4 & H); destruct_and!; congruence. }
  left.
  exists (ContactStats contact_id g2 g1 g4 g3 (round2 hm) (round2 hd) (round2 wm) (round2 wd)).
  split.
  - exists m, c, hm, hd, wm, wd. by repeat split.
  - by rewrite stats_columns_snoc.
Qed.

Lemma describes_fun df contact_id row row' :
  describes_row df pattern contact_id row → describes_row df pattern contact_id row' →
  row = row'.
Proof.
  intros (m & c & x1 & x2 & x3 & x4 & H) (m' & c' & y1 & y2 & y3 & y4 & H').
  destruct_and!. destruct row, row'; simpl in *. simplify_eq. congruence.
Qed.

Lemma contacts_csv_loop_rows df contact_ids rows0 data :
  loop df contact_ids (stats_columns rows0) = Ok data ↔
  ∃ rows, Forall2 (describes_row df pattern) contact_ids rows ∧
          data = stats_columns (rows0 ++ rows).
Proof.
  revert rows0. induction contact_ids as [|contact_id ids IH]; intros rows0.
  - simpl. split.
    + intros [= <-]. exists []. by rewrite app_nil_r.
    + intros (rows & ->%Forall2_nil_inv_l & ->). by rewrite app_nil_r.
  - cbn [contacts_csv_loop].
    destruct (contacts_csv_step_rows df rows0 contact_id)
      as [(row & Hrow & ->)|[[e ->] Hno]]; cbn [mbind result_bind Py.bind].
    + rewrite IH. split.
      * intros (rows & Hrows & ->). exists (row :: rows).
        split; [by constructor|]. by rewrite <-app_assoc.
      * intros (rows & Hrows & ->).
        apply Forall2_cons_inv_l in Hrows as (row' & rows' & Hrow' & Hrows' & ->).
        rewrite (describes_fun _ _ _ _ Hrow Hrow'). exists rows'.
        split; [done|]. by rewrite <-app_assoc.
    + split; [done|]. intros (rows & Hrows & _).
      apply Forall2_cons_inv_l in Hrows as (row' & _ & Hrow' & _). by apply Hno in Hrow'.
Qed.

End contacts_csv_table.

(** X13.  [contacts_csv] returns a table exactly when every contact column
    of [df] has a row describing it (its name contains a match of the
    pattern, and the means and medians of the column and of its second half
    are defined), and the table then holds these rows, one for each contact
    column, in the order of the columns. *)
Theorem contacts_csv_rows (mean median : list float → result float)
    (round2 : float → float) (pattern : Re.regex) (df : frame)
    (data : dict string (list value)) :
  contacts_csv mean median round2 df pattern = Ok data ↔
  ∃ rows, Forall2 (describes mean median round2 df pattern) (drop 1 (columns df)) rows ∧
          data = stats_columns rows.
Proof. apply (contacts_csv_loop_rows mean median round2 pattern df _ []). Qed.

Lemma Forall2_exists {A B : Type} (R : A → B → Prop) (l : list A) :
  (∀ x, x ∈ l → ∃ y, R x y) → ∃ k, Forall2 R l k.
Proof.
  induction l as [|x l IH]; intros Hl; [by exists []|].
  destruct (Hl x) as [y Hy]; [apply list_elem_of_here|].
  destruct IH as [k Hk]; [intros x' ?; by apply Hl, list_elem_of_further|].
  exists (y :: k). by constructor.
Qed.

Lemma sample_mean_total l : l ≠ [] → ∃ x, sample_mean l = Ok x.
Proof. destruct l; [done|]. by eexists. Qed.

Lemma sample_median_total l : l ≠ [] → ∃ x, sample_median l = Ok x.
Proof.
  intros Hl. unfold sample_median. cbv zeta.
  set (sorted := merge_sort _ l).
  assert (length sorted = length l) as Hlen.
  { unfold sorted. by rewrite merge_sort_Permutation. }
  assert (0 < length l) as Hpos by (destruct l; [done|simpl; lia]).
  destruct (lookup_lt_is_Some_2 sorted (length l / 2)) as [hi ->].
  { rewrite Hlen. apply Nat.div_lt; lia. }
  destruct (Nat.even (length l)); [|by eexists].
  destruct (lookup_lt_is_Some_2 sorted (length l / 2 - 1)) as [lo ->]; [|by eexists].
  rewrite Hlen. pose proof (Nat.div_lt (length l) 2). lia.
Qed.

(** X14.  With a mean and a median that are defined on every non-empty
    list, [contacts_csv] returns a table on every table [hydrogen_bonds]
    returns: one row for each contact column, in order, whose two positions
    are strings of digits that differ.  The branch that writes
    ["not found"] is never taken there. *)
Theorem contacts_csv_after_hydrogen_bonds (mean median : list float → result float)
    (round2 : float → float) traj dist_thr occupancy_thr df :
  (∀ l, l ≠ [] → ∃ x, mean l = Ok x) →
  (∀ l, l ≠ [] → ∃ x, median l = Ok x) →
  hydrogen_bonds traj dist_thr occupancy_thr pattern_contact = Ok df →
  ∃ rows,
    contacts_csv mean median round2 df pattern_contact = Ok (stats_columns rows) ∧
    cs_contact <$> rows = drop 1 (columns df) ∧
    Forall (λ row, digits (cs_donor_position row) ∧ digits (cs_acceptor_position row) ∧
                   cs_donor_position row ≠ cs_acceptor_position row) rows.
Proof.
  intros Hmean Hmedian Hhb.
  destruct (hydrogen_bonds_columns _ _ _ _ Hhb) as (contacts & Hcols & _).
  destruct (hydrogen_bonds_frame _ _ _ _ Hhb) as (Hframes & Hlen & Hdata).
  assert (frame_len df = n_frames traj) as Hn.
  { unfold columns, dict_keys in Hcols. destruct df as [|[k0 c0] df]; [done|].
    simpl in Hcols. injection Hcols as -> _. simpl in Hframes. simpl.
    by injection Hframes as ->. }
  destruct (Forall2_exists (describes mean median round2 df pattern_contact)
              (drop 1 (columns df))) as [rows Hrows].
  { intros key (i & d & _ & _ & Hp & Hne & Hget)%Hdata.
    destruct Hp as (_ & donor & acceptor & _ & (m & Hm & Hg2 & Hg4) & _).
    destruct (pattern_contact_groups _ _ Hm) as (g1 & g2 & g3 & g4 & -> & _).
    assert (length d = n_frames traj) as Hd by apply (Hlen _ _ Hget).
    destruct (Hmean (drop (frame_len df / 2) d)) as [hm Hhm].
    { rewrite Hn, <-Hd. intros Hnil. apply (second_half_nonempty d Hne).
      unfold second_half. by rewrite Hnil. }
    destruct (Hmedian (drop (frame_len df / 2) d)) as [hd Hhd].
    { rewrite Hn, <-Hd. intros Hnil. apply (second_half_nonempty d Hne).
      unfold second_half. by rewrite Hnil. }
    destruct (Hmean d Hne) as [wm Hwm]. destruct (Hmedian d Hne) as [wd Hwd].
    exists (ContactStats key g2 g1 g4 g3 (round2 hm) (round2 hd) (round2 wm) (round2 wd)).
    exists [g1; g2; g3; g4], (Floats d), hm, hd, wm, wd. by repeat split. }
  exists rows. split; [|split].
  - apply (contacts_csv_loop_rows mean median round2 pattern_contact df _ []). by exists rows.
  - clear -Hrows. induction Hrows as [|key row ids rows Hrow _ IH]; [done|].
    csimpl. f_equal; [|done]. by destruct Hrow as (? & ? & ? & ? & ? & ? & ? & _).
  - apply Forall_forall. intros row [i Hi]%list_elem_of_lookup.
    destruct (Forall2_lookup_r _ _ _ _ _ Hrows Hi) as (key & Hkey & Hrow).
    destruct (Hdata key) as (j & d & _ & _ & Hp & _); [by eapply list_elem_of_lookup_2|].
    destruct Hp as (_ & donor & acceptor & _ & Hpos & Hne & _).
    destruct (positions_contact _ _ _ Hpos) as (_ & Hdd & Hda).
    destruct Hrow as (m & _ & _ & _ & _ & _ & _ & Hm & Hg2 & _ & Hg4 & _).
    destruct Hpos as (m' & Hm' & Hg2' & Hg4').
    assert (m' = m) as -> by congruence.
    assert (donor = cs_donor_position row) as <- by congruence.
    assert (acceptor = cs_acceptor_position row) as <- by congruence.
    done.
Qed.

Lemma contacts_csv_after_hydrogen_bonds_witness :
  hydrogen_bonds sample_traj 3 20 pattern_contact = Ok sample_contacts ∧
  ∃ rows,
    contacts_csv sample_mean sample_median (λ x, x) sample_contacts pattern_contact
    = Ok (stats_columns rows) ∧
    cs_contact <$> rows = drop 1 (columns sample_contacts) ∧
    Forall (λ row, digits (cs_donor_position row) ∧ digits (cs_acceptor_position row) ∧
                   cs_donor_position row ≠ cs_acceptor_position row) rows.
Proof.
  assert (hydrogen_bonds sample_traj 3 20 pattern_contact = Ok sample_contacts) as H.
  { vm_compute. reflexivity. }
  split; [exact H|].
  exact (contacts_csv_after_hydrogen_bonds sample_mean sample_median (λ x, x)
           sample_traj 3 20 sample_contacts sample_mean_total sample_median_total H).
Defined.

(** ** reduce_contacts_dataframe on a sorted table *)

Local Abbreviation pair_lt :=
  (λ r r' : stats_row Z,
     (donor_position r < donor_position r')%Z ∨
     (donor_position r = donor_position r' ∧ acceptor_position r < acceptor_position r')%Z).

Lemma StronglySorted_filter {A : Type} (R : relation A) (P : A → Prop)
    `{∀ x, Decision (P x)} (l : list A) :
  StronglySorted R l → StronglySorted R (filter P l).
Proof.
  induction 1 as [|x l _ IH Hx]; [constructor|].
  rewrite filter_cons. case_decide; [|done].
  constructor; [done|]. rewrite Forall_forall in Hx |- *.
  intros y [_ ?]%list_elem_of_filter. by apply Hx.
Qed.

Lemma StronglySorted_lookup_lt {A : Type} (R : relation A) (l : list A) i j x y :
  StronglySorted R l → l !! i = Some x → l !! j = Some y → i < j → R x y.
Proof.
  intros Hl. revert i j. induction Hl as [|z l _ IH Hz]; intros i j Hi Hj Hij; [done|].
  destruct j as [|j]; [lia|]. simpl in Hj. destruct i as [|i]; simpl in Hi.
  - injection Hi as ->. rewrite Forall_forall in Hz. by eapply Hz, list_elem_of_lookup_2.
  - apply (IH i j); [done|done|lia].
Qed.

Lemma group_adjacent_rows rows : group_adjacent rows ≫= block_rows = rows.
Proof.
  induction rows as [|r rows IH]; [done|]. simpl.
  destruct (group_adjacent rows) as [|[r' rest] blocks]; simpl in *.
  - by rewrite <-IH.
  - case_decide; simpl; by rewrite <-IH.
Qed.

Lemma group_adjacent_sorted rows :
  StronglySorted pair_le rows →
  Forall (λ b : block, Forall (same_pair b.1) b.2) (group_adjacent rows) ∧
  StronglySorted (λ b b' : block, pair_lt b.1 b'.1) (group_adjacent rows).
Proof.
  induction 1 as [|r rows _ [IHsame IHsorted] Hr]; [split; constructor|]. simpl.
  pose proof (group_adjacent_rows rows) as Hrows.
  destruct (group_adjacent rows) as [|[r' rest] blocks]; simpl in *.
  - by repeat constructor.
  - assert (pair_le r r') as Hle.
    { rewrite Forall_forall in Hr. apply Hr. rewrite <-Hrows. apply list_elem_of_here. }
    apply Forall_cons in IHsame as [Hrest IHsame]. simpl in Hrest.
    apply StronglySorted_cons in IHsorted as [Hlater IHsorted].
    destruct (decide (same_pair r r')) as [Hsame|Hdiff].
    + split.
      * constructor; [|done]. simpl. constructor; [done|].
        eapply Forall_impl; [exact Hrest|]. unfold same_pair in *. simpl. intros x. lia.
      * constructor; [done|]. eapply Forall_impl; [exact Hlater|].
        unfold same_pair in *. simpl. intros b ?. lia.
    + assert (pair_lt r r') as Hlt.
      { unfold pair_le, same_pair in *. lia. }
      split.
      * constructor; [by constructor|]. by constructor.
      * constructor; [by constructor|]. constructor; [done|].
        eapply Forall_impl; [exact Hlater|]. cbv beta in Hlt. simpl. intros b ?. lia.
Qed.

Lemma group_adjacent_grouped rows :
  StronglySorted pair_le rows → NoDup (label <$> rows) → label_faithful rows →
  grouped rows (group_adjacent rows).
Proof.
  intros [Hsame Hsorted]%group_adjacent_sorted Hlabels Hfaithful.
  pose proof (group_adjacent_rows rows) as Hrows.
  assert (∀ b r, b ∈ group_adjacent rows → r ∈ block_rows b →
                 r ∈ rows ∧ same_pair b.1 r) as Hblock.
  { intros b r Hb Hr. split.
    - rewrite <-Hrows. apply list_elem_of_bind. by exists b.
    - rewrite Forall_forall in Hsame. specialize (Hsame b Hb).
      apply elem_of_cons in Hr as [->|Hr]; [done|].
      rewrite Forall_forall in Hsame. by apply Hsame. }
  split; [done| | |done].
  - intros b r r' Hb [Hr Hs]%(Hblock b); [|done]. intros [Hr' Hs']%(Hblock b); [|done].
    assert (same_pair r r') as Hp by (unfold same_pair in *; lia).
    split; [done|]. by apply Hfaithful.
  - intros i j b b' r r' Hi Hj Hne Hr Hr'.
    apply Hblock in Hr as [Hr Hs]; [|by eapply list_elem_of_lookup_2].
    apply Hblock in Hr' as [Hr' Hs']; [|by eapply list_elem_of_lookup_2].
    assert (¬ same_pair r r') as Hp.
    { destruct (decide (i < j)).
      - pose proof (StronglySorted_lookup_lt _ _ i j _ _ Hsorted Hi Hj) as Hlt.
        unfold same_pair in *. simpl in Hlt. lia.
      - pose proof (StronglySorted_lookup_lt _ _ j i _ _ Hsorted Hj Hi) as Hlt.
        unfold same_pair in *. simpl in Hlt. lia. }
    split; [done|]. intros Heq. apply Hp. by apply Hfaithful.
Qed.

(** X15.  On a statistics table whose rows are sorted by donor position,
    then acceptor position, as [contacts_csv] writes them, with distinct
    index labels and a pair text that names the pair of positions,
    [reduce_contacts_dataframe] returns one row for each run of rows of one
    pair, in order: the first row of least distance of the run, with the
    length of the run as its ["number contacts"]. *)
Theorem reduce_contacts_dataframe_sorted table rows dist_col limits_roi :
  numeric_table table = Ok rows →
  StronglySorted pair_le rows →
  NoDup (label <$> rows) →
  label_faithful rows →
  reduce_table table dist_col limits_roi
  = Ok (cell_row <$>
          (block_reduced dist_col <$> group_adjacent (restricted limits_roi rows))).
Proof.
  intros Htable Hsorted Hlabels Hfaithful.
  apply (reduce_contacts_dataframe_grouped table rows); [done|].
  assert (restricted limits_roi rows `sublist_of` rows) as Hsub.
  { destruct limits_roi; [apply sublist_filter|done]. }
  apply group_adjacent_grouped.
  - destruct limits_roi; [by apply StronglySorted_filter|done].
  - eapply sublist_NoDup; [exact Hlabels|]. by apply fmap_sublist.
  - intros r r' Hr Hr'. apply Hfaithful; by eapply elem_of_sublist.
Qed.

Lemma reduce_contacts_dataframe_sorted_witness :
  reduce_table adjacent_stats Half_mean None
  = Ok [StatsRow 0 "ALA5_N-GLY10_O-H" (CInt 5) "ALA" (CInt 10) "GLY"
          (21 # 10) (21 # 10) (21 # 10) (21 # 10) (Some 2);
        StatsRow 2 "SER7_OG-THR12_N-H" (CInt 7) "SER" (CInt 12) "THR"
          (25 # 10) (25 # 10) (25 # 10) (25 # 10) (Some 1)].
Proof.
  apply (reduce_contacts_dataframe_sorted adjacent_stats adjacent_rows Half_mean None).
  - vm_compute. reflexivity.
  - repeat constructor; vm_compute; intuition discriminate.
  - apply (bool_decide_unpack _). vm_compute. reflexivity.
  - intros r r' Hr Hr'.
    repeat (apply elem_of_cons in Hr as [->|Hr]); try (by apply elem_of_nil in Hr);
      repeat (apply elem_of_cons in Hr' as [->|Hr']); try (by apply elem_of_nil in Hr');
      vm_compute; split; intros H; try done; try (by destruct H); by repeat split.
Defined.

(** ** Running the aggregator again *)

Lemma coerced_again r r' r'' : coerced r r' → coerced r' r'' → r'' = r'.
Proof.
  intros (d & a & _ & _ & ->) (d' & a' & Hd & Ha & ->).
  simpl in Hd, Ha. injection Hd as <-. injection Ha as <-. done.
Qed.

Lemma Forall2_coerced_again t t' t'' :
  Forall2 coerced t t' → Forall2 coerced t' t'' → t'' = t'.
Proof.
  intros H. revert t''. induction H as [|r r' t t' Hr _ IH]; intros t'' H'.
  - by apply Forall2_nil_inv_l in H'.
  - apply Forall2_cons_inv_l in H' as (r'' & t2 & Hr' & Ht2 & ->).
    f_equal; [by eapply coerced_again|by apply IH].
Qed.

(** The table a run of the aggregator returns is in the store. *)
Lemma reduce_contacts_dataframe_out df dist_col limits_roi σ σ' out :
  reduce_contacts_dataframe df dist_col limits_roi σ = (σ', Ok out) →
  is_Some (σ' !! out).
Proof.
  unfold reduce_contacts_dataframe. unfold mbind at 1. unfold M_bind at 1.
  destruct (coerce_positions df σ) as [σ1 [[]|]]; [|done].
  unfold mbind at 1. unfold M_bind at 1.
  destruct (restrict_to_roi df limits_roi σ1) as [σ2 [df1|]]; [|done].
  unfold mbind, M_bind, read, lift, alloc, write, mret, M_ret.
  destruct (σ2 !! df1) as [rows1|]; simpl; [|done].
  destruct (numeric_rows rows1) as [rows|]; simpl; [|done].
  destruct (reduce_loop rows dist_col rows _) as [st|]; simpl; [|done].
  rewrite lookup_insert_eq. simpl.
  destruct (assign _ _ _) as [rows2|]; simpl; [|done].
  intros [= <- <-]. rewrite lookup_insert_eq. by eexists.
Qed.

(** X17.  A second run of [reduce_contacts_dataframe] on the same table,
    with any distance column and any ROI, leaves the caller's table as the
    first run left it and leaves the table the first run returned
    untouched; its result is a new table. *)
Theorem reduce_contacts_dataframe_again df dist_col limits_roi dist_col' limits_roi'
    σ σ1 out σ2 out' :
  reduce_contacts_dataframe df dist_col limits_roi σ = (σ1, Ok out) →
  reduce_contacts_dataframe df dist_col' limits_roi' σ1 = (σ2, Ok out') →
  σ2 !! df = σ1 !! df ∧ σ2 !! out = σ1 !! out ∧ is_Some (σ1 !! out) ∧
  out' ≠ out ∧ out' ≠ df.
Proof.
  intros Hrun Hrun'.
  pose proof (reduce_contacts_dataframe_out _ _ _ _ _ _ Hrun) as Hout.
  apply reduce_contacts_dataframe_store
    in Hrun as (t & t1 & _ & Hco & Hdf1 & Hne & _ & _).
  apply reduce_contacts_dataframe_store
    in Hrun' as (t1' & t2 & Hdf1' & Hco' & Hdf2 & Hne' & Hfresh & Hothers).
  assert (t1' = t1) as -> by congruence.
  rewrite (Forall2_coerced_again _ _ _ Hco Hco') in Hdf2.
  split; [congruence|]. split; [by apply Hothers|]. split; [done|].
  split; [|done]. intros ->. rewrite Hfresh in Hout. by destruct Hout.
Qed.

Lemma reduce_contacts_dataframe_again_witness :
  let σ1 := (reduce_contacts_dataframe 1%positive Half_mean None sample_store).1 in
  let σ2 := (reduce_contacts_dataframe 1%positive Whole_median None σ1).1 in
  σ2 !! 1%positive = σ1 !! 1%positive ∧ σ2 !! 2%positive = σ1 !! 2%positive ∧
  is_Some (σ1 !! 2%positive) ∧ 3%positive ≠ 2%positive ∧ 3%positive ≠ 1%positive.
Proof.
  intros σ1 σ2.
  apply (reduce_contacts_dataframe_again 1%positive Half_mean None Whole_median None
           sample_store σ1 2%positive σ2 3%positive).
  - vm_compute. reflexivity.
  - vm_compute. reflexivity.
Defined.

(** ** A region of interest without donors *)

(** X18.  When the ROI has [max < min] (which [check_limits] accepts) or
    when no donor position lies in the ROI, [heat_map_contacts] computes
    matrices without rows and without columns, with factor 1, and raises
    nothing. *)
Theorem heat_map_contacts_outside_roi df (σ : store) table rows distances_col limits roi :
  σ !! df = Some table →
  numeric_table table = Ok rows →
  l_roi limits = Some roi →
  (b_max roi < b_min roi)%Z ∨ (∀ r, r ∈ rows → ¬ between roi (donor_position r)) →
  (heat_map_contacts df distances_col limits σ).2
  = Ok (HeatMap (Matrix [] [] []) (Matrix [] [] []) 1).
Proof.
  intros Hdf Htable Hroi Hout.
  assert (restricted (Some roi) rows = []) as Hnone.
  { apply filter_none. intros r Hr. destruct Hout as [Hlt|Hout]; [|by apply Hout].
    unfold between. lia. }
  destruct (reduce_contacts_dataframe_run df σ table rows distances_col (Some roi) [])
    as (σ' & out & Hrun & Hres); [done|done| |].
  { rewrite Hnone. split; [done|by intros ? ? ? []%not_elem_of_nil| |constructor].
    intros i j b b' r r' Hi. by rewrite lookup_nil in Hi. }
  unfold heat_map_contacts. rewrite Hroi.
  erewrite M_bind_Ok; [|exact Hrun].
  erewrite M_bind_Ok; [|by apply read_Ok].
  reflexivity.
Qed.

Lemma heat_map_contacts_outside_roi_witness :
  (heat_map_contacts 1%positive Half_mean (Limits None (Some (Bounds 39 35))) sample_store).2
  = Ok (HeatMap (Matrix [] [] []) (Matrix [] [] []) 1).
Proof.
  apply (heat_map_contacts_outside_roi 1%positive sample_store interleaved_stats
           [StatsRow 0 "ALA5_O-GLY10_N-H" 5%Z "ALA" 10%Z "GLY"
              (29 # 10) (29 # 10) (29 # 10) (29 # 10) None;
            StatsRow 1 "SER7_OG-THR12_N-H" 7%Z "SER" 12%Z "THR"
              (25 # 10) (25 # 10) (25 # 10) (25 # 10) None;
            StatsRow 2 "ALA5_N-GLY10_O-H" 5%Z "ALA" 10%Z "GLY"
              (21 # 10) (21 # 10) (21 # 10) (21 # 10) None]
           Half_mean _ (Bounds 39 35)).
  - vm_compute. reflexivity.
  - vm_compute. reflexivity.
  - reflexivity.
  - left. simpl. lia.
Defined.

(** ** The limits in the main block and in the heat maps *)

Lemma check_limits_Ok_inv mask roi limits :
  check_limits mask roi = Ok limits →
  (l_mask limits = None ↔ truthy mask = None) ∧
  (l_roi limits = None ↔ truthy roi = None).
Proof.
  unfold check_limits.
  destruct (truthy mask) as [sm|]; [|destruct (truthy roi) as [sr|]].
  - destruct (Re.search pattern_mask sm) as [cm|]; simpl; [|done].
    destruct (min_max cm) as [bm|]; simpl; [|done].
    destruct (truthy roi) as [sr|]; simpl.
    + destruct (Re.search pattern_roi sr) as [cr|]; simpl; [|done].
      destruct (min_max cr) as [br|]; simpl; [|done].
      repeat case_decide; try done. intros [= <-]. simpl. naive_solver.
    + intros [= <-]. simpl. naive_solver.
  - simpl. destruct (Re.search pattern_roi sr) as [cr|]; simpl; [|done].
    destruct (min_max cr) as [br|]; simpl; [|done].
    intros [= <-]. simpl. naive_solver.
  - intros [= <-]. simpl. naive_solver.
Qed.

(** X20.  When a ROI is given without a mask, and [check_limits] has
    accepted it, the end of the main block raises [KeyError('min')] while it
    builds [hm_text], before any heat map, and leaves the statistics table
    as it is. *)
Theorem main_heat_maps_roi_without_mask mask roi_hm limits stats basename out format
    (σ : store) :
  truthy mask = None → truthy roi_hm ≠ None →
  check_limits mask roi_hm = Ok limits →
  main_heat_maps stats basename mask roi_hm out format limits σ
  = (σ, Raise (KeyError "min")).
Proof.
  intros Hmask Hroi [Hm _]%check_limits_Ok_inv.
  unfold main_heat_maps, hm_text.
  destruct (truthy roi_hm); [|done]. by rewrite (proj2 Hm Hmask).
Qed.

Lemma main_heat_maps_roi_without_mask_witness :
  main_heat_maps 1%positive "md" None (Some "35-39") "results" "svg"
    (Limits None (Some (Bounds 35 39))) sample_store
  = (sample_store, Raise (KeyError "min")).
Proof.
  apply main_heat_maps_roi_without_mask; [reflexivity|discriminate|].
  vm_compute. reflexivity.
Defined.

(** X21.  With ROI limits and no mask limits, [heat_map_contacts] never
    saves a figure: once the matrices are computed (the caller's table has
    been changed by then) the subtitle raises [KeyError('min')]; the drawing
    calls in between are not embedded. *)
Theorem heat_map_contacts_saved_needs_mask df_residues distances_col out_basename mask
    out_dir output_fmt limits roi (σ : store) :
  l_mask limits = None → l_roi limits = Some roi →
  (∃ e, (heat_map_contacts_saved df_residues distances_col out_basename mask out_dir
           output_fmt limits σ).2 = Raise e) ∧
  ∀ σ' heatmap,
    heat_map_contacts df_residues distances_col limits σ = (σ', Ok heatmap) →
    heat_map_contacts_saved df_residues distances_col out_basename mask out_dir
      output_fmt limits σ
    = (σ', Raise (KeyError "min")).
Proof.
  intros Hmask Hroi.
  assert (∀ σ' heatmap,
            heat_map_contacts df_residues distances_col limits σ = (σ', Ok heatmap) →
            heat_map_contacts_saved df_residues distances_col out_basename mask out_dir
              output_fmt limits σ
            = (σ', Raise (KeyError "min"))) as Hsaved.
  { intros σ' heatmap Hrun. unfold heat_map_contacts_saved.
    erewrite M_bind_Ok; [|exact Hrun].
    unfold heat_map_subtitle. by rewrite Hroi, Hmask. }
  split; [|done].
  destruct (heat_map_contacts df_residues distances_col limits σ) as [σ' [heatmap|e]] eqn:Hrun.
  - rewrite (Hsaved σ' heatmap eq_refl). by eexists.
  - exists e. unfold heat_map_contacts_saved, mbind, M_bind. by rewrite Hrun.
Qed.

Lemma heat_map_contacts_saved_needs_mask_witness :
  ∃ e, (heat_map_contacts_saved 1%positive Half_mean "md" None "results" "svg"
          (Limits None (Some (Bounds 5 7))) sample_store).2 = Raise e.
Proof.
  exact (proj1 (heat_map_contacts_saved_needs_mask 1%positive Half_mean "md" None
                  "results" "svg" (Limits None (Some (Bounds 5 7))) (Bounds 5 7)
                  sample_store eq_refl eq_refl)).
Defined.

(** X22.  For limits [check_limits] accepted with a mask and a ROI, the
    main block announces the residues [mask.min + roi.min - 1] to
    [mask.min + roi.max - 1], and the label position of every donor kept by
    the ROI filter lies between these two; the subtitle of the heat map
    announces [mask.min + roi.min] to [mask.min + roi.max], one more at each
    end. *)
Theorem roi_announced mask roi_hm m r :
  check_limits mask roi_hm = Ok (Limits (Some m) (Some r)) →
  hm_text roi_hm (Limits (Some m) (Some r))
  = Ok ("Heat maps contacts on region of interest "
          +:+ pretty (b_min m + b_min r - 1)%Z +:+ " to "
          +:+ pretty (b_min m + b_max r - 1)%Z +:+ ":") ∧
  (∀ rows row, row ∈ select_roi r rows →
     (b_min m + b_min r - 1 ≤ label_position (Some m) (donor_position row)
      ≤ b_min m + b_max r - 1)%Z) ∧
  ∃ subtitle,
    heat_map_subtitle mask (Limits (Some m) (Some r))
    = Ok (subtitle +:+ "   Heatmap focus on donor residues "
            +:+ pretty (b_min m + b_min r)%Z +:+ " to "
            +:+ pretty (b_min m + b_max r)%Z).
Proof.
  intros [_ Hr]%check_limits_Ok_inv. simpl in Hr. split; [|split].
  - unfold hm_text. destruct (truthy roi_hm); [done|]. naive_solver.
  - intros rows row [Hb _]%list_elem_of_filter. unfold between, label_position in *. lia.
  - unfold heat_map_subtitle. simpl. by eexists.
Qed.

Lemma roi_announced_witness :
  hm_text (Some "35-39") (Limits (Some (Bounds 682 850)) (Some (Bounds 35 39)))
  = Ok "Heat maps contacts on region of interest 716 to 720:" ∧
  heat_map_subtitle (Some ":682-850") (Limits (Some (Bounds 682 850)) (Some (Bounds 35 39)))
  = Ok (String "010" "Mask: :682-850   Heatmap focus on donor residues 717 to 721").
Proof.
  destruct (roi_announced (Some ":682-850") (Some "35-39") (Bounds 682 850) (Bounds 35 39))
    as (Htext & _ & subtitle & Hsub).
  { vm_compute. reflexivity. }
  split; [exact Htext|]. vm_compute. reflexivity.
Defined.

(** ** The cells of the heat-map matrices *)

Section dict_app.
Context {K V : Type} `{EqDecision K}.

Lemma dict_get_app_notin (k : K) (d1 d2 : dict K V) :
  k ∉ d1.*1 → dict_get k (d1 ++ d2) = dict_get k d2.
Proof.
  induction d1 as [|[k' v'] d1 IH]; csimpl; [done|].
  intros [? ?]%not_elem_of_cons. rewrite decide_False by done. by apply IH.
Qed.

Lemma dict_set_app_notin (k : K) (v : V) (d1 d2 : dict K V) :
  k ∉ d1.*1 → dict_set k v (d1 ++ d2) = d1 ++ dict_set k v d2.
Proof.
  induction d1 as [|[k' v'] d1 IH]; csimpl; [done|].
  intros [? ?]%not_elem_of_cons. rewrite decide_False by done. by rewrite IH.
Qed.

End dict_app.

Section columns.
Context {V : Type} (cell : Z → Z → option V).

Local Abbreviation filling := (filling cell).
Local Abbreviation filled := (filled cell).

Lemma filling_step missing earlier donor done a todo :
  a ∉ done →
  dict_append missing a (cell donor a)
    (ensure_key a (filling earlier donor done (a :: todo)))
  = Ok (filling earlier donor (done ++ [a]) todo).
Proof.
  intros Ha. unfold filling, ensure_key, dict_append.
  assert (a ∉ ((λ a, (a, (λ d, cell d a) <$> (earlier ++ [donor]))) <$> done).*1) as Hk.
  { by rewrite <-list_fmap_compose, list_fmap_id. }
  rewrite dict_get_app_notin by done.
  destruct (decide (earlier = [])) as [->|Hne]; csimpl.
  - rewrite dict_set_app_notin by done. csimpl.
    rewrite dict_get_app_notin by done. csimpl. rewrite decide_True by done. csimpl.
    rewrite dict_set_app_notin by done. csimpl. rewrite decide_True by done.
    by rewrite fmap_app, app_nil_r.
  - rewrite decide_True by done. rewrite dict_get_app_notin by done. csimpl.
    rewrite decide_True by done. csimpl.
    rewrite dict_set_app_notin by done. csimpl. rewrite decide_True by done.
    f_equal. rewrite (fmap_app _ done [a]), <-app_assoc. f_equal. csimpl.
    by rewrite fmap_app.
Qed.

Lemma filling_end earlier donor acceptors :
  filling earlier donor acceptors [] = filled (earlier ++ [donor]) acceptors.
Proof.
  unfold filling, filled.
  rewrite (decide_False (P := earlier ++ [donor] = [])) by (by intros [_ ?]%app_eq_nil).
  case_decide; by rewrite app_nil_r.
Qed.

End columns.

Section matrix_cells.
Context (df : list (stats_row Z)) (dist_col : metric) (limits_mask : option bounds).

Local Abbreviation distance_at :=
  (λ d a : Z, distance dist_col <$> contact_at df d a).
Local Abbreviation count_at :=
  (λ d a : Z, contact_at df d a ≫= number_contacts).

Lemma matrix_row_cells earlier donor done todo st st' :
  NoDup (done ++ todo) →
  distances st = filling distance_at earlier donor done todo →
  nb_contacts st = filling count_at earlier donor done todo →
  matrix_row df dist_col limits_mask donor todo st = Ok st' →
  distances st' = filling distance_at earlier donor (done ++ todo) [] ∧
  nb_contacts st' = filling count_at earlier donor (done ++ todo) [].
Proof.
  revert done st. induction todo as [|a todo IH]; intros done st Hnd Hd Hn; simpl.
  - intros [= <-]. by rewrite app_nil_r.
  - destruct (matrix_cell _ _ _ _ st a) as [st1|] eqn:Hcell; simpl; [|done].
    assert (a ∉ done) as Ha.
    { apply NoDup_app in Hnd as (_ & Hnd & _). intros Hin. apply (Hnd a Hin).
      apply list_elem_of_here. }
    revert Hcell. unfold matrix_cell.
    destruct (acceptor_label limits_mask df a) as [acceptor|]; simpl; [|done].
    rewrite Hd, Hn. fold (contact_at df donor a).
    pose proof (filling_step distance_at (KeyError "distances") earlier donor done a
                  todo Ha) as Hsd.
    pose proof (filling_step count_at (KeyError "nb_contacts") earlier donor done a
                  todo Ha) as Hsn.
    cbv beta in Hsd, Hsn. rewrite Hsd. simpl.
    case_decide; simpl; [|done].
    rewrite Hsn. simpl.
    intros [= <-] Hrow.
    replace (done ++ a :: todo) with ((done ++ [a]) ++ todo) by (by rewrite <-app_assoc).
    eapply (IH (done ++ [a])); [by rewrite <-app_assoc| | |exact Hrow]; done.
Qed.

Lemma matrix_rows_cells earlier donors acceptor_positions st st' :
  NoDup acceptor_positions →
  distances st = filled distance_at earlier acceptor_positions →
  nb_contacts st = filled count_at earlier acceptor_positions →
  matrix_rows df dist_col limits_mask donors acceptor_positions st = Ok st' →
  distances st' = filled distance_at (earlier ++ donors) acceptor_positions ∧
  nb_contacts st' = filled count_at (earlier ++ donors) acceptor_positions.
Proof.
  intros Hnd. revert earlier st. induction donors as [|d donors IH]; intros earlier st Hd Hn; simpl.
  - intros [= <-]. by rewrite app_nil_r.
  - destruct (donor_label limits_mask df d) as [donor|]; simpl; [|done].
    destruct (matrix_row _ _ _ _ _ _) as [st1|] eqn:Hrow; simpl; [|done].
    apply (matrix_row_cells earlier d [] acceptor_positions) in Hrow as [Hd1 Hn1];
      [|done|done|done].
    simpl in Hd1, Hn1. rewrite filling_end in Hd1. rewrite filling_end in Hn1.
    intros Hrows.
    replace (earlier ++ d :: donors) with ((earlier ++ [d]) ++ donors)
      by (by rewrite <-app_assoc).
    by apply (IH (earlier ++ [d]) st1).
Qed.

End matrix_cells.

Lemma sorted_unique_NoDup column : NoDup (sorted_unique column).
Proof. unfold sorted_unique. rewrite merge_sort_Permutation. apply NoDup_remove_dups. Qed.

Lemma sorted_unique_nil column : sorted_unique column = [] → column = [].
Proof.
  intros Hnil. destruct column as [|z column]; [done|].
  assert (z ∈ sorted_unique (z :: column)) as Hz.
  { apply sorted_unique_elem, list_elem_of_here. }
  rewrite Hnil in Hz. by apply elem_of_nil in Hz.
Qed.

Lemma filled_data {V : Type} (cell : Z → Z → option V) donors acceptors :
  (donors = [] → acceptors = []) →
  (filled cell donors acceptors).*2 = cells cell donors acceptors.
Proof.
  intros Hnil. unfold filled, cells. case_decide as Hd.
  - by rewrite (Hnil Hd).
  - by rewrite <-list_fmap_compose.
Qed.

Lemma labelled_matrix_inv {V : Type} (d : dict Z (list (option V))) ds acs m :
  labelled_matrix d ds acs = Ok m →
  m = Matrix ds acs d.*2 ∧
  Forall (λ kc, length kc.2 = length ds) d ∧ length acs = length d.
Proof. unfold labelled_matrix. repeat case_decide; try done. by intros [= <-]. Qed.

(** X19.  In the matrices [get_df_distances_nb_contacts] returns, there is
    one column for each acceptor position and one entry for each donor
    position, both in increasing order; the entry of the distance matrix is
    the distance of the first row of the table with that donor and that
    acceptor, the entry of the other matrix its ["number contacts"], and
    both are empty when the table has no such row. *)
Theorem get_df_distances_nb_contacts_cells df dist_col limits_mask sd sn :
  get_df_distances_nb_contacts df dist_col limits_mask = Ok (sd, sn) →
  m_data sd
  = cells (λ d a, distance dist_col <$> contact_at df d a)
      (sorted_unique (donor_position <$> df)) (sorted_unique (acceptor_position <$> df)) ∧
  m_data sn
  = cells (λ d a, contact_at df d a ≫= number_contacts)
      (sorted_unique (donor_position <$> df)) (sorted_unique (acceptor_position <$> df)) ∧
  length (m_columns sd) = length (sorted_unique (acceptor_position <$> df)) ∧
  (df ≠ [] → length (m_index sd) = length (sorted_unique (donor_position <$> df))).
Proof.
  unfold get_df_distances_nb_contacts. cbv zeta.
  destruct (matrix_rows _ _ _ _ _ _) as [st|] eqn:Hrows; simpl; [|done].
  apply (matrix_rows_cells df dist_col limits_mask []) in Hrows as [Hd Hn];
    [|apply sorted_unique_NoDup|done|done].
  simpl in Hd, Hn.
  assert (sorted_unique (donor_position <$> df) = [] →
          sorted_unique (acceptor_position <$> df) = []) as Hnil.
  { intros H%sorted_unique_nil. apply fmap_nil_inv in H as ->. done. }
  rewrite Hd, Hn.
  destruct (labelled_matrix
              (filled (λ d a, distance dist_col <$> contact_at df d a) _ _) _ _)
    as [md|] eqn:Hmd; simpl; [|done].
  destruct (labelled_matrix
              (filled (λ d a, contact_at df d a ≫= number_contacts) _ _) _ _)
    as [mn|] eqn:Hmn; simpl; [|done].
  apply labelled_matrix_inv in Hmd as (-> & Hlen & Hcols).
  apply labelled_matrix_inv in Hmn as (-> & _ & _).
  intros [= <- <-]. simpl. rewrite !filled_data by done.
  split; [done|]. split; [done|].
  assert (length (filled (λ d a, distance dist_col <$> contact_at df d a)
                    (sorted_unique (donor_position <$> df))
                    (sorted_unique (acceptor_position <$> df)))
          = length (sorted_unique (acceptor_position <$> df))) as Hfl.
  { unfold filled. case_decide as Hds; [by rewrite (Hnil Hds)|]. by rewrite length_fmap. }
  split; [by rewrite Hcols, Hfl|].
  intros Hdf. revert Hlen. unfold filled.
  rewrite decide_False by (intros H%sorted_unique_nil; by apply fmap_nil_inv in H).
  destruct (sorted_unique (acceptor_position <$> df)) as [|a acs] eqn:Hacs.
  { apply sorted_unique_nil, fmap_nil_inv in Hacs. done. }
  csimpl. intros [Ha _]%Forall_cons. simpl in Ha. by rewrite length_fmap in Ha.
Qed.

Lemma get_df_distances_nb_contacts_cells_witness :
  get_df_distances_nb_contacts sample_reduced Half_mean (Some (Bounds 682 850))
  = Ok (sample_distances, sample_counts) ∧
  m_data sample_distances
  = cells (λ d a, distance Half_mean <$> contact_at sample_reduced d a) [1; 5]%Z [4; 10]%Z ∧
  m_data sample_counts
  = cells (λ d a, contact_at sample_reduced d a ≫= number_contacts) [1; 5]%Z [4; 10]%Z.
Proof.
  assert (get_df_distances_nb_contacts sample_reduced Half_mean (Some (Bounds 682 850))
          = Ok (sample_distances, sample_counts)) as H.
  { vm_compute. reflexivity. }
  split; [exact H|].
  destruct (get_df_distances_nb_contacts_cells sample_reduced Half_mean
              (Some (Bounds 682 850)) sample_distances sample_counts H) as (Hd & Hn & _).
  split; [exact Hd|exact Hn].
Defined.

(** ** The labels and the cells line up *)

Lemma append_new_length init lbls :
  length (foldl (λ l x, append_new x l) init lbls) ≤ length init + length lbls.
Proof.
  revert init. induction lbls as [|x lbls IH]; intros init; simpl; [lia|].
  etrans; [apply IH|]. unfold append_new. case_decide; [lia|].
  rewrite length_app. simpl. lia.
Qed.

Lemma append_new_all init lbls :
  length (foldl (λ l x, append_new x l) init lbls) = length init + length lbls →
  foldl (λ l x, append_new x l) init lbls = init ++ lbls.
Proof.
  revert init. induction lbls as [|x lbls IH]; intros init; simpl.
  - by rewrite app_nil_r.
  - intros Hlen. pose proof (append_new_length (append_new x init) lbls) as Hle.
    destruct (decide (x ∈ init)) as [Hin|Hnin].
    + assert (append_new x init = init) as Heq.
      { unfold append_new. by rewrite decide_True. }
      rewrite Heq in Hlen, Hle. lia.
    + assert (append_new x init = init ++ [x]) as Heq.
      { unfold append_new. by rewrite decide_False. }
      rewrite Heq in Hlen |- *. rewrite IH; [by rewrite <-app_assoc|].
      rewrite Hlen, length_app. simpl. lia.
Qed.

Lemma append_new_known init lbls :
  Forall (λ x, x ∈ init) lbls → foldl (λ l x, append_new x l) init lbls = init.
Proof.
  induction 1 as [|x lbls Hx _ IH]; simpl; [done|].
  unfold append_new at 2. by rewrite decide_True.
Qed.

Lemma append_new_elems init lbls x :
  x ∈ foldl (λ l x, append_new x l) init lbls ↔ x ∈ init ∨ x ∈ lbls.
Proof.
  revert init. induction lbls as [|y lbls IH]; intros init; simpl.
  - rewrite elem_of_nil. naive_solver.
  - rewrite IH, append_new_elem, elem_of_cons. naive_solver.
Qed.

Section matrix_labels.
Context (df : list (stats_row Z)) (dist_col : metric) (limits_mask : option bounds).

Lemma matrix_row_acceptors donor acceptor_positions st st' :
  matrix_row df dist_col limits_mask donor acceptor_positions st = Ok st' →
  donors st' = donors st ∧
  ∃ lbls, mapM (acceptor_label limits_mask df) acceptor_positions = Ok lbls ∧
          acceptors st' = foldl (λ l x, append_new x l) (acceptors st) lbls.
Proof.
  revert st. induction acceptor_positions as [|a acs IH]; intros st; simpl.
  - intros [= <-]. split; [done|]. by exists [].
  - destruct (matrix_cell _ _ _ _ st a) as [st1|] eqn:Hcell; simpl; [|done].
    intros (Hd & lbls & Hlbls & Ha)%IH. revert Hcell. unfold matrix_cell.
    destruct (acceptor_label limits_mask df a) as [acceptor|]; simpl; [|done].
    destruct (dict_append _ _ _ _) as [ds|]; simpl; [|done].
    case_decide; simpl; [|done].
    destruct (dict_append _ _ _ _) as [ns|]; simpl; [|done].
    intros [= <-]. simpl in *. split; [done|].
    exists (acceptor :: lbls). by rewrite Hlbls.
Qed.

Lemma matrix_rows_lists donor_positions acceptor_positions st st' :
  matrix_rows df dist_col limits_mask donor_positions acceptor_positions st = Ok st' →
  ∃ dlbls,
    mapM (donor_label limits_mask df) donor_positions = Ok dlbls ∧
    donors st' = foldl (λ l x, append_new x l) (donors st) dlbls ∧
    (donor_positions = [] ∧ acceptors st' = acceptors st ∨
     ∃ albls, mapM (acceptor_label limits_mask df) acceptor_positions = Ok albls ∧
              acceptors st' = foldl (λ l x, append_new x l) (acceptors st) albls).
Proof.
  revert st. induction donor_positions as [|d ds IH]; intros st; simpl.
  - intros [= <-]. exists []. split; [done|]. split; [done|]. by left.
  - destruct (donor_label limits_mask df d) as [donor|]; simpl; [|done].
    destruct (matrix_row _ _ _ _ _ _) as [st1|] eqn:Hrow; simpl; [|done].
    apply matrix_row_acceptors in Hrow as (Hd1 & albls & Halbls & Ha1). simpl in Hd1, Ha1.
    intros (dlbls & Hdlbls & Hd & Ha)%IH. rewrite Hd1 in Hd.
    exists (donor :: dlbls). rewrite Hdlbls. split; [done|]. split; [done|]. right.
    exists albls. split; [done|].
    destruct Ha as [[_ ->]|(albls' & Halbls' & ->)]; [done|].
    assert (albls' = albls) as -> by congruence.
    rewrite Ha1. apply append_new_known, Forall_forall.
    intros x Hx. apply append_new_elems. by right.
Qed.

End matrix_labels.

Lemma mapM_length {A B : Type} (f : A → result B) (l : list A) (k : list B) :
  mapM f l = Ok k → length k = length l.
Proof. intros H%mapM_Ok. by apply Forall2_length in H. Qed.

Lemma append_new_NoDup lbls : NoDup (foldl (λ l x, append_new x l) [] lbls).
Proof.
  generalize (NoDup_nil_2 (A := string)). generalize (@nil string).
  induction lbls as [|x lbls IH]; intros init Hinit; simpl; [done|].
  apply IH. unfold append_new. case_decide; [done|].
  apply NoDup_app. split; [done|]. split; [|apply NoDup_singleton].
  intros y Hy ->%list_elem_of_singleton. done.
Qed.

(** The labels gathered when the matrices are built: those of the donor and
    of the acceptor positions, in order, none of them left out. *)
Lemma get_df_distances_nb_contacts_gathered df dist_col limits_mask sd sn :
  get_df_distances_nb_contacts df dist_col limits_mask = Ok (sd, sn) →
  df ≠ [] →
  ∃ dlbls albls,
    mapM (donor_label limits_mask df) (sorted_unique (donor_position <$> df)) = Ok dlbls ∧
    mapM (acceptor_label limits_mask df) (sorted_unique (acceptor_position <$> df))
    = Ok albls ∧
    m_index sd = foldl (λ l x, append_new x l) [] dlbls ∧
    m_columns sd = foldl (λ l x, append_new x l) [] albls ∧
    length (m_index sd) = length dlbls ∧ length (m_columns sd) = length albls.
Proof.
  intros Hrun Hdf.
  assert (sorted_unique (donor_position <$> df) ≠ []) as Hds.
  { intros H%sorted_unique_nil. by apply fmap_nil_inv in H. }
  assert (sorted_unique (acceptor_position <$> df) ≠ []) as Has.
  { intros H%sorted_unique_nil. by apply fmap_nil_inv in H. }
  revert Hrun. unfold get_df_distances_nb_contacts. cbv zeta.
  destruct (matrix_rows _ _ _ _ _ _) as [st|] eqn:Hrows; simpl; [|done].
  destruct (matrix_rows_cells df dist_col limits_mask [] _ _ _ _
              (sorted_unique_NoDup _) (eq_refl : distances (MatrixState [] [] [] []) = _)
              (eq_refl : nb_contacts (MatrixState [] [] [] []) = _) Hrows) as [Hd _].
  apply matrix_rows_lists in Hrows as (dlbls & Hdlbls & Hdonors & Hacc).
  destruct Hacc as [[? _]|(albls & Halbls & Hacceptors)]; [done|].
  simpl in Hd, Hdonors, Hacceptors.
  destruct (labelled_matrix (distances st) _ _) as [md|] eqn:Hmd; simpl; [|done].
  destruct (labelled_matrix (nb_contacts st) _ _) as [mn|] eqn:Hmn; simpl; [|done].
  intros [= <- <-].
  apply labelled_matrix_inv in Hmd as (-> & Hlen & Hcols). simpl.
  rewrite Hd in Hlen, Hcols. unfold filled in Hlen, Hcols.
  rewrite decide_False in Hlen, Hcols by done. rewrite length_fmap in Hcols.
  exists dlbls, albls. split_and!; [done|done|done|done| |].
  - destruct (sorted_unique (acceptor_position <$> df)) as [|a acs]; [done|].
    csimpl in Hlen. apply Forall_cons in Hlen as [Ha _]. simpl in Ha.
    rewrite length_fmap in Ha. by rewrite <-Ha, (mapM_length _ _ _ Hdlbls).
  - by rewrite Hcols, (mapM_length _ _ _ Halbls).
Qed.

(** X23.  When [get_df_distances_nb_contacts] returns on a table with at
    least one row, the row labels are the labels of the donor positions in
    increasing order, one for each position, and the column labels those of
    the acceptor positions: the labels are distinct and line up with the
    entries of the matrices (two positions with one label make
    [pd.DataFrame] raise instead). *)
Theorem get_df_distances_nb_contacts_aligned df dist_col limits_mask sd sn :
  get_df_distances_nb_contacts df dist_col limits_mask = Ok (sd, sn) →
  df ≠ [] →
  mapM (donor_label limits_mask df) (sorted_unique (donor_position <$> df))
  = Ok (m_index sd) ∧
  mapM (acceptor_label limits_mask df) (sorted_unique (acceptor_position <$> df))
  = Ok (m_columns sd) ∧
  NoDup (m_index sd) ∧ NoDup (m_columns sd).
Proof.
  intros Hrun Hdf.
  destruct (get_df_distances_nb_contacts_gathered _ _ _ _ _ Hrun Hdf)
    as (dlbls & albls & Hdl & Hal & Hdonors & Hacceptors & Hdn & Han).
  assert (m_index sd = dlbls) as Hd.
  { rewrite Hdonors. apply (append_new_all []). by rewrite <-Hdonors, Hdn. }
  assert (m_columns sd = albls) as Ha.
  { rewrite Hacceptors. apply (append_new_all []). by rewrite <-Hacceptors, Han. }
  split; [congruence|]. split; [congruence|]. split.
  - rewrite Hdonors. apply append_new_NoDup.
  - rewrite Hacceptors. apply append_new_NoDup.
Qed.

Lemma get_df_distances_nb_contacts_aligned_witness :
  get_df_distances_nb_contacts sample_reduced Half_mean (Some (Bounds 682 850))
  = Ok (sample_distances, sample_counts) ∧
  mapM (donor_label (Some (Bounds 682 850)) sample_reduced) [1; 5]%Z
  = Ok ["682MET"; "686ALA"] ∧
  mapM (acceptor_label (Some (Bounds 682 850)) sample_reduced) [4; 10]%Z
  = Ok ["685LYS"; "691GLY"].
Proof.
  assert (get_df_distances_nb_contacts sample_reduced Half_mean (Some (Bounds 682 850))
          = Ok (sample_distances, sample_counts)) as H.
  { vm_compute. reflexivity. }
  split; [exact H|].
  destruct (get_df_distances_nb_contacts_aligned sample_reduced Half_mean
              (Some (Bounds 682 850)) sample_distances sample_counts H)
    as (Hd & Ha & _); [discriminate|].
  split; [exact Hd|exact Ha].
Defined.

(** ** restricted_float and a threshold that is not a number *)

Lemma range_check_spec (x : float) :
  (PrimFloat.ltb x 0 || PrimFloat.ltb 100 x)%bool = false ↔
  PrimFloat.is_nan x = true ∨
  (PrimFloat.leb 0 x = true ∧ PrimFloat.leb x 100 = true).
Proof.
  unfold PrimFloat.is_nan. rewrite !FloatAxioms.ltb_spec, !FloatAxioms.leb_spec, FloatAxioms.eqb_spec.
  assert (Prim2SF 0 = S754_zero false) as -> by (by vm_compute).
  assert (∃ m e, Prim2SF 100 = S754_finite false m e) as (m100 & e100 & ->).
  { eexists _, _. by vm_compute. }
  destruct (Prim2SF x) as [s|s| |s m e]; unfold SFltb, SFleb, SFeqb; simpl.
  - naive_solver.
  - destruct s; simpl; naive_solver.
  - naive_solver.
  - destruct s; simpl.
    + rewrite Z.compare_refl, Pos.compare_cont_refl. simpl. naive_solver.
    + rewrite Z.compare_refl, Pos.compare_cont_refl. simpl.
      rewrite (Z.compare_antisym e e100).
      destruct (e ?= e100)%Z; simpl; try naive_solver.
      pose proof (Pos.compare_cont_antisym m m100 Eq) as Hm. simpl in Hm.
      rewrite <-Hm. destruct (Pos.compare_cont Eq m m100); simpl; naive_solver.
Qed.

(** X24.  [restricted_float] returns the number [x] that [float()] reads
    exactly when [0 <= x <= 100] or [x] is not a number: [nan] passes the
    range check, since both of its comparisons are false. *)
Theorem restricted_float_accepts (float_of : string → result float) float_to_inspect x :
  restricted_float float_of float_to_inspect = Accepted x ↔
  float_of float_to_inspect = Ok x ∧
  (PrimFloat.is_nan x = true ∨
   (PrimFloat.leb 0 x = true ∧ PrimFloat.leb x 100 = true)).
Proof.
  unfold restricted_float. destruct (float_of float_to_inspect) as [y|e].
  - pose proof (range_check_spec y) as Hy.
    destruct (PrimFloat.ltb y 0 || PrimFloat.ltb 100 y)%bool.
    + split; [done|]. intros [[= ->] Hx]. by apply Hy in Hx.
    + split.
      * intros [= ->]. split; [done|]. by apply Hy.
      * by intros [[= ->] _].
  - split; [done|]. by intros [? _].
Qed.

Lemma leb_nan x : PrimFloat.leb nan x = false.
Proof. rewrite FloatAxioms.leb_spec. assert (Prim2SF nan = S754_nan) as -> by (by vm_compute). done. Qed.

(** X25.  With an occupancy threshold that is not a number, no candidate
    is retained, whatever the trajectory: a table [hydrogen_bonds] returns
    then has the ["frames"] column only. *)
Theorem hydrogen_bonds_nan_threshold traj dist_thr :
  (∀ key, ¬ retained traj dist_thr nan pattern_contact key) ∧
  ∀ df, hydrogen_bonds traj dist_thr nan pattern_contact = Ok df →
        columns df = ["frames"].
Proof.
  assert (∀ key, ¬ retained traj dist_thr nan pattern_contact key) as Hnone.
  { intros key (i & _ & d & donor & acceptor & _ & _ & _ & Hleb).
    by rewrite leb_nan in Hleb. }
  split; [done|].
  intros df (contacts & -> & _ & _ & Hret)%hydrogen_bonds_columns.
  destruct contacts as [|key contacts]; [done|].
  exfalso. apply (Hnone key), Hret, list_elem_of_here.
Qed.

(** ** The aggregator on any table *)

Lemma same_pair_refl r : same_pair r r.
Proof. by split. Qed.

Lemma same_pair_trans r r' r'' : same_pair r r' → same_pair r' r'' → same_pair r r''.
Proof. unfold same_pair. lia. Qed.

Lemma pair_rows_same rows r r' : same_pair r r' → pair_rows rows r' = pair_rows rows r.
Proof.
  intros Hs. unfold pair_rows. apply filter_ext_elem. intros x _.
  unfold same_pair in *. lia.
Qed.

Lemma first_seen_sublist rows : first_seen rows `sublist_of` rows.
Proof.
  induction rows as [|r rows IH]; [done|]. simpl. apply sublist_skip.
  etrans; [apply sublist_filter|done].
Qed.

Lemma first_seen_cover rows r :
  r ∈ rows → ∃ l, l ∈ first_seen rows ∧ same_pair l r.
Proof.
  induction rows as [|a rows IH]; [by intros ?%elem_of_nil|].
  intros [->|Hr]%elem_of_cons; simpl.
  - exists a. split; [apply list_elem_of_here|apply same_pair_refl].
  - destruct (IH Hr) as (l & Hl & Hs). destruct (decide (same_pair a l)) as [Ha|Ha].
    + exists a. split; [apply list_elem_of_here|by eapply same_pair_trans].
    + exists l. split; [|done]. apply list_elem_of_further. by apply list_elem_of_filter.
Qed.

Lemma first_seen_snoc rows r :
  first_seen (rows ++ [r])
  = first_seen rows ++ (if decide (Exists (λ x, same_pair x r) rows) then [] else [r]).
Proof.
  induction rows as [|a rows IH]; simpl.
  - done.
  - rewrite IH, filter_app. f_equal. f_equal.
    destruct (decide (Exists (λ x, same_pair x r) rows)) as [He|He].
    + rewrite decide_True by (by apply Exists_cons_tl). done.
    + rewrite (filter_cons _ r []), filter_nil.
      destruct (decide (same_pair a r)) as [Ha|Ha].
      * rewrite (decide_False (P := ¬ same_pair a r)) by (by intros H; apply H).
        by rewrite (decide_True (P := Exists _ (a :: rows))) by (by apply Exists_cons_hd).
      * rewrite (decide_True (P := ¬ same_pair a r)) by done.
        rewrite (decide_False (P := Exists _ (a :: rows))); [done|].
        by intros [?|?]%Exists_cons.
Qed.

Lemma first_seen_NoDup rows :
  NoDup ((λ r, (donor_position r, acceptor_position r)) <$> first_seen rows).
Proof.
  induction rows as [|a rows IH]; simpl; [constructor|].
  constructor.
  - intros (r & Heq & [Hr _]%list_elem_of_filter)%list_elem_of_fmap.
    apply Hr. unfold same_pair. by injection Heq as -> ->.
  - eapply sublist_NoDup; [exact IH|]. apply fmap_sublist, sublist_filter.
Qed.

Lemma NoDup_fmap_elem {A B : Type} (f : A → B) (l : list A) x y :
  NoDup (f <$> l) → x ∈ l → y ∈ l → f x = f y → x = y.
Proof.
  induction l as [|a l IH]; [by intros _ ?%elem_of_nil|].
  rewrite fmap_cons. intros [Ha Hnd]%NoDup_cons [->|Hx]%elem_of_cons [->|Hy]%elem_of_cons Heq.
  - done.
  - destruct Ha. rewrite Heq. by apply list_elem_of_fmap_2.
  - destruct Ha. rewrite <-Heq. by apply list_elem_of_fmap_2.
  - by apply IH.
Qed.

Section reduce_any.
Context (dist_col : metric) (rs : list (stats_row Z)).
Context (Hlabels : NoDup (label <$> rs)) (Hfaithful : label_faithful rs).

(** The label [idxmin] returns for the rows of the pair of [r]. *)
Local Abbreviation win r :=
  (match pair_rows rs r with
   | h :: t => idxmin_from dist_col h t
   | [] => 0
   end).
Local Abbreviation removed r :=
  (filter (λ i, i ≠ win r) (label <$> pair_rows rs r)).
Local Abbreviation state_after done :=
  (ReduceState (donor_acceptor <$> first_seen done)
     (first_seen done ≫= λ r, removed r)
     ((λ r, length (pair_rows rs r)) <$> first_seen done)).

Lemma pair_rows_elem r : r ∈ rs → r ∈ pair_rows rs r.
Proof. intros Hr. apply list_elem_of_filter. split; [apply same_pair_refl|done]. Qed.

Lemma seen_iff done r :
  (∀ x, x ∈ done → x ∈ rs) → r ∈ rs →
  donor_acceptor r ∈ donor_acceptor <$> first_seen done ↔
  Exists (λ x, same_pair x r) done.
Proof using Hfaithful.
  intros Hdone Hr. rewrite Exists_exists. split.
  - intros (l & Heq & Hl)%list_elem_of_fmap.
    assert (l ∈ done) as Hld by (by eapply elem_of_sublist, first_seen_sublist).
    exists l. split; [done|]. apply Hfaithful; [by apply Hdone|done|done].
  - intros (x & Hx & Hs). destruct (first_seen_cover done x Hx) as (l & Hl & Hlx).
    apply list_elem_of_fmap. exists l. split; [|done].
    assert (l ∈ done) as Hld by (by eapply elem_of_sublist, first_seen_sublist).
    symmetry. apply Hfaithful; [by apply Hdone|done|]. by eapply same_pair_trans.
Qed.

Lemma reduce_loop_any done todo :
  (∀ x, x ∈ done ++ todo → x ∈ rs) →
  reduce_loop rs dist_col todo (state_after done) = Ok (state_after (done ++ todo)).
Proof using Hfaithful.
  revert done. induction todo as [|r todo IH]; intros done Hin; simpl.
  - by rewrite app_nil_r.
  - assert (r ∈ rs) as Hr.
    { apply Hin, elem_of_app. right. apply list_elem_of_here. }
    assert (∀ x, x ∈ done → x ∈ rs) as Hdone.
    { intros x Hx. apply Hin, elem_of_app. by left. }
    assert (reduce_step rs dist_col (state_after done) r = Ok (state_after (done ++ [r])))
      as ->.
    { unfold reduce_step. cbn [donors_acceptors idx_to_remove donor_acceptor_nb_contacts].
      rewrite first_seen_snoc.
      destruct (decide (Exists (λ x, same_pair x r) done)) as [He|He].
      - rewrite decide_True by (by apply seen_iff). by rewrite !app_nil_r.
      - rewrite decide_False by (by rewrite seen_iff).
        fold (pair_rows rs r). pose proof (pair_rows_elem r Hr) as Hne.
        destruct (pair_rows rs r) as [|h t] eqn:Hg; [by apply elem_of_nil in Hne|].
        simpl. rewrite !fmap_app, bind_app. simpl. rewrite Hg. simpl.
        by rewrite !app_nil_r. }
    simpl. replace (done ++ r :: todo) with ((done ++ [r]) ++ todo)
      by (by rewrite <-app_assoc).
    apply IH. intros x. rewrite <-app_assoc. apply Hin.
Qed.

Lemma win_kept r : r ∈ rs → kept_row dist_col rs r ↔ win r = label r.
Proof.
  intros Hr. unfold kept_row, least. pose proof (pair_rows_elem r Hr) as Hne.
  destruct (pair_rows rs r) as [|h t]; [by apply elem_of_nil in Hne|].
  simpl. rewrite idxmin_from_first_min. naive_solver.
Qed.

Lemma win_same r r' : same_pair r r' → win r' = win r.
Proof. intros Hs. by rewrite (pair_rows_same rs r r' Hs). Qed.

Lemma drop_labels_any :
  drop_labels (first_seen rs ≫= λ r, removed r) rs = filter (kept_row dist_col rs) rs.
Proof using Hlabels.
  unfold drop_labels. apply filter_ext_elem. intros r Hr.
  rewrite (win_kept r Hr). split.
  - intros Hnot. destruct (decide (win r = label r)) as [|Hne]; [done|].
    destruct Hnot. destruct (first_seen_cover rs r Hr) as (l & Hl & Hs).
    apply list_elem_of_bind. exists l. split; [|done].
    apply list_elem_of_filter. rewrite <-(win_same l r Hs). split; [done|].
    apply list_elem_of_fmap_2. rewrite <-(pair_rows_same rs l r Hs).
    by apply pair_rows_elem.
  - intros Hwin (l & [Hne Hin]%list_elem_of_filter & Hl)%list_elem_of_bind.
    apply list_elem_of_fmap in Hin as (r2 & Heq & [Hs Hr2]%list_elem_of_filter).
    assert (r2 = r) as ->.
    { by apply (NoDup_fmap_elem label rs). }
    apply Hne. by rewrite <-(win_same l r Hs).
Qed.

Lemma kept_row_least r :
  r ∈ rs → kept_row dist_col rs r → least dist_col (pair_rows rs r) = Some r.
Proof using Hlabels.
  intros Hr. unfold kept_row, least.
  destruct (pair_rows rs r) as [|h t] eqn:Hg; [done|]. simpl. intros [= Heq].
  f_equal. apply (NoDup_fmap_elem label rs); [done| |done|done].
  assert (first_min_from dist_col h t ∈ pair_rows rs r) as Hin.
  { rewrite Hg. apply (block_min_elem dist_col (h, t)). }
  by apply list_elem_of_filter in Hin as [_ ?].
Qed.

Lemma least_kept r w :
  r ∈ rs → least dist_col (pair_rows rs r) = Some w →
  w ∈ rs ∧ same_pair r w ∧ kept_row dist_col rs w.
Proof.
  intros Hr. unfold least.
  destruct (pair_rows rs r) as [|h t] eqn:Hg; [done|]. intros [= <-].
  assert (first_min_from dist_col h t ∈ pair_rows rs r) as Hin.
  { rewrite Hg. apply (block_min_elem dist_col (h, t)). }
  apply list_elem_of_filter in Hin as [Hs Hin]. split; [done|]. split; [done|].
  unfold kept_row. rewrite (pair_rows_same rs r _ Hs), Hg. done.
Qed.

Lemma kept_length :
  length (first_seen rs) = length (filter (kept_row dist_col rs) rs).
Proof using Hlabels.
  set (pos := λ r : stats_row Z, (donor_position r, acceptor_position r)).
  rewrite <-(length_fmap pos (first_seen rs)),
    <-(length_fmap pos (filter (kept_row dist_col rs) rs)).
  apply Permutation_length, NoDup_Permutation.
  - apply first_seen_NoDup.
  - apply NoDup_fmap_2_strong.
    + intros x y [Hkx Hx]%list_elem_of_filter [Hky Hy]%list_elem_of_filter Hpos.
      assert (same_pair x y) as Hs by (unfold same_pair; by injection Hpos as -> ->).
      apply (NoDup_fmap_elem label rs); [done..|].
      apply win_kept in Hkx, Hky; [|done..].
      by rewrite <-Hkx, <-Hky, (win_same x y Hs).
    + apply NoDup_filter. by eapply NoDup_fmap_1.
  - intros p. rewrite !list_elem_of_fmap. split.
    + intros (l & -> & Hl).
      assert (l ∈ rs) as Hlr by (by eapply elem_of_sublist, first_seen_sublist).
      pose proof (pair_rows_elem l Hlr) as Hne.
      destruct (least dist_col (pair_rows rs l)) as [w|] eqn:Hw.
      2:{ unfold least in Hw. destruct (pair_rows rs l); [by apply elem_of_nil in Hne|done]. }
      destruct (least_kept l w Hlr Hw) as (Hwr & Hs & Hk).
      exists w. split; [|by apply list_elem_of_filter].
      unfold pos, same_pair in *. destruct Hs as [-> ->]. done.
    + intros (r & -> & [_ Hr]%list_elem_of_filter).
      destruct (first_seen_cover rs r Hr) as (l & Hl & Hs).
      exists l. split; [|done]. unfold pos, same_pair in *. destruct Hs as [-> ->]. done.
Qed.

Lemma assign_reduced :
  assign set_number_contacts ((λ r, length (pair_rows rs r)) <$> first_seen rs)
    (cell_row <$> filter (kept_row dist_col rs) rs)
  = Ok (cell_row <$> reduced dist_col rs).
Proof using Hlabels.
  unfold assign. rewrite decide_True by (by rewrite !length_fmap, kept_length).
  f_equal. unfold reduced.
  generalize ((λ r, length (pair_rows rs r)) <$> first_seen rs).
  induction (filter (kept_row dist_col rs) rs) as [|r l IH]; intros [|n ns]; try done.
  csimpl. f_equal. apply IH.
Qed.

End reduce_any.

Lemma reduce_contacts_dataframe_any_run df (σ : store) table rows dist_col limits_roi :
  σ !! df = Some table →
  numeric_table table = Ok rows →
  NoDup (label <$> rows) → label_faithful rows →
  ∃ σ' out,
    reduce_contacts_dataframe df dist_col limits_roi σ = (σ', Ok out) ∧
    σ' !! out = Some (cell_row <$> reduced dist_col (restricted limits_roi rows)).
Proof.
  intros Hdf Htable Hlabels Hfaithful. unfold reduce_contacts_dataframe.
  erewrite M_bind_Ok; [|by eapply coerce_positions_numeric].
  set (σ1 := <[df := cell_row <$> rows]> σ).
  assert (∃ σ2 df1,
            restrict_to_roi df limits_roi σ1 = (σ2, Ok df1) ∧
            σ2 !! df1 = Some (cell_row <$> restricted limits_roi rows))
    as (σ2 & df1 & Hr & Hdf1).
  { destruct limits_roi as [roi|]; simpl.
    - eexists _, _. split.
      + apply (restrict_to_roi_Some _ _ _ (cell_row <$> rows)); [apply lookup_insert_eq|].
        apply numeric_rows_cell_row.
      + apply lookup_insert_eq.
    - exists σ1, df. split; [done|]. apply lookup_insert_eq. }
  assert (restricted limits_roi rows `sublist_of` rows) as Hsub.
  { destruct limits_roi; [apply sublist_filter|done]. }
  assert (NoDup (label <$> restricted limits_roi rows)) as Hlabels'.
  { eapply sublist_NoDup; [exact Hlabels|]. by apply fmap_sublist. }
  assert (label_faithful (restricted limits_roi rows)) as Hfaithful'.
  { intros r r' Hr' Hr''. apply Hfaithful; by eapply elem_of_sublist. }
  generalize dependent (restricted limits_roi rows). intros rs Hdf1 _ Hlabels' Hfaithful'.
  pose proof (reduce_loop_any dist_col rs Hfaithful' [] rs (λ x Hx, Hx)) as Hloop.
  simpl in Hloop.
  erewrite M_bind_Ok; [|exact Hr].
  erewrite M_bind_Ok; [|by apply read_Ok].
  erewrite M_bind_Ok; [|unfold lift; by rewrite numeric_rows_cell_row].
  erewrite M_bind_Ok; [|unfold lift; by rewrite Hloop].
  cbn [donors_acceptors idx_to_remove donor_acceptor_nb_contacts].
  erewrite M_bind_Ok; [|reflexivity].
  erewrite M_bind_Ok; [|apply read_Ok, lookup_insert_eq].
  erewrite M_bind_Ok.
  2:{ unfold lift. rewrite (drop_labels_any dist_col rs Hlabels').
      by rewrite (assign_reduced dist_col rs Hlabels'). }
  erewrite M_bind_Ok; [|reflexivity].
  eexists _, _. split; [reflexivity|]. apply lookup_insert_eq.
Qed.

(** X16.  On any statistics table with distinct index labels and a pair
    text that names the pair of positions, [reduce_contacts_dataframe]
    returns; it keeps, in the order of the table, exactly one row for each
    pair of positions, the first row of least distance of the pair, and
    there are as many kept rows as pairs.  The ["number contacts"] laid over
    the kept rows are the sizes of the groups in the order in which the
    pairs are first met in the table, so that a kept row carries the size of
    its own group when both orders agree. *)
Theorem reduce_contacts_dataframe_any table rows dist_col limits_roi :
  numeric_table table = Ok rows →
  NoDup (label <$> rows) →
  label_faithful rows →
  reduce_table table dist_col limits_roi
  = Ok (cell_row <$> reduced dist_col (restricted limits_roi rows)) ∧
  length (first_seen (restricted limits_roi rows))
  = length (filter (kept_row dist_col (restricted limits_roi rows))
              (restricted limits_roi rows)) ∧
  (∀ r, r ∈ restricted limits_roi rows →
        ∃ w, w ∈ filter (kept_row dist_col (restricted limits_roi rows))
                   (restricted limits_roi rows) ∧
             same_pair r w ∧
             least dist_col (pair_rows (restricted limits_roi rows) r) = Some w ∧
             (distance dist_col w <= distance dist_col r)%Q) ∧
  (∀ w w', w ∈ filter (kept_row dist_col (restricted limits_roi rows))
                 (restricted limits_roi rows) →
           w' ∈ filter (kept_row dist_col (restricted limits_roi rows))
                  (restricted limits_roi rows) →
           same_pair w w' → w = w').
Proof.
  intros Htable Hlabels Hfaithful.
  assert (restricted limits_roi rows `sublist_of` rows) as Hsub.
  { destruct limits_roi; [apply sublist_filter|done]. }
  assert (NoDup (label <$> restricted limits_roi rows)) as Hlabels'.
  { eapply sublist_NoDup; [exact Hlabels|]. by apply fmap_sublist. }
  split; [|split; [|split]].
  - unfold reduce_table.
    destruct (reduce_contacts_dataframe_any_run 1%positive {[1%positive := table]}
                table rows dist_col limits_roi) as (σ' & out & Hrun & Hout);
      [apply lookup_singleton_eq|done..|].
    erewrite M_bind_Ok; [|exact Hrun]. unfold read. by rewrite Hout.
  - by apply kept_length.
  - intros r Hr. set (rs := restricted limits_roi rows) in *.
    pose proof (pair_rows_elem rs r Hr) as Hne.
    destruct (least dist_col (pair_rows rs r)) as [w|] eqn:Hw.
    2:{ unfold least in Hw. destruct (pair_rows rs r); [by apply elem_of_nil in Hne|done]. }
    destruct (least_kept dist_col rs r w Hr Hw) as (Hwr & Hs & Hk).
    exists w. split; [by apply list_elem_of_filter|]. split; [done|]. split; [done|].
    unfold least in Hw. destruct (pair_rows rs r) as [|h t]; [done|].
    injection Hw as <-. by apply (block_min_least dist_col (h, t)).
  - intros w w' [Hk Hw]%list_elem_of_filter [Hk' Hw']%list_elem_of_filter Hs.
    apply (kept_row_least dist_col _ Hlabels') in Hk, Hk'; [|done..].
    rewrite (pair_rows_same _ w w' Hs) in Hk'. congruence.
Qed.

Lemma reduce_contacts_dataframe_any_witness :
  reduce_table interleaved_stats Half_mean None
  = Ok [StatsRow 1 "SER7_OG-THR12_N-H" (CInt 7) "SER" (CInt 12) "THR"
          (25 # 10) (25 # 10) (25 # 10) (25 # 10) (Some 2);
        StatsRow 2 "ALA5_N-GLY10_O-H" (CInt 5) "ALA" (CInt 10) "GLY"
          (21 # 10) (21 # 10) (21 # 10) (21 # 10) (Some 1)].
Proof.
  apply (reduce_contacts_dataframe_any interleaved_stats
           [StatsRow 0 "ALA5_O-GLY10_N-H" 5%Z "ALA" 10%Z "GLY"
              (29 # 10) (29 # 10) (29 # 10) (29 # 10) None;
            StatsRow 1 "SER7_OG-THR12_N-H" 7%Z "SER" 12%Z "THR"
              (25 # 10) (25 # 10) (25 # 10) (25 # 10) None;
            StatsRow 2 "ALA5_N-GLY10_O-H" 5%Z "ALA" 10%Z "GLY"
              (21 # 10) (21 # 10) (21 # 10) (21 # 10) None]
           Half_mean None).
  - vm_compute. reflexivity.
  - apply (bool_decide_unpack _). vm_compute. reflexivity.
  - intros r r' Hr Hr'.
    repeat (apply elem_of_cons in Hr as [->|Hr]); try (by apply elem_of_nil in Hr);
      repeat (apply elem_of_cons in Hr' as [->|Hr']); try (by apply elem_of_nil in Hr');
      vm_compute; split; intros H; try done; try (by destruct H); by repeat split.
Defined.

(** ** The contacts counted for the heat maps *)

Lemma stats_columns_inj rows rows' : stats_columns rows = stats_columns rows' → rows = rows'.
Proof.
  unfold stats_columns. intros [= H1 H2 H3 H4 H5 H6 H7 H8 H9].
  revert rows' H1 H2 H3 H4 H5 H6 H7 H8 H9.
  induction rows as [|r rows IH]; intros [|r' rows']; csimpl; try done.
  intros [= ? ?] [= ? ?] [= ? ?] [= ? ?] [= ? ?] [= ? ?] [= ? ?] [= ? ?] [= ? ?].
  f_equal; [|by apply IH]. destruct r, r'; simpl in *. congruence.
Qed.

Lemma pattern_contact_residues s m :
  Re.search pattern_contact s = Some m →
  ∃ g1 g2 g3 g4, m = [g1; g2; g3; g4] ∧ digits g2 ∧ digits g4 ∧
                 residue_name g1 ∧ residue_name g3.
Proof.
  assert (∀ w, Re.atom_accepts (Re.grp Re.NonDigit (Re.Exactly 3)) w →
               residue_name (String.string_of_list_ascii w)) as Hres.
  { intros w [Hw Hlen]. unfold residue_name. simpl in *.
    rewrite String.list_ascii_of_string_of_list_ascii. split; [done|].
    eapply Forall_impl; [exact Hw|]. intros c Hc. simpl in Hc.
    by destruct (Re.is_digit c). }
  intros (pre & rest & _ & Hm)%ReFacts.search_sound.
  unfold pattern_contact in Hm.
  inversion Hm as [|a1 r1 w1 s1 c1 H1 Hm1]; subst; clear Hm.
  inversion Hm1 as [|a2 r2 w2 s2 c2 H2 Hm2]; subst; clear Hm1.
  inversion Hm2 as [|a3 r3 w3 s3 c3 _ Hm3]; subst; clear Hm2.
  inversion Hm3 as [|a4 r4 w4 s4 c4 _ Hm4]; subst; clear Hm3.
  inversion Hm4 as [|a5 r5 w5 s5 c5 H5 Hm5]; subst; clear Hm4.
  inversion Hm5 as [|a6 r6 w6 s6 c6 H6 Hm6]; subst; clear Hm5.
  inversion Hm6; subst. simpl.
  eexists _, _, _, _. split; [done|].
  repeat split; try (by apply ReFacts.group_digits); by apply Hres.
Qed.

(** The text of a pair names the pair. *)
Lemma list_ascii_of_string_inj s t :
  String.list_ascii_of_string s = String.list_ascii_of_string t → s = t.
Proof.
  intros H. rewrite <-(String.string_of_list_ascii_of_string s),
    <-(String.string_of_list_ascii_of_string t). by rewrite H.
Qed.

Lemma digits_prefix_inj ds ds' rest rest' :
  Forall (λ c, Re.is_digit c = true) ds → Forall (λ c, Re.is_digit c = true) ds' →
  (∀ c l, rest = c :: l → Re.is_digit c = false) →
  (∀ c l, rest' = c :: l → Re.is_digit c = false) →
  ds ++ rest = ds' ++ rest' → ds = ds' ∧ rest = rest'.
Proof.
  intros Hds Hds' Hrest Hrest' Heq.
  assert (length ds = length ds') as Hlen.
  { rewrite <-(run_digits ds rest Hds Hrest), <-(run_digits ds' rest' Hds' Hrest').
    by rewrite Heq. }
  by apply app_inj_1.
Qed.

Lemma pretty_Z_nonneg (z : Z) : (0 ≤ z)%Z → pretty z = pretty (Z.to_N z).
Proof. destruct z; [done|done|lia]. Qed.

Lemma pretty_nonneg_inj (z z' : Z) :
  (0 ≤ z)%Z → (0 ≤ z')%Z → pretty z = pretty z' → z = z'.
Proof.
  intros Hz Hz'. rewrite !pretty_Z_nonneg by done. intros Heq.
  destruct (pretty_N_digits (Z.to_N z)) as [_ H1].
  destruct (pretty_N_digits (Z.to_N z')) as [_ H2].
  rewrite Heq in H1. rewrite H1 in H2. injection H2. lia.
Qed.

Lemma pretty_nonneg_digits (z : Z) :
  (0 ≤ z)%Z → Forall (λ c, Re.is_digit c = true) (String.list_ascii_of_string (pretty z)).
Proof.
  intros Hz. rewrite pretty_Z_nonneg by done.
  destruct (pretty_N_digits (Z.to_N z)) as [Hd _]. by apply digits_Forall.
Qed.

Lemma donor_acceptor_inj (r r' : stats_row Z) :
  (0 ≤ donor_position r)%Z → (0 ≤ acceptor_position r)%Z →
  (0 ≤ donor_position r')%Z → (0 ≤ acceptor_position r')%Z →
  residue_name (donor_residue r) → residue_name (acceptor_residue r) →
  residue_name (donor_residue r') → residue_name (acceptor_residue r') →
  donor_acceptor r = donor_acceptor r' → same_pair r r'.
Proof.
  intros Hd Ha Hd' Ha' [Hl1 Hn1] [Hl2 Hn2] [Hl1' Hn1'] [Hl2' Hn2'] Heq.
  apply (f_equal String.list_ascii_of_string) in Heq. unfold donor_acceptor in Heq.
  rewrite !list_ascii_of_string_app in Heq. rewrite <-!app_assoc in Heq.
  assert (∀ g (tl : list ascii), length (String.list_ascii_of_string g) = 3 →
            Forall (λ c, Re.is_digit c = false) (String.list_ascii_of_string g) →
            ∀ c l, String.list_ascii_of_string g ++ tl = c :: l → Re.is_digit c = false)
    as Hstart.
  { intros g tl Hl Hn c l Hc. destruct (String.list_ascii_of_string g) as [|c0 g0]; [done|].
    injection Hc as -> _. by apply Forall_cons in Hn as [? _]. }
  apply digits_prefix_inj in Heq as [H1 Heq];
    [|by apply pretty_nonneg_digits|by apply pretty_nonneg_digits
     |by apply Hstart|by apply Hstart].
  apply app_inj_1 in Heq as [_ Heq]; [|congruence].
  simpl in Heq. injection Heq as Heq.
  apply digits_prefix_inj in Heq as [H2 _];
    [|by apply pretty_nonneg_digits|by apply pretty_nonneg_digits
     |intros c l Hc; apply (Hstart (acceptor_residue r) [] Hl2 Hn2 c l);
      by rewrite app_nil_r
     |intros c l Hc; apply (Hstart (acceptor_residue r') [] Hl2' Hn2' c l);
      by rewrite app_nil_r].
  apply list_ascii_of_string_inj, pretty_nonneg_inj in H1; [|done|done].
  apply list_ascii_of_string_inj, pretty_nonneg_inj in H2; [|done|done].
  by split.
Qed.

(** The table built from the rows of [contacts_csv]. *)
Lemma stats_table_rows mean median round2 df contacts rows i table :
  Forall2 (describes mean median round2 df pattern_contact) contacts rows →
  stats_table_from i rows = Some table →
  numeric_table table = Ok (numbered <$> table) ∧
  Forall2 row_of_contact contacts (numbered <$> table) ∧
  label <$> table = seq i (length contacts).
Proof.
  intros Hrows. revert i table.
  induction Hrows as [|key row contacts rows Hrow _ IH]; intros i table; simpl.
  - intros [= <-]. by repeat split.
  - destruct (stats_table_row i row) as [t|] eqn:Ht; simpl; [|done].
    destruct (stats_table_from (S i) rows) as [table'|] eqn:Htable; simpl; [|done].
    intros [= <-]. destruct (IH _ _ Htable) as (Hnum & Hall & Hlabels).
    destruct Hrow as (m & c & x1 & x2 & x3 & x4 & Hc & Hm & Hg2 & Hg1 & Hg4 & Hg3 & _).
    destruct (pattern_contact_residues _ _ Hm) as (g1 & g2 & g3 & g4 & -> & Hd2 & Hd4 & _).
    destruct (int_digits _ Hd2) as [z2 Hz2]. destruct (int_digits _ Hd4) as [z4 Hz4].
    pose proof (position_in_Ok pattern_contact 2 key _ g2 z2 Hm eq_refl Hz2) as Hp2.
    pose proof (position_in_Ok pattern_contact 4 key _ g4 z4 Hm eq_refl Hz4) as Hp4.
    unfold Re.group in Hg1, Hg2, Hg3, Hg4. simpl in Hg1, Hg2, Hg3, Hg4.
    injection Hg1 as Hg1. injection Hg2 as Hg2. injection Hg3 as Hg3. injection Hg4 as Hg4.
    unfold stats_table_row in Ht.
    destruct (Q_of_float (cs_half_mean row)) as [q1|]; simpl in Ht; [|done].
    destruct (Q_of_float (cs_half_median row)) as [q2|]; simpl in Ht; [|done].
    destruct (Q_of_float (cs_whole_mean row)) as [q3|]; simpl in Ht; [|done].
    destruct (Q_of_float (cs_whole_median row)) as [q4|]; simpl in Ht; [|done].
    injection Ht as <-.
    split; [|split].
    + unfold numeric_table in *. cbn [mapM]. rewrite Hnum. unfold numbered at 1.
      cbn [donor_position acceptor_position contact to_numeric_cell].
      rewrite <-Hg2, <-Hg4, Hz2, Hz4, Hc. cbn [mbind result_bind Py.bind].
      rewrite fmap_cons. unfold numbered, donor_of, acceptor_of. cbn [contact].
      by rewrite Hp2, Hp4.
    + constructor; [|done]. exists g1, g2, g3, g4. unfold numbered. simpl.
      rewrite Hc. by repeat split.
    + csimpl. by rewrite Hlabels.
Qed.

Lemma row_of_contact_groups key z :
  row_of_contact key z →
  ∃ g1 g2 g3 g4,
    Re.search pattern_contact key = Some [g1; g2; g3; g4] ∧
    int g2 = Ok (donor_position z) ∧ int g4 = Ok (acceptor_position z) ∧
    donor_residue z = g1 ∧ acceptor_residue z = g3 ∧
    residue_name g1 ∧ residue_name g3.
Proof.
  intros (g1 & g2 & g3 & g4 & Hm & _ & Hd & Hdr & Ha & Har).
  destruct (pattern_contact_residues _ _ Hm)
    as (g1' & g2' & g3' & g4' & [= <- <- <- <-] & Hd2 & Hd4 & Hr1 & Hr3).
  destruct (int_digits _ Hd2) as [z2 Hz2]. destruct (int_digits _ Hd4) as [z4 Hz4].
  exists g1, g2, g3, g4. rewrite Hd, Ha. unfold donor_of, acceptor_of.
  rewrite (position_in_Ok pattern_contact 2 key _ g2 z2 Hm eq_refl Hz2).
  rewrite (position_in_Ok pattern_contact 4 key _ g4 z4 Hm eq_refl Hz4).
  by split_and!.
Qed.

Lemma Forall2_StronglySorted {A B : Type} (R : relation A) (R' : relation B)
    (Q : A → B → Prop) (l : list A) (k : list B) :
  (∀ x x' y y', Q x y → Q x' y' → R x x' → R' y y') →
  Forall2 Q l k → StronglySorted R l → StronglySorted R' k.
Proof.
  intros HQ Hlk. induction Hlk as [|x y l k Hxy Hlk IH]; intros Hs; [constructor|].
  apply StronglySorted_inv in Hs as [Hs Hx]. constructor; [by apply IH|].
  clear IH Hs. induction Hlk as [|x' y' l k Hxy' _ IH]; [constructor|].
  apply Forall_cons in Hx as [Hx Hl]. constructor; [by eapply HQ|by apply IH].
Qed.

Lemma rows_sorted contacts zrows :
  Forall2 row_of_contact contacts zrows →
  StronglySorted (contact_le pattern_contact) contacts →
  StronglySorted pair_le zrows.
Proof.
  apply Forall2_StronglySorted.
  intros key key' z z' (_ & _ & _ & _ & _ & _ & Hd & _ & Ha & _)
    (_ & _ & _ & _ & _ & _ & Hd' & _ & Ha' & _).
  unfold contact_le, pair_le. rewrite Hd, Hd', Ha, Ha'. lia.
Qed.

Lemma rows_faithful names contacts zrows :
  one_name_per_position names → (∀ key, key ∈ contacts → key ∈ names) →
  Forall2 row_of_contact contacts zrows → label_faithful zrows.
Proof.
  intros Hone Hnames Hall r r' [i Hi]%list_elem_of_lookup [j Hj]%list_elem_of_lookup.
  destruct (Forall2_lookup_r _ _ _ _ _ Hall Hi) as (key & Hkey & Hr).
  destruct (Forall2_lookup_r _ _ _ _ _ Hall Hj) as (key' & Hkey' & Hr').
  apply list_elem_of_lookup_2, Hnames in Hkey, Hkey'.
  destruct (row_of_contact_groups _ _ Hr) as (g1 & g2 & g3 & g4 & Hm & H2 & H4 & H1 & H3 & ? & ?).
  destruct (row_of_contact_groups _ _ Hr')
    as (g1' & g2' & g3' & g4' & Hm' & H2' & H4' & H1' & H3' & ? & ?).
  split.
  - apply donor_acceptor_inj; eauto using int_nonneg; congruence.
  - intros [Hd Ha].
    destruct (Hone key key' g1 g2 g3 g4 g1' g2' g3' g4' Hkey Hkey' Hm Hm') as [Hg1 Hg3].
    unfold donor_acceptor. rewrite Hd, Ha, H1, H3, H1', H3'.
    rewrite Hg1, Hg3; [done| |]; congruence.
Qed.

Lemma Forall2_filter_length {A B : Type} (P : A → Prop) (P' : B → Prop)
    `{∀ x, Decision (P x)} `{∀ y, Decision (P' y)} (Q : A → B → Prop) l k :
  (∀ x y, Q x y → (P x ↔ P' y)) → Forall2 Q l k →
  length (filter P l) = length (filter P' k).
Proof.
  intros HQ. induction 1 as [|x y l k Hxy _ IH]; [done|].
  rewrite !filter_cons. destruct (HQ x y Hxy).
  repeat case_decide; simpl; auto; tauto.
Qed.

Lemma restricted_elem limits_roi (rows : list (stats_row Z)) r :
  r ∈ restricted limits_roi rows ↔ in_roi limits_roi (donor_position r) ∧ r ∈ rows.
Proof.
  destruct limits_roi as [roi|]; simpl; [|naive_solver].
  unfold select_roi. by rewrite list_elem_of_filter.
Qed.

Lemma distance_numbered dist_col t :
  distance dist_col (numbered t) = distance dist_col t.
Proof. by destruct dist_col. Qed.

Section counted.
Context (contacts : list string) (zrows : list (stats_row Z)).
Context (limits_roi : option bounds) (blocks : list block).
Context (Hall : Forall2 row_of_contact contacts zrows).
Context (Hgrouped : grouped (restricted limits_roi zrows) blocks).

Lemma block_elem b r : b ∈ blocks → r ∈ block_rows b → r ∈ restricted limits_roi zrows.
Proof using Hgrouped.
  intros Hb Hr. rewrite (grouped_rows _ _ Hgrouped). apply list_elem_of_bind. by exists b.
Qed.

Lemma block_all i b :
  blocks !! i = Some b → block_rows b = filter (same_pair b.1) zrows.
Proof using Hgrouped.
  intros Hi. rewrite <-(grouped_filter _ _ Hgrouped i b Hi).
  assert (in_roi limits_roi (donor_position b.1)) as Hb.
  { eapply restricted_elem, block_elem; [by eapply list_elem_of_lookup_2|].
    apply list_elem_of_here. }
  destruct limits_roi as [roi|]; [|done]. simpl. unfold select_roi.
  rewrite list_filter_filter. apply filter_ext_elem. intros x _.
  unfold same_pair, in_roi in *. split; [naive_solver|].
  intros [Hd Ha]. split; [done|]. by rewrite Hd.
Qed.

Lemma block_size i b :
  blocks !! i = Some b →
  length (block_rows b)
  = length (contacts_between contacts (donor_position b.1) (acceptor_position b.1)).
Proof using Hall Hgrouped.
  intros Hi. rewrite (block_all i b Hi). symmetry.
  apply (Forall2_filter_length _ _ row_of_contact); [|done].
  intros key z (_ & _ & _ & _ & _ & _ & Hd & _ & Ha & _).
  unfold same_pair. by rewrite Hd, Ha.
Qed.

End counted.

(** The table of a run: its rows are those of the contact columns, and
    they come pair by pair, with or without the ROI step. *)
Lemma pipeline_table (mean median : list float → result float) (round2 : float → float)
    traj dist_thr occupancy_thr df rows table :
  hydrogen_bonds traj dist_thr occupancy_thr pattern_contact = Ok df →
  contacts_csv mean median round2 df pattern_contact = Ok (stats_columns rows) →
  stats_table rows = Some table →
  one_name_per_position (candidates traj) →
  numeric_table table = Ok (numbered <$> table) ∧
  Forall2 row_of_contact (drop 1 (columns df)) (numbered <$> table) ∧
  ∀ limits_roi,
    grouped (restricted limits_roi (numbered <$> table))
      (group_adjacent (restricted limits_roi (numbered <$> table))).
Proof.
  intros Hhb Hcsv Htable Hone.
  destruct (hydrogen_bonds_columns _ _ _ _ Hhb) as (contacts & Hcols & Hsorted & _ & Hret).
  assert (drop 1 (columns df) = contacts) as Hdrop by (by rewrite Hcols).
  apply (contacts_csv_loop_rows mean median round2 pattern_contact df _ []) in Hcsv
    as (rows' & Hrows & Heq%stats_columns_inj).
  simpl in Heq. subst rows'.
  rewrite Hdrop in *. clear Hdrop Hcols.
  destruct (stats_table_rows _ _ _ _ _ _ _ _ Hrows Htable) as (Hnum & Hall & Hlabels).
  split; [done|]. split; [done|]. intros limits_roi.
  set (zrows := numbered <$> table) in *.
  assert (restricted limits_roi zrows `sublist_of` zrows) as Hsub.
  { destruct limits_roi; [apply sublist_filter|done]. }
  apply group_adjacent_grouped.
  - apply rows_sorted in Hall; [|done].
    destruct limits_roi; [by apply StronglySorted_filter|done].
  - eapply sublist_NoDup; [|by apply fmap_sublist].
    unfold zrows. rewrite <-list_fmap_compose.
    change (label ∘ numbered) with (label (P := cell)). rewrite Hlabels. apply NoDup_seq.
  - intros r r' Hr Hr'.
    apply (rows_faithful (candidates traj) contacts zrows); [done| |done| |].
    + intros key (i & Hi & _)%Hret. by eapply list_elem_of_lookup_2.
    + by eapply elem_of_sublist.
    + by eapply elem_of_sublist.
Qed.

(** X26.  On the table [contacts_csv] builds from a table [hydrogen_bonds]
    returned, when every residue position has one residue name in the names
    of the contacts, [reduce_contacts_dataframe] returns, with or without a
    ROI: it gives one row for each pair of positions that has a contact
    whose donor the ROI keeps; the row is a row of the table, its
    ["number contacts"] is the number of contact columns between the two
    positions, and no row of the table between them has a smaller
    distance. *)
Theorem contacts_counted (mean median : list float → result float)
    (round2 : float → float) traj dist_thr occupancy_thr df rows table dist_col
    limits_roi :
  hydrogen_bonds traj dist_thr occupancy_thr pattern_contact = Ok df →
  contacts_csv mean median round2 df pattern_contact = Ok (stats_columns rows) →
  stats_table rows = Some table →
  one_name_per_position (candidates traj) →
  ∃ out,
    reduce_table table dist_col limits_roi = Ok (cell_row <$> out) ∧
    NoDup ((λ r, (donor_position r, acceptor_position r)) <$> out) ∧
    (∀ key, key ∈ drop 1 (columns df) →
            in_roi limits_roi (donor_of pattern_contact key) →
            ∃ r, r ∈ out ∧
                 donor_position r = donor_of pattern_contact key ∧
                 acceptor_position r = acceptor_of pattern_contact key) ∧
    ∀ r, r ∈ out →
      in_roi limits_roi (donor_position r) ∧
      (∃ t, t ∈ table ∧
            r = with_number_contacts
                  (Some (length (contacts_between (drop 1 (columns df))
                                   (donor_position r) (acceptor_position r))))
                  (numbered t)) ∧
      ∀ t, t ∈ table →
           donor_position (numbered t) = donor_position r →
           acceptor_position (numbered t) = acceptor_position r →
           (distance dist_col r <= distance dist_col t)%Q.
Proof.
  intros Hhb Hcsv Htable Hone.
  destruct (pipeline_table _ _ _ _ _ _ _ _ _ Hhb Hcsv Htable Hone) as (Hnum & Hall & Hg).
  specialize (Hg limits_roi).
  generalize dependent (drop 1 (columns df)). intros contacts Hall.
  set (zrows := numbered <$> table) in *.
  set (blocks := group_adjacent (restricted limits_roi zrows)) in *.
  exists (block_reduced dist_col <$> blocks). split; [|split; [|split]].
  - by apply (reduce_contacts_dataframe_grouped table zrows).
  - apply NoDup_alt. intros i j p Hi Hj. rewrite !list_lookup_fmap in Hi, Hj.
    destruct (blocks !! i) as [b|] eqn:Hbi; [|done].
    destruct (blocks !! j) as [b'|] eqn:Hbj; [|done].
    simpl in Hi, Hj. injection Hi as <-. injection Hj as Hd Ha.
    destruct (decide (i = j)) as [|Hne]; [done|].
    destruct (grouped_apart _ _ Hg i j b b' (block_min dist_col b) (block_min dist_col b')
                Hbi Hbj Hne (block_min_elem _ _) (block_min_elem _ _)) as [Hns _].
    destruct Hns. by split.
  - intros key [i Hi]%list_elem_of_lookup Hroi.
    destruct (Forall2_lookup_l _ _ _ _ _ Hall Hi) as (z & Hz & Hkz).
    pose proof Hkz as (_ & _ & _ & _ & _ & _ & Hd & _ & Ha & _).
    assert (z ∈ restricted limits_roi zrows) as Hzr.
    { apply restricted_elem. split; [by rewrite Hd|by eapply list_elem_of_lookup_2]. }
    rewrite (grouped_rows _ _ Hg) in Hzr.
    apply list_elem_of_bind in Hzr as (b & Hzb & Hb).
    exists (block_reduced dist_col b). split; [by apply list_elem_of_fmap_2|].
    destruct (grouped_same _ _ Hg b z (block_min dist_col b) Hb Hzb (block_min_elem _ _))
      as [[Hd' Ha'] _].
    simpl. by rewrite Hd', Ha'.
  - intros r (b & -> & [i Hi]%list_elem_of_lookup)%list_elem_of_fmap.
    assert (b ∈ blocks) as Hb by (by eapply list_elem_of_lookup_2).
    pose proof (block_min_elem dist_col b) as Hmin.
    pose proof (block_elem zrows limits_roi blocks Hg b _ Hb Hmin) as [Hroi Hz]%restricted_elem.
    destruct (grouped_same _ _ Hg b b.1 (block_min dist_col b) Hb (list_elem_of_here _ _) Hmin)
      as [[Hd Ha] _].
    split; [done|]. split.
    + apply list_elem_of_fmap in Hz as (t & Ht & Htt). exists t. split; [done|].
      change (donor_position (block_reduced dist_col b))
        with (donor_position (block_min dist_col b)).
      change (acceptor_position (block_reduced dist_col b))
        with (acceptor_position (block_min dist_col b)).
      rewrite Hd, Ha, <-Ht. unfold block_reduced.
      by rewrite (block_size contacts zrows limits_roi blocks Hall Hg i b Hi).
    + intros t Ht Hdt Hat. rewrite <-distance_numbered.
      change (distance dist_col (block_reduced dist_col b))
        with (distance dist_col (block_min dist_col b)).
      apply block_min_least. rewrite (block_all zrows limits_roi blocks Hg i b Hi).
      apply list_elem_of_filter. split; [|by apply list_elem_of_fmap_2].
      change (donor_position (block_reduced dist_col b))
        with (donor_position (block_min dist_col b)) in Hdt.
      change (acceptor_position (block_reduced dist_col b))
        with (acceptor_position (block_min dist_col b)) in Hat.
      unfold same_pair. by rewrite Hdt, Hat, Hd, Ha.
Qed.

Lemma contacts_counted_witness :
  ∃ out,
    reduce_table paired_table Half_mean None = Ok (cell_row <$> out) ∧
    NoDup ((λ r, (donor_position r, acceptor_position r)) <$> out) ∧
    (∀ key, key ∈ drop 1 (columns paired_contacts) →
            in_roi None (donor_of pattern_contact key) →
            ∃ r, r ∈ out ∧
                 donor_position r = donor_of pattern_contact key ∧
                 acceptor_position r = acceptor_of pattern_contact key) ∧
    ∀ r, r ∈ out →
      in_roi None (donor_position r) ∧
      (∃ t, t ∈ paired_table ∧
            r = with_number_contacts
                  (Some (length (contacts_between (drop 1 (columns paired_contacts))
                                   (donor_position r) (acceptor_position r))))
                  (numbered t)) ∧
      ∀ t, t ∈ paired_table →
           donor_position (numbered t) = donor_position r →
           acceptor_position (numbered t) = acceptor_position r →
           (distance Half_mean r <= distance Half_mean t)%Q.
Proof.
  apply (contacts_counted sample_mean sample_median (λ x, x) paired_traj 3 20
           paired_contacts paired_rows paired_table Half_mean None).
  - vm_compute. reflexivity.
  - vm_compute. reflexivity.
  - vm_compute. reflexivity.
  - intros key key' g1 g2 g3 g4 g1' g2' g3' g4' Hk Hk' Hm Hm'.
    repeat (apply elem_of_cons in Hk as [->|Hk]); try (by apply elem_of_nil in Hk);
      repeat (apply elem_of_cons in Hk' as [->|Hk']); try (by apply elem_of_nil in Hk');
      vm_compute in Hm, Hm'; injection Hm as <- <- <- <-; injection Hm' as <- <- <- <-;
      split; intros H; try reflexivity; vm_compute in H; discriminate.
Defined.

(** ** When get_df_distances_nb_contacts returns *)

Lemma dict_get_set {K V : Type} `{EqDecision K} (k : K) (v : V) (d : dict K V) :
  dict_get k (dict_set k v d) = Some v.
Proof.
  induction d as [|[k' v'] d IH]; simpl; [by rewrite decide_True|].
  destruct (decide (k' = k)) as [->|Hne]; simpl.
  - by rewrite decide_True.
  - by rewrite decide_False.
Qed.

Lemma dict_append_ensure_key {V : Type} missing (k : Z) (v : option V) d :
  ∃ d', dict_append missing k v (ensure_key k d) = Ok d'.
Proof.
  unfold dict_append, ensure_key. destruct (dict_get k d) as [l|] eqn:Hk.
  - rewrite Hk. by eexists.
  - rewrite dict_get_set. by eexists.
Qed.

Lemma NoDup_append_new init lbls :
  NoDup (init ++ lbls) → foldl (λ l x, append_new x l) init lbls = init ++ lbls.
Proof.
  revert init. induction lbls as [|x lbls IH]; intros init Hnd; simpl.
  - by rewrite app_nil_r.
  - unfold append_new at 2. rewrite decide_False.
    + rewrite IH; rewrite <-app_assoc; done.
    + apply NoDup_app in Hnd as (_ & Hnd & _). intros Hx. apply (Hnd x Hx), list_elem_of_here.
Qed.

Lemma mapM_NoDup {A B : Type} (f : A → result B) (l : list A) (k : list B) :
  mapM f l = Ok k → NoDup l →
  (∀ x x' y, x ∈ l → x' ∈ l → f x = Ok y → f x' = Ok y → x = x') → NoDup k.
Proof.
  intros Hk%mapM_Ok Hl Hinj. apply NoDup_alt. intros i j y Hi Hj.
  destruct (Forall2_lookup_r _ _ _ _ _ Hk Hi) as (x & Hx & Hfx).
  destruct (Forall2_lookup_r _ _ _ _ _ Hk Hj) as (x' & Hx' & Hfx').
  assert (x = x') as <-.
  { eapply Hinj; [by eapply list_elem_of_lookup_2|by eapply list_elem_of_lookup_2|done|done]. }
  by eapply NoDup_lookup.
Qed.

Section returns.
Context (df : list (stats_row Z)) (dist_col : metric) (limits_mask : option bounds).

Lemma donor_label_total p :
  p ∈ donor_position <$> df → ∃ lbl, donor_label limits_mask df p = Ok lbl.
Proof.
  intros (r & -> & Hr)%list_elem_of_fmap.
  destruct (filter (λ r', donor_position r' = donor_position r) df) as [|r0 l] eqn:Hf.
  - assert (r ∈ filter (λ r', donor_position r' = donor_position r) df) as Hin
      by (by apply list_elem_of_filter).
    rewrite Hf in Hin. by apply elem_of_nil in Hin.
  - eexists. apply donor_label_Ok. exists r0. by rewrite Hf.
Qed.

Lemma acceptor_label_total p :
  p ∈ acceptor_position <$> df → ∃ lbl, acceptor_label limits_mask df p = Ok lbl.
Proof.
  intros (r & -> & Hr)%list_elem_of_fmap.
  destruct (filter (λ r', acceptor_position r' = acceptor_position r) df) as [|r0 l] eqn:Hf.
  - assert (r ∈ filter (λ r', acceptor_position r' = acceptor_position r) df) as Hin
      by (by apply list_elem_of_filter).
    rewrite Hf in Hin. by apply elem_of_nil in Hin.
  - eexists. apply acceptor_label_Ok. exists r0. by rewrite Hf.
Qed.

Context (Hcounts : Forall (λ r, is_Some (number_contacts r)) df).

Lemma matrix_row_total donor acceptor_positions st :
  (∀ a, a ∈ acceptor_positions → a ∈ acceptor_position <$> df) →
  ∃ st', matrix_row df dist_col limits_mask donor acceptor_positions st = Ok st'.
Proof using Hcounts.
  revert st. induction acceptor_positions as [|a acs IH]; intros st Hacs; simpl.
  - by eexists.
  - destruct (acceptor_label_total a) as [lbl Hlbl]; [apply Hacs, list_elem_of_here|].
    unfold matrix_cell. rewrite Hlbl. cbn [mbind result_bind Py.bind].
    destruct (dict_append_ensure_key (KeyError "distances") a
                (distance dist_col <$>
                   head (filter (λ r, donor_position r = donor ∧ acceptor_position r = a) df))
                (distances st)) as [d' ->].
    cbn [mbind result_bind Py.bind]. rewrite decide_True by done.
    cbn [mbind result_bind Py.bind].
    destruct (dict_append_ensure_key (KeyError "nb_contacts") a
                (head (filter (λ r, donor_position r = donor ∧ acceptor_position r = a) df)
                   ≫= number_contacts)
                (nb_contacts st)) as [n' ->].
    cbn [mbind result_bind Py.bind].
    apply IH. intros a' Ha'. by apply Hacs, list_elem_of_further.
Qed.

Lemma matrix_rows_total donor_positions acceptor_positions st :
  (∀ p, p ∈ donor_positions → p ∈ donor_position <$> df) →
  (∀ a, a ∈ acceptor_positions → a ∈ acceptor_position <$> df) →
  ∃ st', matrix_rows df dist_col limits_mask donor_positions acceptor_positions st = Ok st'.
Proof using Hcounts.
  revert st. induction donor_positions as [|p ps IH]; intros st Hps Hacs; simpl.
  - by eexists.
  - destruct (donor_label_total p) as [lbl ->]; [apply Hps, list_elem_of_here|].
    cbn [mbind result_bind Py.bind].
    edestruct (matrix_row_total p acceptor_positions) as [st1 ->]; [done|].
    cbn [mbind result_bind Py.bind].
    apply IH; [|done]. intros p' Hp'. by apply Hps, list_elem_of_further.
Qed.

End returns.

Lemma labelled_matrix_filled {V : Type} (cell : Z → Z → option V) ds acs dlbls albls :
  ds ≠ [] → length dlbls = length ds → length albls = length acs →
  labelled_matrix (filled cell ds acs) dlbls albls
  = Ok (Matrix dlbls albls (cells cell ds acs)).
Proof.
  intros Hds Hdl Hal. unfold labelled_matrix.
  rewrite decide_True.
  - rewrite decide_True.
    + by rewrite filled_data.
    + unfold filled. rewrite decide_False by done. by rewrite length_fmap.
  - unfold filled. rewrite decide_False by done.
    apply Forall_fmap, Forall_forall. intros a _. simpl. by rewrite length_fmap.
Qed.

Lemma get_df_distances_nb_contacts_result df dist_col limits_mask dlbls albls :
  Forall (λ r, is_Some (number_contacts r)) df →
  mapM (donor_label limits_mask df) (sorted_unique (donor_position <$> df)) = Ok dlbls →
  mapM (acceptor_label limits_mask df) (sorted_unique (acceptor_position <$> df))
  = Ok albls →
  NoDup dlbls → NoDup albls →
  get_df_distances_nb_contacts df dist_col limits_mask
  = Ok (Matrix dlbls albls
          (cells (λ d a, distance dist_col <$> contact_at df d a)
             (sorted_unique (donor_position <$> df))
             (sorted_unique (acceptor_position <$> df))),
        Matrix dlbls albls
          (cells (λ d a, contact_at df d a ≫= number_contacts)
             (sorted_unique (donor_position <$> df))
             (sorted_unique (acceptor_position <$> df)))).
Proof.
  intros Hcounts Hdl Hal Hndd Hnda.
  destruct (decide (df = [])) as [->|Hdf].
  { revert Hdl Hal. vm_compute. by intros [= <-] [= <-]. }
  assert (sorted_unique (donor_position <$> df) ≠ []) as Hds.
  { intros H%sorted_unique_nil. by apply fmap_nil_inv in H. }
  unfold get_df_distances_nb_contacts. cbv zeta.
  destruct (matrix_rows_total df dist_col limits_mask Hcounts
              (sorted_unique (donor_position <$> df))
              (sorted_unique (acceptor_position <$> df)) (MatrixState [] [] [] []))
    as [st Hrows].
  { intros p. by rewrite sorted_unique_elem. }
  { intros p. by rewrite sorted_unique_elem. }
  rewrite Hrows. cbn [mbind result_bind Py.bind].
  destruct (matrix_rows_cells df dist_col limits_mask [] _ _ _ _
              (sorted_unique_NoDup _) (eq_refl : distances (MatrixState [] [] [] []) = _)
              (eq_refl : nb_contacts (MatrixState [] [] [] []) = _) Hrows) as [Hd Hn].
  apply matrix_rows_lists in Hrows as (dlbls' & Hdlbls & Hdonors & Hacc).
  destruct Hacc as [[? _]|(albls' & Halbls & Hacceptors)]; [done|].
  simpl in Hd, Hn, Hdonors, Hacceptors.
  assert (dlbls' = dlbls) as -> by congruence.
  assert (albls' = albls) as -> by congruence.
  rewrite NoDup_append_new in Hdonors, Hacceptors by done. simpl in Hdonors, Hacceptors.
  rewrite Hd, Hn, Hdonors, Hacceptors.
  rewrite !labelled_matrix_filled; eauto using mapM_length.
Qed.

Lemma matrix_rows_counted df dist_col limits_mask p ps a acs st st' :
  matrix_rows df dist_col limits_mask (p :: ps) (a :: acs) st = Ok st' →
  Forall (λ r, is_Some (number_contacts r)) df.
Proof.
  simpl. destruct (donor_label limits_mask df p); simpl; [|done].
  unfold matrix_cell. destruct (acceptor_label limits_mask df a); simpl; [|done].
  destruct (dict_append _ _ _ _); simpl; [|done].
  case_decide; [done|]. simpl. done.
Qed.

Lemma mapM_total {A B : Type} (f : A → result B) (l : list A) :
  (∀ x, x ∈ l → ∃ y, f x = Ok y) → ∃ k, mapM f l = Ok k.
Proof.
  intros Hl. destruct (Forall2_exists (λ x y, f x = Ok y) l Hl) as [k Hk].
  exists k. by apply mapM_Ok_2.
Qed.

Lemma mapM_inj {A B : Type} (f : A → result B) (l : list A) (k : list B) x x' :
  mapM f l = Ok k → NoDup k → x ∈ l → x' ∈ l → f x = f x' → x = x'.
Proof.
  intros Hk%mapM_Ok Hnd [i Hi]%list_elem_of_lookup [j Hj]%list_elem_of_lookup Heq.
  destruct (Forall2_lookup_l _ _ _ _ _ Hk Hi) as (y & Hy & Hfy).
  destruct (Forall2_lookup_l _ _ _ _ _ Hk Hj) as (y' & Hy' & Hfy').
  assert (y = y') as <- by congruence.
  assert (i = j) as <- by (by eapply NoDup_lookup). congruence.
Qed.

(** X27.  [get_df_distances_nb_contacts] returns matrices exactly when
    every row of the table has a ["number contacts"], two donor positions
    never get the same label, and two acceptor positions never get the same
    label; it raises otherwise ([KeyError] for the missing column, the
    [ValueError] of pandas for a label met twice). *)
Theorem get_df_distances_nb_contacts_returns df dist_col limits_mask :
  (∃ sd sn, get_df_distances_nb_contacts df dist_col limits_mask = Ok (sd, sn)) ↔
  Forall (λ r, is_Some (number_contacts r)) df ∧
  (∀ p p', p ∈ donor_position <$> df → p' ∈ donor_position <$> df →
           donor_label limits_mask df p = donor_label limits_mask df p' → p = p') ∧
  (∀ a a', a ∈ acceptor_position <$> df → a' ∈ acceptor_position <$> df →
           acceptor_label limits_mask df a = acceptor_label limits_mask df a' → a = a').
Proof.
  split.
  - intros (sd & sn & Hrun).
    destruct (decide (df = [])) as [->|Hdf].
    { split; [constructor|]. split; intros ? ? []%elem_of_nil. }
    destruct (get_df_distances_nb_contacts_gathered _ _ _ _ _ Hrun Hdf)
      as (dlbls & albls & Hdl & Hal & Hdonors & Hacceptors & Hdn & Han).
    assert (NoDup dlbls) as Hndd.
    { pose proof (append_new_all [] dlbls) as H. simpl in H.
      rewrite <-H; [apply append_new_NoDup|]. by rewrite <-Hdonors, Hdn. }
    assert (NoDup albls) as Hnda.
    { pose proof (append_new_all [] albls) as H. simpl in H.
      rewrite <-H; [apply append_new_NoDup|]. by rewrite <-Hacceptors, Han. }
    split; [|split].
    + revert Hrun. unfold get_df_distances_nb_contacts. cbv zeta.
      destruct (matrix_rows _ _ _ _ _ _) as [st|] eqn:Hrows; simpl; [|done].
      intros _.
      destruct (sorted_unique (donor_position <$> df)) as [|p ps] eqn:Hps.
      { by apply sorted_unique_nil, fmap_nil_inv in Hps. }
      destruct (sorted_unique (acceptor_position <$> df)) as [|a acs] eqn:Hacs.
      { by apply sorted_unique_nil, fmap_nil_inv in Hacs. }
      by eapply matrix_rows_counted.
    + intros p p' Hp Hp'.
      apply (mapM_inj _ _ _ _ _ Hdl Hndd); by apply (proj2 (sorted_unique_elem _ _)).
    + intros a a' Ha Ha'.
      apply (mapM_inj _ _ _ _ _ Hal Hnda); by apply (proj2 (sorted_unique_elem _ _)).
  - intros (Hcounts & Hdonors & Hacceptors).
    destruct (mapM_total (donor_label limits_mask df)
                (sorted_unique (donor_position <$> df))) as [dlbls Hdl].
    { intros p Hp. apply donor_label_total. by apply (proj1 (sorted_unique_elem _ _)). }
    destruct (mapM_total (acceptor_label limits_mask df)
                (sorted_unique (acceptor_position <$> df))) as [albls Hal].
    { intros a Ha. apply acceptor_label_total. by apply (proj1 (sorted_unique_elem _ _)). }
    eexists _, _.
    apply (get_df_distances_nb_contacts_result df dist_col limits_mask dlbls albls);
      [done|done|done| |].
    + apply (mapM_NoDup _ _ _ Hdl); [apply sorted_unique_NoDup|].
      intros p p' lbl Hp Hp' H1 H2.
      apply Hdonors; [by apply (proj1 (sorted_unique_elem _ _))
                     |by apply (proj1 (sorted_unique_elem _ _))|congruence].
    + apply (mapM_NoDup _ _ _ Hal); [apply sorted_unique_NoDup|].
      intros a a' lbl Ha Ha' H1 H2.
      apply Hacceptors; [by apply (proj1 (sorted_unique_elem _ _))
                        |by apply (proj1 (sorted_unique_elem _ _))|congruence].
Qed.

(** ** The heat maps of a run *)

Lemma sorted_unique_ext l l' : (∀ x, x ∈ l ↔ x ∈ l') → sorted_unique l = sorted_unique l'.
Proof.
  intros Hl. apply (StronglySorted_unique Z.le).
  - apply StronglySorted_merge_sort; apply _.
  - apply StronglySorted_merge_sort; apply _.
  - apply NoDup_Permutation; [apply sorted_unique_NoDup|apply sorted_unique_NoDup|].
    intros x. by rewrite !sorted_unique_elem.
Qed.

Lemma cells_ext {V : Type} (cell cell' : Z → Z → option V) ds acs :
  (∀ d a, d ∈ ds → a ∈ acs → cell d a = cell' d a) → cells cell ds acs = cells cell' ds acs.
Proof.
  intros Hc. unfold cells. apply list_fmap_ext. intros i a Ha.
  apply list_fmap_ext. intros j d Hd.
  apply Hc; by eapply list_elem_of_lookup_2.
Qed.

Lemma head_filter_unique {A : Type} (P : A → Prop) `{∀ x, Decision (P x)} (l : list A) x :
  x ∈ l → P x → (∀ y, y ∈ l → P y → y = x) → head (filter P l) = Some x.
Proof.
  intros Hx HP Hall.
  destruct (filter P l) as [|y k] eqn:Hf.
  - assert (x ∈ filter P l) as Hin by (by apply list_elem_of_filter).
    rewrite Hf in Hin. by apply elem_of_nil in Hin.
  - simpl. f_equal.
    assert (y ∈ filter P l) as [Hy Hyl]%list_elem_of_filter by (rewrite Hf; apply list_elem_of_here).
    by apply Hall.
Qed.

Lemma label_text_inj limits_mask p p' residue residue' :
  residue_name residue → residue_name residue' →
  label_text limits_mask p residue = label_text limits_mask p' residue' → p = p'.
Proof.
  intros [Hl _] [Hl' _].
  assert (∀ z z' : Z, pretty z +:+ residue = pretty z' +:+ residue' → z = z') as Hinj.
  { intros z z' Heq. apply (f_equal String.list_ascii_of_string) in Heq.
    rewrite !list_ascii_of_string_app in Heq.
    apply app_inj_2 in Heq as [Heq _]; [|congruence].
    by apply list_ascii_of_string_inj, (inj pretty) in Heq. }
  unfold label_text. destruct limits_mask as [m|]; intros Heq%Hinj; lia.
Qed.

Lemma head_filter_Some {A : Type} (P : A → Prop) `{∀ x, Decision (P x)} (l : list A) x :
  head (filter P l) = Some x → P x ∧ x ∈ l.
Proof.
  intros Hx. apply (proj1 (list_elem_of_filter P l x)).
  destruct (filter P l) as [|y k]; [done|]. injection Hx as ->. apply list_elem_of_here.
Qed.

Section heat_map_rows.
Context (contacts : list string) (zrows : list (stats_row Z)).
Context (limits_roi : option bounds) (blocks : list block) (dist_col : metric).
Context (Hall : Forall2 row_of_contact contacts zrows).
Context (Hgrouped : grouped (restricted limits_roi zrows) blocks).

Local Abbreviation out := (block_reduced dist_col <$> blocks).
Local Abbreviation at_pair d a :=
  (λ z : stats_row Z, donor_position z = d ∧ acceptor_position z = a).

Lemma at_pair_roi d a :
  in_roi limits_roi d →
  filter (at_pair d a) (restricted limits_roi zrows) = filter (at_pair d a) zrows.
Proof.
  intros Hd. clear Hgrouped. destruct limits_roi as [roi|]; [|done]. simpl.
  unfold select_roi. rewrite list_filter_filter. apply filter_ext_elem. intros x _.
  split; [by intros [? _]|]. intros [Hx Ha]. split; [done|]. simpl in Hd. by rewrite Hx.
Qed.

Lemma at_pair_contacts d a :
  length (filter (at_pair d a) zrows) = length (contacts_between contacts d a).
Proof using Hall.
  symmetry. apply (Forall2_filter_length _ _ row_of_contact); [|done].
  intros key z (_ & _ & _ & _ & _ & _ & Hd & _ & Ha & _). by rewrite Hd, Ha.
Qed.

Lemma out_rows r :
  r ∈ out → in_roi limits_roi (donor_position r) ∧ ∃ key, key ∈ contacts ∧ row_of_contact key r.
Proof using Hall Hgrouped.
  intros (b & -> & Hb)%list_elem_of_fmap.
  pose proof (block_elem zrows limits_roi blocks Hgrouped b _ Hb (block_min_elem dist_col b))
    as [Hroi [i Hi]%list_elem_of_lookup]%restricted_elem.
  split; [done|].
  destruct (Forall2_lookup_r _ _ _ _ _ Hall Hi) as (key & Hkey & Hrow).
  exists key. split; [by eapply list_elem_of_lookup_2|]. exact Hrow.
Qed.

Lemma contacts_out key :
  key ∈ roi_contacts limits_roi contacts →
  ∃ r, r ∈ out ∧ donor_position r = donor_of pattern_contact key ∧
       acceptor_position r = acceptor_of pattern_contact key.
Proof using Hall Hgrouped.
  intros [Hroi [i Hi]%list_elem_of_lookup]%list_elem_of_filter.
  destruct (Forall2_lookup_l _ _ _ _ _ Hall Hi) as (z & Hz & Hkz).
  pose proof Hkz as (_ & _ & _ & _ & _ & _ & Hd & _ & Ha & _).
  assert (z ∈ restricted limits_roi zrows) as Hzr.
  { apply restricted_elem. split; [by rewrite Hd|by eapply list_elem_of_lookup_2]. }
  rewrite (grouped_rows _ _ Hgrouped) in Hzr.
  apply list_elem_of_bind in Hzr as (b & Hzb & Hb).
  exists (block_reduced dist_col b). split; [by apply list_elem_of_fmap_2|].
  destruct (grouped_same _ _ Hgrouped b z (block_min dist_col b) Hb Hzb (block_min_elem _ _))
    as [[Hd' Ha'] _].
  change (donor_position (block_reduced dist_col b))
    with (donor_position (block_min dist_col b)).
  change (acceptor_position (block_reduced dist_col b))
    with (acceptor_position (block_min dist_col b)).
  by rewrite Hd', Ha'.
Qed.

Lemma out_donors :
  sorted_unique (donor_position <$> out)
  = sorted_unique (donor_of pattern_contact <$> roi_contacts limits_roi contacts).
Proof using Hall Hgrouped.
  apply sorted_unique_ext. intros x. split.
  - intros (r & -> & [Hroi (key & Hkey & Hrow)]%out_rows)%list_elem_of_fmap.
    destruct Hrow as (_ & _ & _ & _ & _ & _ & Hd & _).
    apply list_elem_of_fmap. exists key. split; [done|].
    apply list_elem_of_filter. split; [by rewrite <-Hd|done].
  - intros (key & -> & (r & Hr & Hd & _)%contacts_out)%list_elem_of_fmap.
    apply list_elem_of_fmap. by exists r.
Qed.

Lemma out_acceptors :
  sorted_unique (acceptor_position <$> out)
  = sorted_unique (acceptor_of pattern_contact <$> roi_contacts limits_roi contacts).
Proof using Hall Hgrouped.
  apply sorted_unique_ext. intros x. split.
  - intros (r & -> & [Hroi (key & Hkey & Hrow)]%out_rows)%list_elem_of_fmap.
    destruct Hrow as (_ & _ & _ & _ & _ & _ & Hd & _ & Ha & _).
    apply list_elem_of_fmap. exists key. split; [done|].
    apply list_elem_of_filter. split; [by rewrite <-Hd|done].
  - intros (key & -> & (r & Hr & _ & Ha)%contacts_out)%list_elem_of_fmap.
    apply list_elem_of_fmap. by exists r.
Qed.

Lemma contact_at_reduced d a :
  contact_at out d a
  = with_number_contacts
      (Some (length (filter (at_pair d a) (restricted limits_roi zrows)))) <$>
    least dist_col (filter (at_pair d a) (restricted limits_roi zrows)).
Proof using Hgrouped.
  destruct (filter (at_pair d a) (restricted limits_roi zrows)) as [|z g] eqn:HG.
  - simpl. unfold contact_at. rewrite filter_none; [done|].
    intros r (b & -> & Hb)%list_elem_of_fmap Hr.
    assert (block_min dist_col b ∈ filter (at_pair d a) (restricted limits_roi zrows)) as Hin.
    { apply list_elem_of_filter. split; [exact Hr|].
      by eapply block_elem, block_min_elem. }
    rewrite HG in Hin. by apply elem_of_nil in Hin.
  - assert (z ∈ filter (at_pair d a) (restricted limits_roi zrows)) as [[Hzd Hza] Hz]%list_elem_of_filter
      by (rewrite HG; apply list_elem_of_here).
    rewrite (grouped_rows _ _ Hgrouped) in Hz.
    apply list_elem_of_bind in Hz as (b & Hzb & [i Hi]%list_elem_of_lookup).
    assert (b ∈ blocks) as Hb by (by eapply list_elem_of_lookup_2).
    destruct (grouped_same _ _ Hgrouped b z b.1 Hb Hzb (list_elem_of_here _ _)) as [[Hd1 Ha1] _].
    assert (block_rows b = z :: g) as Hrows.
    { rewrite <-(grouped_filter _ _ Hgrouped i b Hi), <-HG.
      apply filter_ext_elem. intros x _. unfold same_pair. by rewrite Hd1, Ha1, Hzd, Hza. }
    assert (block_min dist_col b = first_min_from dist_col z g) as Hmin.
    { unfold block_min. unfold block_rows in Hrows. by injection Hrows as -> ->. }
    simpl. rewrite <-Hmin.
    assert (at_pair d a (block_min dist_col b)) as Hp.
    { pose proof (block_min_elem dist_col b) as Hin. rewrite Hrows, <-HG in Hin.
      by apply list_elem_of_filter in Hin as [? _]. }
    unfold contact_at.
    rewrite (head_filter_unique _ _ (block_reduced dist_col b)).
    + unfold block_reduced. by rewrite Hrows.
    + by apply list_elem_of_fmap_2.
    + exact Hp.
    + intros r (b' & -> & [j Hj]%list_elem_of_lookup)%list_elem_of_fmap [Hrd Hra].
      destruct (decide (i = j)) as [<-|Hne]; [congruence|].
      destruct (grouped_apart _ _ Hgrouped i j b b' (block_min dist_col b)
                  (block_min dist_col b') Hi Hj Hne (block_min_elem _ _) (block_min_elem _ _))
        as [Hns _].
      destruct Hns. destruct Hp as [Hpd Hpa]. split.
      * change (donor_position (block_min dist_col b') = donor_position (block_min dist_col b)).
        change (donor_position (block_min dist_col b') = d) in Hrd. congruence.
      * change (acceptor_position (block_min dist_col b')
                = acceptor_position (block_min dist_col b)).
        change (acceptor_position (block_min dist_col b') = a) in Hra. congruence.
Qed.

End heat_map_rows.

Section heat_map_matrices.
Context (contacts : list string) (table : list (stats_row cell)).
Context (limits_roi : option bounds) (blocks : list block) (dist_col : metric).
Context (Hall : Forall2 row_of_contact contacts (numbered <$> table)).
Context (Hgrouped : grouped (restricted limits_roi (numbered <$> table)) blocks).

Local Abbreviation out := (block_reduced dist_col <$> blocks).
Local Abbreviation donor_positions :=
  (sorted_unique (donor_of pattern_contact <$> roi_contacts limits_roi contacts)).
Local Abbreviation acceptor_positions :=
  (sorted_unique (acceptor_of pattern_contact <$> roi_contacts limits_roi contacts)).

Lemma donor_positions_roi d : d ∈ donor_positions → in_roi limits_roi d.
Proof.
  intros (key & -> & [Hroi _]%list_elem_of_filter)%sorted_unique_elem%list_elem_of_fmap.
  done.
Qed.

Lemma out_distance d a :
  d ∈ donor_positions →
  distance dist_col <$> contact_at out d a
  = distance dist_col <$> least dist_col (rows_between table d a).
Proof using Hgrouped.
  intros Hd%donor_positions_roi.
  rewrite (contact_at_reduced _ _ _ _ Hgrouped), at_pair_roi by done.
  unfold rows_between. by destruct (least dist_col _).
Qed.

Lemma out_count d a :
  d ∈ donor_positions →
  contact_at out d a ≫= number_contacts = contacts_count contacts d a.
Proof using Hall Hgrouped.
  intros Hd%donor_positions_roi.
  rewrite (contact_at_reduced _ _ _ _ Hgrouped), at_pair_roi by done.
  unfold contacts_count. rewrite <-(at_pair_contacts contacts _ Hall).
  by destruct (filter _ _).
Qed.

Lemma out_donor_label limits_mask p lbl :
  donor_label limits_mask out p = Ok lbl →
  donor_labelled contacts limits_mask p lbl ∧
  ∃ residue, residue_name residue ∧ lbl = label_text limits_mask p residue.
Proof using Hall Hgrouped.
  intros (r & [Hp Hr]%head_filter_Some & ->)%donor_label_Ok.
  apply (out_rows contacts _ _ _ _ Hall Hgrouped) in Hr as [_ (key & Hkey & Hrow)].
  pose proof Hrow as (g1 & g2 & g3 & g4 & Hm & _ & Hd & Hr1 & _).
  destruct (row_of_contact_groups _ _ Hrow) as (? & ? & ? & ? & _ & _ & _ & <- & _ & Hn & _).
  split; [|by eexists].
  exists key, g1, g2, g3, g4. rewrite Hr1. split_and!; [done|done|congruence|done].
Qed.

Lemma out_acceptor_label limits_mask p lbl :
  acceptor_label limits_mask out p = Ok lbl →
  acceptor_labelled contacts limits_mask p lbl ∧
  ∃ residue, residue_name residue ∧ lbl = label_text limits_mask p residue.
Proof using Hall Hgrouped.
  intros (r & [Hp Hr]%head_filter_Some & ->)%acceptor_label_Ok.
  apply (out_rows contacts _ _ _ _ Hall Hgrouped) in Hr as [_ (key & Hkey & Hrow)].
  pose proof Hrow as (g1 & g2 & g3 & g4 & Hm & _ & _ & _ & Ha & Hr3).
  destruct (row_of_contact_groups _ _ Hrow) as (? & ? & ? & ? & _ & _ & _ & _ & <- & _ & Hn).
  split; [|by eexists].
  exists key, g1, g2, g3, g4. rewrite Hr3. split_and!; [done|done|congruence|done].
Qed.

Lemma out_matrices limits_mask :
  ∃ dlbls albls,
    get_df_distances_nb_contacts out dist_col limits_mask
    = Ok (Matrix dlbls albls
            (cells (λ d a, distance dist_col <$> least dist_col (rows_between table d a))
               donor_positions acceptor_positions),
          Matrix dlbls albls
            (cells (contacts_count contacts) donor_positions acceptor_positions)) ∧
    Forall2 (donor_labelled contacts limits_mask) donor_positions dlbls ∧
    Forall2 (acceptor_labelled contacts limits_mask) acceptor_positions albls.
Proof using Hall Hgrouped.
  destruct (mapM_total (donor_label limits_mask out) (sorted_unique (donor_position <$> out)))
    as [dlbls Hdl].
  { intros p Hp. apply donor_label_total. by apply (proj1 (sorted_unique_elem _ _)). }
  destruct (mapM_total (acceptor_label limits_mask out)
              (sorted_unique (acceptor_position <$> out))) as [albls Hal].
  { intros p Hp. apply acceptor_label_total. by apply (proj1 (sorted_unique_elem _ _)). }
  exists dlbls, albls. split; [|split].
  - rewrite (get_df_distances_nb_contacts_result out dist_col limits_mask dlbls albls).
    + rewrite (out_donors contacts _ _ _ _ Hall Hgrouped),
        (out_acceptors contacts _ _ _ _ Hall Hgrouped).
      do 2 f_equal; f_equal; apply cells_ext; intros d a Hd _;
        [by apply out_distance|by apply out_count].
    + apply Forall_fmap, Forall_forall. intros b _. by eexists.
    + done.
    + done.
    + apply (mapM_NoDup _ _ _ Hdl); [apply sorted_unique_NoDup|].
      intros p p' lbl _ _ [_ (res & Hres & ->)]%out_donor_label
        [_ (res' & Hres' & Heq)]%out_donor_label.
      exact (label_text_inj limits_mask p p' res res' Hres Hres' Heq).
    + apply (mapM_NoDup _ _ _ Hal); [apply sorted_unique_NoDup|].
      intros p p' lbl _ _ [_ (res & Hres & ->)]%out_acceptor_label
        [_ (res' & Hres' & Heq)]%out_acceptor_label.
      exact (label_text_inj limits_mask p p' res res' Hres Hres' Heq).
  - rewrite <-(out_donors contacts _ _ _ dist_col Hall Hgrouped).
    apply mapM_Ok in Hdl. eapply Forall2_impl; [exact Hdl|].
    intros p lbl Hp. by apply out_donor_label in Hp as [? _].
  - rewrite <-(out_acceptors contacts _ _ _ dist_col Hall Hgrouped).
    apply mapM_Ok in Hal. eapply Forall2_impl; [exact Hal|].
    intros p lbl Hp. by apply out_acceptor_label in Hp as [? _].
Qed.

End heat_map_matrices.

Lemma coerced_numeric t t' zrows :
  numeric_table t = Ok zrows → Forall2 coerced t t' → t' = cell_row <$> zrows.
Proof.
  intros Hn%mapM_Ok Hc. revert zrows Hn.
  induction Hc as [|r r' t t' Hr _ IH]; intros zrows Hn.
  - by apply Forall2_nil_inv_l in Hn as ->.
  - apply Forall2_cons_inv_l in Hn as (z & zrows' & Hz & Hn & ->).
    csimpl. f_equal; [|by apply IH].
    destruct Hr as (d & a & Hd & Ha & ->). rewrite Hd, Ha in Hz. simpl in Hz.
    injection Hz as <-. by destruct r.
Qed.

Lemma numeric_table_cell_row zrows : numeric_table (cell_row <$> zrows) = Ok zrows.
Proof.
  apply mapM_Ok_2. apply Forall2_fmap_l, Forall_Forall2_diag, Forall_forall.
  by intros [] _.
Qed.

Lemma mapM_invariant {A B : Type} (f : A → M B) (I : store → Prop) (Q : A → B → Prop)
    (l : list A) (σ : store) :
  I σ →
  (∀ x σ, I σ → ∃ σ' y, f x σ = (σ', Ok y) ∧ I σ' ∧ Q x y) →
  ∃ σ' k, mapM f l σ = (σ', Ok k) ∧ I σ' ∧ Forall2 Q l k.
Proof.
  intros Hσ Hf. revert σ Hσ. induction l as [|x l IH]; intros σ Hσ.
  - exists σ, []. by repeat split.
  - destruct (Hf x σ Hσ) as (σ1 & y & Hx & Hσ1 & Hy).
    destruct (IH σ1 Hσ1) as (σ2 & k & Hl & Hσ2 & Hk).
    exists σ2, (y :: k). split; [|split; [done|by constructor]].
    cbn [mapM]. erewrite M_bind_Ok; [|exact Hx]. erewrite M_bind_Ok; [|exact Hl]. done.
Qed.

Section heat_map_run.
Context (contacts : list string) (table : list (stats_row cell)).
Context (Hall : Forall2 row_of_contact contacts (numbered <$> table)).
Context (Hgrouped : ∀ limits_roi,
           grouped (restricted limits_roi (numbered <$> table))
             (group_adjacent (restricted limits_roi (numbered <$> table)))).

(** What a heat map of the run is. *)
Local Abbreviation drawn limits distances_col hm :=
  (∃ donors acceptors,
     hm = contacts_heat_map contacts table (l_roi limits) donors acceptors distances_col ∧
     Forall2 (donor_labelled contacts (l_mask limits))
       (sorted_unique (donor_of pattern_contact <$> roi_contacts (l_roi limits) contacts))
       donors ∧
     Forall2 (acceptor_labelled contacts (l_mask limits))
       (sorted_unique (acceptor_of pattern_contact <$> roi_contacts (l_roi limits) contacts))
       acceptors).

Lemma heat_map_contacts_run stats (σ : store) t distances_col limits :
  σ !! stats = Some t → numeric_table t = Ok (numbered <$> table) →
  ∃ σ' hm,
    heat_map_contacts stats distances_col limits σ = (σ', Ok hm) ∧
    σ' !! stats = Some (cell_row <$> (numbered <$> table)) ∧
    drawn limits distances_col hm.
Proof using Hall Hgrouped.
  intros Hσ Hn.
  destruct (reduce_contacts_dataframe_run stats σ t _ distances_col (l_roi limits) _
              Hσ Hn (Hgrouped (l_roi limits))) as (σ' & out & Hrun & Hout).
  destruct (out_matrices contacts table (l_roi limits) _ distances_col Hall
              (Hgrouped (l_roi limits)) (l_mask limits)) as (dlbls & albls & Hget & Hd & Ha).
  eexists σ', _. split; [|split].
  - unfold heat_map_contacts.
    erewrite M_bind_Ok; [|exact Hrun].
    erewrite M_bind_Ok; [|by apply read_Ok].
    erewrite M_bind_Ok; [|unfold lift; by rewrite numeric_rows_cell_row].
    erewrite M_bind_Ok; [|unfold lift; by rewrite Hget].
    reflexivity.
  - destruct (reduce_contacts_dataframe_store _ _ _ _ _ _ Hrun)
      as (t0 & t' & Ht0 & Hc & Ht' & _).
    assert (t0 = t) as -> by congruence.
    by rewrite Ht', (coerced_numeric _ _ _ Hn Hc).
  - exists dlbls, albls. split; [|done]. unfold contacts_heat_map. cbn [m_index].
    by rewrite (Forall2_length _ _ _ Hd).
Qed.

Lemma heat_map_contacts_saved_run stats (σ : store) t distances_col basename mask out_dir
    output_fmt limits :
  σ !! stats = Some t → numeric_table t = Ok (numbered <$> table) →
  (l_roi limits = None ∨ is_Some (l_mask limits)) →
  ∃ σ' fig,
    heat_map_contacts_saved stats distances_col basename mask out_dir output_fmt limits σ
    = (σ', Ok fig) ∧
    σ' !! stats = Some (cell_row <$> (numbered <$> table)) ∧
    drawn limits distances_col (fig_heat_map fig).
Proof using Hall Hgrouped.
  intros Hσ Hn Hlimits.
  destruct (heat_map_contacts_run stats σ t distances_col limits Hσ Hn)
    as (σ' & hm & Hrun & Hσ' & Hhm).
  assert (∃ subtitle, heat_map_subtitle mask limits = Ok subtitle) as [subtitle Hsub].
  { unfold heat_map_subtitle. destruct (l_roi limits) as [roi|]; [|by eexists].
    destruct Hlimits as [|[m ->]]; [done|]. by eexists. }
  eexists σ', _. split; [|split; [exact Hσ'|]].
  - unfold heat_map_contacts_saved.
    erewrite M_bind_Ok; [|exact Hrun].
    erewrite M_bind_Ok; [|unfold lift; by rewrite Hsub].
    reflexivity.
  - exact Hhm.
Qed.

Lemma main_heat_maps_run stats (σ : store) basename mask roi_hm out format limits :
  σ !! stats = Some table → numeric_table table = Ok (numbered <$> table) →
  check_limits mask roi_hm = Ok limits →
  (truthy roi_hm = None ∨ is_Some (truthy mask)) →
  ∃ σ' figures,
    main_heat_maps stats basename mask roi_hm out format limits σ = (σ', Ok figures) ∧
    Forall2 (λ distances_col fig, drawn limits distances_col (fig_heat_map fig))
      [Half_mean; Half_median; Whole_mean; Whole_median] figures.
Proof using Hall Hgrouped.
  intros Hσ Hn [Hm Hr]%check_limits_Ok_inv Hgiven.
  assert (l_roi limits = None ∨ is_Some (l_mask limits)) as Hlimits.
  { destruct Hgiven as [Hroi|Hmask]; [left; by apply Hr|right].
    destruct (l_mask limits); [by eexists|]. rewrite (proj1 Hm eq_refl) in Hmask.
    by destruct Hmask. }
  assert (∃ text, hm_text roi_hm limits = Ok text) as [text Htext].
  { unfold hm_text. destruct (truthy roi_hm) as [s|] eqn:Hroi; [|by eexists].
    destruct Hlimits as [Hnone|[m ->]]; [apply Hr in Hnone; congruence|].
    destruct (l_roi limits) as [r|] eqn:Hlr; [by eexists|].
    by pose proof (proj1 Hr eq_refl). }
  destruct (mapM_invariant
              (λ distances_column_id,
                 heat_map_contacts_saved stats distances_column_id basename mask out format
                   limits)
              (λ σ, ∃ t, σ !! stats = Some t ∧ numeric_table t = Ok (numbered <$> table))
              (λ distances_col fig, drawn limits distances_col (fig_heat_map fig))
              [Half_mean; Half_median; Whole_mean; Whole_median] σ)
    as (σ' & figures & Hrun & _ & Hfigures).
  { by exists table. }
  { intros distances_col σ0 (t & Ht & Hnt).
    destruct (heat_map_contacts_saved_run stats σ0 t distances_col basename mask out format
                limits Ht Hnt Hlimits) as (σ1 & fig & Hfig & Hσ1 & Hdrawn).
    exists σ1, fig. split; [done|]. split; [|done].
    eexists. split; [exact Hσ1|]. apply numeric_table_cell_row. }
  exists σ', figures. split; [|done].
  unfold main_heat_maps. erewrite M_bind_Ok; [|unfold lift; by rewrite Htext]. exact Hrun.
Qed.

End heat_map_run.

(** X28.  The end of the main block on the statistics of a run: when every
    residue position has one residue name in the names of the contacts, and
    a ROI comes with a mask, the four heat maps are computed, one for each
    distance column (the drawing by seaborn is not embedded).  Each has a
    row for every donor position the ROI keeps and a column for every
    acceptor position of these contacts, in increasing order and labelled
    by position and residue name; a square holds the least distance of the
    contacts between the two positions and their number, and nothing when
    there is none. *)
Theorem main_heat_maps_counted (mean median : list float → result float)
    (round2 : float → float) traj dist_thr occupancy_thr df rows table stats (σ : store)
    basename mask roi_hm out format limits :
  hydrogen_bonds traj dist_thr occupancy_thr pattern_contact = Ok df →
  contacts_csv mean median round2 df pattern_contact = Ok (stats_columns rows) →
  stats_table rows = Some table →
  one_name_per_position (candidates traj) →
  check_limits mask roi_hm = Ok limits →
  truthy roi_hm = None ∨ is_Some (truthy mask) →
  σ !! stats = Some table →
  ∃ σ' figures,
    main_heat_maps stats basename mask roi_hm out format limits σ = (σ', Ok figures) ∧
    Forall2
      (λ distances_col fig,
         ∃ donors acceptors,
           fig_heat_map fig
           = contacts_heat_map (drop 1 (columns df)) table (l_roi limits) donors acceptors
               distances_col ∧
           Forall2 (donor_labelled (drop 1 (columns df)) (l_mask limits))
             (sorted_unique
                (donor_of pattern_contact <$>
                 roi_contacts (l_roi limits) (drop 1 (columns df))))
             donors ∧
           Forall2 (acceptor_labelled (drop 1 (columns df)) (l_mask limits))
             (sorted_unique
                (acceptor_of pattern_contact <$>
                 roi_contacts (l_roi limits) (drop 1 (columns df))))
             acceptors)
      [Half_mean; Half_median; Whole_mean; Whole_median] figures.
Proof.
  intros Hhb Hcsv Htable Hone Hlimits Hgiven Hσ.
  destruct (pipeline_table _ _ _ _ _ _ _ _ _ Hhb Hcsv Htable Hone) as (Hnum & Hall & Hg).
  by apply main_heat_maps_run.
Qed.

Lemma main_heat_maps_counted_witness :
  ∃ σ' figures,
    main_heat_maps 1%positive "md" (Some ":1-20") (Some "4-6") "results" "svg"
      (Limits (Some (Bounds 1 20)) (Some (Bounds 4 6))) {[1%positive := paired_table]}
    = (σ', Ok figures) ∧
    Forall2
      (λ distances_col fig,
         ∃ donors acceptors,
           fig_heat_map fig
           = contacts_heat_map (drop 1 (columns paired_contacts)) paired_table
               (Some (Bounds 4 6)) donors acceptors distances_col ∧
           Forall2 (donor_labelled (drop 1 (columns paired_contacts)) (Some (Bounds 1 20)))
             (sorted_unique
                (donor_of pattern_contact <$>
                 roi_contacts (Some (Bounds 4 6)) (drop 1 (columns paired_contacts))))
             donors ∧
           Forall2 (acceptor_labelled (drop 1 (columns paired_contacts)) (Some (Bounds 1 20)))
             (sorted_unique
                (acceptor_of pattern_contact <$>
                 roi_contacts (Some (Bounds 4 6)) (drop 1 (columns paired_contacts))))
             acceptors)
      [Half_mean; Half_median; Whole_mean; Whole_median] figures.
Proof.
  apply (main_heat_maps_counted sample_mean sample_median (λ x, x) paired_traj 3 20
           paired_contacts paired_rows paired_table 1%positive {[1%positive := paired_table]}
           "md" (Some ":1-20") (Some "4-6") "results" "svg"
           (Limits (Some (Bounds 1 20)) (Some (Bounds 4 6)))).
  - vm_compute. reflexivity.
  - vm_compute. reflexivity.
  - vm_compute. reflexivity.
  - intros key key' g1 g2 g3 g4 g1' g2' g3' g4' Hk Hk' Hm Hm'.
    repeat (apply elem_of_cons in Hk as [->|Hk]); try (by apply elem_of_nil in Hk);
      repeat (apply elem_of_cons in Hk' as [->|Hk']); try (by apply elem_of_nil in Hk');
      vm_compute in Hm, Hm'; injection Hm as <- <- <- <-; injection Hm' as <- <- <- <-;
      split; intros H; try reflexivity; vm_compute in H; discriminate.
  - vm_compute. reflexivity.
  - right. by eexists.
  - apply lookup_singleton_eq.
Defined.
